(** * Carb Estimator: the response normalizer of [src/app/page.tsx]

    A shallow embedding of the pure logic of the page component:
    the regular expressions and [Number.parseInt] calls of
    [generateEstimatedCarbData], the three-stage parse of [analyzeImage],
    the dimension arithmetic of [compressImage] and the handlers that guard
    on the API key. *)

From Stdlib Require Import String Ascii.
From Stdlib Require Import List NArith ZArith QArith Qround Bool Sorted.
From Stdlib Require Import Lia Lra Psatz SpecFloat.
Import ListNotations.
Close Scope Q_scope.

Set Implicit Arguments.
Set Warnings "-register-all".


(* ================================================================= *)
(** ** Text: JavaScript strings as sequences of UTF-16 code units *)

Module Text.

Definition code_unit := N.
Definition text := list code_unit.

Definition of_string (s : string) : text :=
  map N_of_ascii (list_ascii_of_string s).

(** JSON examples are written with ['] where the JSON has a double quote. *)
Definition json_text (s : string) : text :=
  map (fun c => if N.eqb c 39 then 34 else c)%N (of_string s).

Definition in_range (lo hi c : N) : bool := (N.leb lo c && N.leb c hi)%bool.

(** [\d] *)
Definition is_digit (c : code_unit) : bool := in_range 48 57 c.

(** [\w]: without the [u] flag the [i] flag adds nothing to the class *)
Definition is_word (c : code_unit) : bool :=
  is_digit c || in_range 65 90 c || in_range 97 122 c || N.eqb c 95.

(** [\s]: ECMAScript WhiteSpace and LineTerminator, also what
    [String.prototype.trim] and [parseInt] strip *)
Definition is_space (c : code_unit) : bool :=
  in_range 9 13 c || N.eqb c 32 || N.eqb c 160 || N.eqb c 5760
  || in_range 8192 8202 c || N.eqb c 8232 || N.eqb c 8233 || N.eqb c 8239
  || N.eqb c 8287 || N.eqb c 12288 || N.eqb c 65279.

(** Canonicalize of the [i] flag without [u]: a code unit of 128 or more
    never canonicalizes to an ASCII one, so on the ASCII pattern characters
    used here only the ASCII letters fold. *)
Definition canonicalize (c : code_unit) : code_unit :=
  if in_range 97 122 c then (c - 32)%N else c.

Fixpoint drop_while (p : code_unit -> bool) (t : text) : text :=
  match t with
  | c :: t' => if p c then drop_while p t' else t
  | [] => []
  end.

(** [String.prototype.trim] *)
Definition trim (t : text) : text :=
  rev (drop_while is_space (rev (drop_while is_space t))).

Definition text_eqb (a b : text) : bool :=
  if list_eq_dec N.eq_dec a b then true else false.

End Text.
Import Text.

(* ================================================================= *)
(** ** Regular expressions: the backtracking matcher of ECMAScript,
       for the pattern constructs the page uses *)

Module Regex.

Inductive charset :=
| CsChar (c : code_unit)          (* a pattern character *)
| CsDigit                         (* \d *)
| CsWord                          (* \w *)
| CsSpace                         (* \s *)
| CsNotSpace                      (* \S *)
| CsUnion (a b : charset).        (* [ab] *)

(** Every quantified atom of the page's patterns is a one-character class,
    so [Star] and [Plus] range over classes. *)
Inductive regex :=
| Eps
| Chr (cs : charset)
| Seq (r1 r2 : regex)
| Alt (r1 r2 : regex)
| Opt (r : regex)                         (* r?   *)
| Star (greedy : bool) (cs : charset)     (* cs*  and cs*? *)
| Plus (greedy : bool) (cs : charset)     (* cs+  and cs+? *)
| Group (n : nat) (r : regex).            (* the n-th capturing parenthesis *)

Fixpoint cs_match (icase : bool) (cs : charset) (c : code_unit) : bool :=
  match cs with
  | CsChar p => if icase then N.eqb (canonicalize c) (canonicalize p) else N.eqb c p
  | CsDigit => is_digit c
  | CsWord => is_word c
  | CsSpace => is_space c
  | CsNotSpace => negb (is_space c)
  | CsUnion a b => cs_match icase a c || cs_match icase b c
  end.

(** A capture is a range: the input where the group started, and the end
    indices before and after the group. *)
Definition capture := (text * nat * nat)%type.

Definition capture_text (v : capture) : text :=
  let '(inp, from, to) := v in firstn (to - from) inp.

(** Captures, most recent binding first. *)
Definition caps := list (nat * capture).

Fixpoint get_cap (n : nat) (c : caps) : option text :=
  match c with
  | (k, v) :: c' => if Nat.eqb k n then Some (capture_text v) else get_cap n c'
  | [] => None
  end.

(** A match state is an end index (counted from where the attempt starts),
    the input from that index on and the captures; a continuation receives
    one and completes the match. *)
Definition cont := nat -> text -> caps -> option (nat * text * caps).

Section Matcher.
Variable icase : bool.

Fixpoint star_greedy (cs : charset) (k : cont) (e : nat) (inp : text) (c : caps)
  : option (nat * text * caps) :=
  match inp with
  | x :: rest =>
      if cs_match icase cs x then
        match star_greedy cs k (S e) rest c with
        | Some res => Some res
        | None => k e inp c
        end
      else k e inp c
  | [] => k e inp c
  end.

Fixpoint star_lazy (cs : charset) (k : cont) (e : nat) (inp : text) (c : caps)
  : option (nat * text * caps) :=
  match inp with
  | x :: rest =>
      match k e inp c with
      | Some res => Some res
      | None => if cs_match icase cs x then star_lazy cs k (S e) rest c else None
      end
  | [] => k e inp c
  end.

Definition star (greedy : bool) := if greedy then star_greedy else star_lazy.

Fixpoint rmatch (r : regex) (k : cont) (e : nat) (inp : text) (c : caps)
  : option (nat * text * caps) :=
  match r with
  | Eps => k e inp c
  | Chr cs =>
      match inp with
      | x :: rest => if cs_match icase cs x then k (S e) rest c else None
      | [] => None
      end
  | Seq r1 r2 => rmatch r1 (fun e1 i c1 => rmatch r2 k e1 i c1) e inp c
  | Alt r1 r2 =>
      match rmatch r1 k e inp c with
      | Some res => Some res
      | None => rmatch r2 k e inp c
      end
  | Opt r1 =>
      (* an iteration that matches the empty string is rejected *)
      match rmatch r1 (fun e1 i c1 => if Nat.eqb e1 e then None else k e1 i c1)
              e inp c with
      | Some res => Some res
      | None => k e inp c
      end
  | Star g cs => star g cs k e inp c
  | Plus g cs =>
      match inp with
      | x :: rest => if cs_match icase cs x then star g cs k (S e) rest c else None
      | [] => None
      end
  | Group n r1 =>
      rmatch r1 (fun e1 i c1 => k e1 i ((n, (inp, e, e1)) :: c1)) e inp c
  end.

(** The result of one successful [exec]: where the match starts and ends,
    the matched text ([match[0]]), the captures and the input after the
    match. *)
Record rmatch_result := MatchResult {
  m_index : nat;
  m_end : nat;
  m_text : text;
  m_caps : caps;
  m_rest : text
}.

(** One attempt at index [idx], where [inp] starts; the matcher counts its
    end index from there. *)
Definition match_here (r : regex) (idx : nat) (inp : text) : option rmatch_result :=
  match rmatch r (fun e i c => Some (e, i, c)) 0 inp [] with
  | Some (e, rest, c) => Some (MatchResult idx (idx + e) (firstn e inp) c rest)
  | None => None
  end.

(** RegExpBuiltinExec from [lastIndex = idx]: the first index at which the
    pattern matches, the end of the input included. *)
Fixpoint search_from (r : regex) (idx : nat) (inp : text) : option rmatch_result :=
  match match_here r idx inp with
  | Some res => Some res
  | None =>
      match inp with
      | _ :: rest => search_from r (S idx) rest
      | [] => None
      end
  end.

(** [while ((match = re.exec(s)) !== null) ...] on a global pattern: each
    [exec] starts at [lastIndex], which a match sets to its end.  [None]
    when the fuel runs out, as it does when a match is empty: [lastIndex]
    then stays where it is and the loop does not end. *)
Fixpoint exec_loop (fuel : nat) (r : regex) (lastIndex : nat) (inp : text)
  : option (list rmatch_result) :=
  match fuel with
  | O => None
  | S fuel' =>
      match search_from r lastIndex inp with
      | None => Some []
      | Some res =>
          match exec_loop fuel' r (m_end res) (m_rest res) with
          | Some l => Some (res :: l)
          | None => None
          end
      end
  end.

End Matcher.

(** [s.match(re)] for a pattern without the [g] flag *)
Definition str_match (icase : bool) (r : regex) (s : text) : option rmatch_result :=
  search_from icase r 0 s.

(** The capture [match[n]] *)
Definition group (n : nat) (res : rmatch_result) : option text :=
  get_cap n (m_caps res).

(** Pattern text *)
Definition lit (s : string) : regex :=
  fold_right (fun ch r => Seq (Chr (CsChar ch)) r) Eps (of_string s).

Fixpoint seqs (rs : list regex) : regex :=
  match rs with
  | [] => Eps
  | [r] => r
  | r :: rs' => Seq r (seqs rs')
  end.

(** The groups of a pattern *)
Fixpoint group_ids (r : regex) : list nat :=
  match r with
  | Seq r1 r2 | Alt r1 r2 => group_ids r1 ++ group_ids r2
  | Opt r1 => group_ids r1
  | Group n r1 => n :: group_ids r1
  | _ => []
  end.

(** A lower bound on the length of what a pattern matches *)
Fixpoint min_len (r : regex) : nat :=
  match r with
  | Chr _ | Plus _ _ => 1
  | Seq r1 r2 => min_len r1 + min_len r2
  | Alt r1 r2 => Nat.min (min_len r1) (min_len r2)
  | Group _ r1 => min_len r1
  | _ => 0
  end.

(** Group [n] is [(\d+)], it is not optional and no later group has its
    number *)
Fixpoint binds_digits (n : nat) (r : regex) : bool :=
  match r with
  | Group m (Plus _ CsDigit) => Nat.eqb m n
  | Seq r1 r2 =>
      (binds_digits n r1 && negb (existsb (Nat.eqb n) (group_ids r2)))
      || binds_digits n r2
  | _ => false
  end.

(** Group [n] starts with [\w+], it is not optional and no later group has
    its number *)
Fixpoint binds_word (n : nat) (r : regex) : bool :=
  match r with
  | Group m (Seq (Plus _ CsWord) _) => Nat.eqb m n
  | Seq r1 r2 =>
      (binds_word n r1 && negb (existsb (Nat.eqb n) (group_ids r2)))
      || binds_word n r2
  | _ => false
  end.

(** A non-empty run of digits *)
Definition digit_text (d : text) : Prop :=
  d <> [] /\ forallb is_digit d = true.

End Regex.
Import Regex.

(* ================================================================= *)
(** ** Numbers: the integer-valued part of the Number type

    [Number.parseInt] and sums of its results only produce integers that a
    binary64 holds, the two zeros, the infinities and NaN. *)

Module Num.
Local Open Scope Z_scope.

Inductive number :=
| NaN
| NegZero
| Int (z : Z)         (* a finite integer value; [Int 0] is +0 *)
| PosInf
| NegInf.

(** [n / 2^e] rounded to the nearest integer, ties to even ([0 < e]) *)
Definition round_shift (n e : Z) : Z :=
  let q := Z.shiftr n e in
  let r := n - Z.shiftl q e in
  let half := Z.shiftl 1 (e - 1) in
  if r <? half then q
  else if half <? r then q + 1
  else if Z.even q then q else q + 1.

(** The Number value for a mathematical integer: the nearest binary64
    (53-bit significand, ties to even), an infinity once the rounded value
    reaches [2^1024]. *)
Definition Number_value (z : Z) : number :=
  let a := Z.abs z in
  if a <? 2 ^ 53 then Int z
  else
    let e := Z.log2 a - 52 in
    let v := Z.shiftl (round_shift a e) e in
    if 2 ^ 1024 <=? v then (if z <? 0 then NegInf else PosInf)
    else Int (Z.sgn z * v).

(** [x + y] of the language on these values *)
Definition add (x y : number) : number :=
  match x, y with
  | NaN, _ | _, NaN => NaN
  | PosInf, NegInf | NegInf, PosInf => NaN
  | PosInf, _ | _, PosInf => PosInf
  | NegInf, _ | _, NegInf => NegInf
  | NegZero, NegZero => NegZero
  | NegZero, Int b => Int b
  | Int a, NegZero => Int a
  | Int a, Int b => Number_value (a + b)
  end.

Definition digit_value (radix : Z) (c : code_unit) : option Z :=
  let v :=
    if in_range 48 57 c then Z.of_N c - 48
    else if in_range 97 122 c then Z.of_N c - 87
    else if in_range 65 90 c then Z.of_N c - 55
    else 36 in
  if v <? radix then Some v else None.

(** The longest prefix of radix digits, as a mathematical integer, and how
    many digits it has *)
Fixpoint read_digits (radix : Z) (acc : Z) (n : nat) (t : text) : Z * nat :=
  match t with
  | c :: t' =>
      match digit_value radix c with
      | Some v => read_digits radix (acc * radix + v) (S n) t'
      | None => (acc, n)
      end
  | [] => (acc, n)
  end.

(** [Number.parseInt(s)] with no radix argument: leading white space, a
    sign, [0x] or [0X] for radix 16, then the digits up to the first
    character that is not one.  (Past 20 significant digits the language
    lets an implementation approximate the integer before it is rounded;
    the integer is exact here.) *)
Definition parseInt (s : text) : number :=
  let s1 := drop_while is_space s in
  let '(neg, s2) :=
    match s1 with
    | c :: t =>
        if N.eqb c 45 then (true, t)
        else if N.eqb c 43 then (false, t)
        else (false, s1)
    | [] => (false, s1)
    end in
  let '(radix, s3) :=
    match s2 with
    | a :: b :: t =>
        if N.eqb a 48 && (N.eqb b 120 || N.eqb b 88) then (16, t) else (10, s2)
    | _ => (10, s2)
    end in
  match read_digits radix 0 0 s3 with
  | (_, O) => NaN
  | (v, _) =>
      if v =? 0 then (if neg then NegZero else Int 0)
      else Number_value (if neg then - v else v)
  end.

(** [0 <= x] as the language compares *)
Definition nonneg (x : number) : bool :=
  match x with
  | NaN | NegInf => false
  | NegZero | PosInf => true
  | Int z => 0 <=? z
  end.

(** [Number.isInteger] *)
Definition is_integer (x : number) : bool :=
  match x with
  | NegZero | Int _ => true
  | _ => false
  end.

(** [0 < x] *)
Definition positive (x : number) : bool :=
  match x with
  | PosInf => true
  | Int z => 0 <? z
  | _ => false
  end.

(** A non-negative integer or [Infinity] *)
Definition natural (x : number) : bool :=
  match x with
  | PosInf => true
  | Int z => 0 <=? z
  | _ => false
  end.

(** The value of a run of decimal digits *)
Definition decimal_value (d : text) : Z :=
  fold_left (fun acc c => acc * 10 + (Z.of_N c - 48)) d 0.

End Num.
Import Num.

(* ================================================================= *)
(** ** The heuristic fallback: [generateEstimatedCarbData] *)

Inductive Confidence := high | medium | low.

Record FoodItem := mkFoodItem {
  name : text;
  weight : number;
  carbs : number;
  confidence : option Confidence
}.

Record Breakdown := mkBreakdown {
  fiber : number;
  sugar : number;
  starch : number
}.

Record CarbData := mkCarbData {
  totalCarbs : number;
  breakdown : Breakdown;
  foodItems : list FoodItem
}.

Module Fallback.

Definition ws := Star true CsSpace.
Definition digits := Plus true CsDigit.

(** [/(\d+)\s*g(rams)?\s*(of)?\s*(carb|carbohydrate)/i] *)
Definition carbRegex : regex :=
  seqs [Group 1 digits; ws; lit "g"; Opt (Group 2 (lit "rams")); ws;
        Opt (Group 3 (lit "of")); ws;
        Group 4 (Alt (lit "carb") (lit "carbohydrate"))].

(** [/(\d+)\s*g(rams)?\s*(of)?\s*fiber/i] and its two siblings *)
Definition componentRegex (word : string) : regex :=
  seqs [Group 1 digits; ws; lit "g"; Opt (Group 2 (lit "rams")); ws;
        Opt (Group 3 (lit "of")); ws; lit word].

Definition fiberRegex := componentRegex "fiber".
Definition sugarRegex := componentRegex "sugar".
Definition starchRegex := componentRegex "starch".

(** [/(\w+[\s\w]*?):\s*(\d+)\s*g(rams)?,\s*(\d+)\s*g(rams)?\s*(of)?\s*(carbs|carbohydrates)/gi] *)
Definition foodItemRegex : regex :=
  seqs [Group 1 (Seq (Plus true CsWord) (Star false (CsUnion CsSpace CsWord)));
        lit ":"; ws; Group 2 digits; ws; lit "g"; Opt (Group 3 (lit "rams"));
        lit ","; ws; Group 4 digits; ws; lit "g"; Opt (Group 5 (lit "rams")); ws;
        Opt (Group 6 (lit "of")); ws;
        Group 7 (Alt (lit "carbs") (lit "carbohydrates"))].

(** [match[n]] of a group that took part in the match; the empty text
    stands in for [undefined], which none of the groups read here can be *)
Definition cap (n : nat) (m : rmatch_result) : text :=
  match group n m with Some t => t | None => [] end.

Definition defaultItem : FoodItem :=
  mkFoodItem (of_string "Unknown food item") (Int 100) (Int 30) (Some low).

Definition item_of_match (m : rmatch_result) : FoodItem :=
  mkFoodItem (trim (cap 1 m)) (parseInt (cap 2 m)) (parseInt (cap 4 m)) (Some low).

(** [if (m) field = Number.parseInt(m[1])] *)
Definition update (m : option rmatch_result) (dflt : number) : number :=
  match m with
  | Some r => parseInt (cap 1 r)
  | None => dflt
  end.

Definition is_some {A} (o : option A) : bool :=
  match o with Some _ => true | None => false end.

(** The body of the function once the item loop has produced [items] *)
Definition assemble (responseText : text) (items : list rmatch_result) : CarbData :=
  let carbMatch := str_match true carbRegex responseText in
  let fiberMatch := str_match true fiberRegex responseText in
  let sugarMatch := str_match true sugarRegex responseText in
  let starchMatch := str_match true starchRegex responseText in
  let total := update carbMatch (Int 30) in
  let fib := update fiberMatch (Int 5) in
  let sug := update sugarMatch (Int 10) in
  let sta := update starchMatch (Int 15) in
  let total' :=
    if negb (is_some carbMatch)
       && (is_some fiberMatch || is_some sugarMatch || is_some starchMatch)
    then add (add fib sug) sta
    else total in
  let foodItems := map item_of_match items in
  mkCarbData total' (mkBreakdown fib sug sta)
    (match foodItems with [] => [defaultItem] | _ => foodItems end).

(** [None] only if the [while] loop over [foodItemRegex.exec] does not end *)
Definition generateEstimatedCarbData (responseText : text) : option CarbData :=
  match exec_loop true (S (length responseText)) foodItemRegex 0 responseText with
  | Some items => Some (assemble responseText items)
  | None => None
  end.

(** What every record of the fallback satisfies: each number is a
    non-negative integer or [Infinity], each item has a name and the low
    confidence, and there is an item *)
Definition item_ok (i : FoodItem) : Prop :=
  name i <> [] /\ natural (weight i) = true /\ natural (carbs i) = true
  /\ confidence i = Some low.

Definition record_ok (d : CarbData) : Prop :=
  natural (totalCarbs d) = true
  /\ natural (fiber (breakdown d)) = true
  /\ natural (sugar (breakdown d)) = true
  /\ natural (starch (breakdown d)) = true
  /\ foodItems d <> []
  /\ Forall item_ok (foodItems d).

End Fallback.
Import Fallback.

(* ================================================================= *)
(** ** [JSON.parse] *)

Module Json.
Local Open Scope Z_scope.

(** A JSON number as written: [(-1)^neg * mant * 10^exp10].  The language
    rounds it to a binary64; the rounding is left out except where the
    page depends on it ([is_zero], for truthiness). *)
Record decimal := mkDecimal {
  d_neg : bool;
  d_mant : Z;
  d_exp : Z
}.

Inductive json :=
| JNull
| JBool (b : bool)
| JNumber (d : decimal)
| JString (s : text)
| JArray (elems : list json)
| JObject (fields : list (text * json)).

Inductive presult (A : Type) :=
| Ok (a : A) (rest : text)
| SyntaxError
| OutOfFuel.
Arguments SyntaxError {A}.
Arguments OutOfFuel {A}.

(** JSONWhiteSpace: tab, line feed, carriage return, space *)
Definition is_json_ws (c : code_unit) : bool :=
  N.eqb c 9 || N.eqb c 10 || N.eqb c 13 || N.eqb c 32.

Definition skip_ws (t : text) : text := drop_while is_json_ws t.

Fixpoint expect (lit : text) (t : text) : option text :=
  match lit, t with
  | [], _ => Some t
  | a :: lit', b :: t' => if N.eqb a b then expect lit' t' else None
  | _ :: _, [] => None
  end.

Definition hex_value (c : code_unit) : option N :=
  if in_range 48 57 c then Some (c - 48)%N
  else if in_range 97 102 c then Some (c - 87)%N
  else if in_range 65 70 c then Some (c - 55)%N
  else None.

(** The character an escape letter stands for *)
Definition escape_char (c : code_unit) : option code_unit :=
  if N.eqb c 34 then Some 34%N            (* quotation mark *)
  else if N.eqb c 92 then Some 92%N       (* reverse solidus *)
  else if N.eqb c 47 then Some 47%N       (* solidus *)
  else if N.eqb c 98 then Some 8%N        (* b: backspace *)
  else if N.eqb c 102 then Some 12%N      (* f: form feed *)
  else if N.eqb c 110 then Some 10%N      (* n: line feed *)
  else if N.eqb c 114 then Some 13%N      (* r: carriage return *)
  else if N.eqb c 116 then Some 9%N       (* t: tab *)
  else None.

(** The characters of a string literal after its opening quote *)
Fixpoint parse_chars (acc : text) (t : text) : presult text :=
  match t with
  | [] => SyntaxError
  | c :: rest =>
      if N.eqb c 34 then Ok (rev acc) rest
      else if N.eqb c 92 then
        match rest with
        | [] => SyntaxError
        | x :: r =>
            if N.eqb x 117 then
              match r with
              | h1 :: h2 :: h3 :: h4 :: r' =>
                  match hex_value h1, hex_value h2, hex_value h3, hex_value h4 with
                  | Some a, Some b, Some c, Some d =>
                      parse_chars ((((a * 16 + b) * 16 + c) * 16 + d)%N :: acc) r'
                  | _, _, _, _ => SyntaxError
                  end
              | _ => SyntaxError
              end
            else
              match escape_char x with
              | Some y => parse_chars (y :: acc) r
              | None => SyntaxError
              end
        end
      else if N.ltb c 32 then SyntaxError
      else parse_chars (c :: acc) rest
  end.

(** Decimal digits: their value appended to [acc], and how many there are *)
Fixpoint read_dec (acc : Z) (n : Z) (t : text) : Z * Z * text :=
  match t with
  | c :: t' =>
      if is_digit c then read_dec (acc * 10 + (Z.of_N c - 48)) (n + 1) t'
      else (acc, n, t)
  | [] => (acc, n, t)
  end.

(** JSONNumber: an optional minus, then 0 or a digit string that does not
    start with 0, then an optional fraction (a point and one digit or more)
    and an optional exponent (e or E, an optional sign, one digit or more) *)
Definition number_int (t : text) : option (Z * text) :=
  match t with
  | c :: r =>
      if N.eqb c 48 then Some (0, r)
      else if is_digit c then let '(v, _, r') := read_dec 0 0 t in Some (v, r')
      else None
  | [] => None
  end.

Definition number_frac (iv : Z) (t : text) : option (Z * Z * text) :=
  match t with
  | c :: r =>
      if N.eqb c 46 then
        let '(v, n, r') := read_dec iv 0 r in
        if n =? 0 then None else Some (v, n, r')
      else Some (iv, 0, t)
  | [] => Some (iv, 0, t)
  end.

Definition number_exp (t : text) : option (Z * text) :=
  match t with
  | c :: r =>
      if N.eqb c 101 || N.eqb c 69 then
        let '(eneg, r0) :=
          match r with
          | s :: r' =>
              if N.eqb s 45 then (true, r')
              else if N.eqb s 43 then (false, r')
              else (false, r)
          | [] => (false, r)
          end in
        let '(v, n, r') := read_dec 0 0 r0 in
        if n =? 0 then None else Some ((if eneg then - v else v), r')
      else Some (0, t)
  | [] => Some (0, t)
  end.

Definition parse_number (t : text) : presult json :=
  let '(neg, t0) :=
    match t with
    | c :: r => if N.eqb c 45 then (true, r) else (false, t)
    | [] => (false, t)
    end in
  match number_int t0 with
  | None => SyntaxError
  | Some (iv, t1) =>
      match number_frac iv t1 with
      | None => SyntaxError
      | Some (m, nfrac, t2) =>
          match number_exp t2 with
          | None => SyntaxError
          | Some (e, t3) => Ok (JNumber (mkDecimal neg m (e - nfrac))) t3
          end
      end
  end.

(** CreateDataProperty on the object under construction: a repeated key
    keeps its place and takes the later value.  (The language enumerates
    keys that are array indices first; nothing here depends on it.) *)
Fixpoint set_field (key : text) (v : json) (fields : list (text * json))
  : list (text * json) :=
  match fields with
  | [] => [(key, v)]
  | (k, w) :: fs =>
      if text_eqb k key then (k, v) :: fs else (k, w) :: set_field key v fs
  end.

Fixpoint get_field (key : text) (fields : list (text * json)) : option json :=
  match fields with
  | [] => None
  | (k, w) :: fs => if text_eqb k key then Some w else get_field key fs
  end.

Definition literal (word : string) (v : json) (t : text) : presult json :=
  match expect (of_string word) t with
  | Some r => Ok v r
  | None => SyntaxError
  end.

Definition starts_with (c : code_unit) (t : text) : bool :=
  match t with
  | x :: _ => N.eqb x c
  | [] => false
  end.

(** A value, with the white space before it already skipped; the members of
    an object after its opening brace or a comma; the elements of an array
    after its opening bracket or a comma. *)
Fixpoint parse_value (fuel : nat) (t : text) : presult json :=
  match fuel with
  | O => OutOfFuel
  | S f =>
      match t with
      | [] => SyntaxError
      | c :: r =>
          if N.eqb c 123 then
            if starts_with 125%N (skip_ws r) then Ok (JObject []) (tl (skip_ws r))
            else parse_members f [] (skip_ws r)
          else if N.eqb c 91 then
            if starts_with 93%N (skip_ws r) then Ok (JArray []) (tl (skip_ws r))
            else parse_elements f [] (skip_ws r)
          else if N.eqb c 34 then
            match parse_chars [] r with
            | Ok s r' => Ok (JString s) r'
            | SyntaxError => SyntaxError
            | OutOfFuel => OutOfFuel
            end
          else if N.eqb c 116 then literal "true" (JBool true) t
          else if N.eqb c 102 then literal "false" (JBool false) t
          else if N.eqb c 110 then literal "null" JNull t
          else parse_number t
      end
  end
with parse_members (fuel : nat) (acc : list (text * json)) (t : text) : presult json :=
  match fuel with
  | O => OutOfFuel
  | S f =>
      if starts_with 34%N t then
        match parse_chars [] (tl t) with
        | Ok key r1 =>
            if starts_with 58%N (skip_ws r1) then
              match parse_value f (skip_ws (tl (skip_ws r1))) with
              | Ok v r3 =>
                  if starts_with 44%N (skip_ws r3) then
                    parse_members f (set_field key v acc) (skip_ws (tl (skip_ws r3)))
                  else if starts_with 125%N (skip_ws r3) then
                    Ok (JObject (set_field key v acc)) (tl (skip_ws r3))
                  else SyntaxError
              | SyntaxError => SyntaxError
              | OutOfFuel => OutOfFuel
              end
            else SyntaxError
        | SyntaxError => SyntaxError
        | OutOfFuel => OutOfFuel
        end
      else SyntaxError
  end
with parse_elements (fuel : nat) (acc : list json) (t : text) : presult json :=
  match fuel with
  | O => OutOfFuel
  | S f =>
      match parse_value f t with
      | Ok v r1 =>
          if starts_with 44%N (skip_ws r1) then
            parse_elements f (v :: acc) (skip_ws (tl (skip_ws r1)))
          else if starts_with 93%N (skip_ws r1) then
            Ok (JArray (rev (v :: acc))) (tl (skip_ws r1))
          else SyntaxError
      | SyntaxError => SyntaxError
      | OutOfFuel => OutOfFuel
      end
  end.

(** [JSON.parse(text)]; [None] is the SyntaxError it throws.  Two units of
    fuel for each character are enough ([parse_value_fuel]). *)
Definition JSON_parse (t : text) : option json :=
  match parse_value (S (2 * length t)) (skip_ws t) with
  | Ok v rest => match skip_ws rest with [] => Some v | _ => None end
  | _ => None
  end.

(** Whether the binary64 nearest to the number is a zero: the number is zero
    or at most [2^-1075], half the least positive binary64. *)
Definition is_zero (d : decimal) : bool :=
  if d_mant d =? 0 then true
  else if 0 <=? d_exp d then false
  else Z.abs (d_mant d) * 2 ^ 1075 <=? 10 ^ (- d_exp d).

(** ToBoolean *)
Definition truthy (v : json) : bool :=
  match v with
  | JNull => false
  | JBool b => b
  | JNumber d => negb (is_zero d)
  | JString s => match s with [] => false | _ => true end
  | JArray _ | JObject _ => true
  end.

(** A parser on a text neither runs out of fuel nor gives back more than
    it was given *)
Definition fuel_ok (f : text -> presult json) (t : text) : Prop :=
  f t <> OutOfFuel /\ forall v r, f t = Ok v r -> (length r < length t)%nat.

End Json.
Import Json.

(* ================================================================= *)
(** ** The parse stage of [analyzeImage] *)

Module Normalizer.

(** What [setCarbData] receives.  [JSON.parse] yields an untyped value, so
    the parse paths can hand over any object, and an array too (with
    [foodItems] added to it as an own property). *)
Inductive carb_value :=
| ParsedObject (fields : list (text * json))
| ParsedArray (elems : list json) (foodItemsProp : json)
| Estimated (d : CarbData).

Record outcome := mkOutcome {
  carbData : option carb_value;
  error : option text
}.

Definition foodItemsKey : text := of_string "foodItems".

(** [if (!carbData.foodItems) carbData.foodItems = []]; [None] is the
    TypeError of reading a property of [null] or, the module being strict
    code, of creating a property on a primitive value. *)
Definition ensure_foodItems (v : json) : option carb_value :=
  match v with
  | JNull => None
  | JBool _ | JNumber _ | JString _ => None
  | JArray elems => Some (ParsedArray elems (JArray []))
  | JObject fields =>
      match get_field foodItemsKey fields with
      | Some w =>
          if truthy w then Some (ParsedObject fields)
          else Some (ParsedObject (set_field foodItemsKey (JArray []) fields))
      | None => Some (ParsedObject (set_field foodItemsKey (JArray []) fields))
      end
  end.

(** The body of a [try] block: parse, then backfill; [None] when it throws *)
Definition try_parse (t : text) : option carb_value :=
  match JSON_parse t with
  | Some v => ensure_foodItems v
  | None => None
  end.

(** [/\{[\s\S]*\}/] *)
Definition jsonRegex : regex :=
  seqs [lit "{"; Star true (CsUnion CsSpace CsNotSpace); lit "}"].

(** The second [try] block, when the pattern matches *)
Definition embedded_parse (content : text) : option carb_value :=
  match str_match false jsonRegex content with
  | Some jsonMatch => try_parse (m_text jsonMatch)
  | None => None
  end.

Definition estimateNote : text :=
  of_string "Could not get precise values. Showing estimates.".

Definition estimated (content : text) : option outcome :=
  match generateEstimatedCarbData content with
  | Some d => Some (mkOutcome (Some (Estimated d)) (Some estimateNote))
  | None => None
  end.

(** Lines 330-368: what [setCarbData] is called with, and what [setError]
    is called with if it is called at all.  [None] only if the fallback
    does not return. *)
Definition normalize (content : text) : option outcome :=
  match try_parse content with
  | Some v => Some (mkOutcome (Some v) None)
  | None =>
      match str_match false jsonRegex content with
      | Some jsonMatch =>
          match try_parse (m_text jsonMatch) with
          | Some v => Some (mkOutcome (Some v) None)
          | None => estimated content
          end
      | None => estimated content
      end
  end.



End Normalizer.
Import Normalizer.

(* ================================================================= *)
(** ** The data model of the specification, as predicates *)

Module Schema.

Definition is_number (v : json) : bool :=
  match v with JNumber _ => true | _ => false end.

Definition is_string (v : json) : bool :=
  match v with JString _ => true | _ => false end.

Definition field_is (p : json -> bool) (key : string) (fields : list (text * json))
  : bool :=
  match get_field (of_string key) fields with
  | Some v => p v
  | None => false
  end.

Definition optional_field_is (p : json -> bool) (key : string)
  (fields : list (text * json)) : bool :=
  match get_field (of_string key) fields with
  | Some v => p v
  | None => true
  end.

Definition is_object_with (p : list (text * json) -> bool) (v : json) : bool :=
  match v with JObject fields => p fields | _ => false end.

Definition is_array_of (p : json -> bool) (v : json) : bool :=
  match v with JArray elems => forallb p elems | _ => false end.

Definition is_confidence (v : json) : bool :=
  match v with
  | JString s =>
      text_eqb s (of_string "high") || text_eqb s (of_string "medium")
      || text_eqb s (of_string "low")
  | _ => false
  end.

(** The types of the schema: [{totalCarbs: number, breakdown: {fiber,
    sugar, starch: number}, foodItems?: [{name: string, weight: number,
    carbs: number, confidence?: high, medium or low}]}] *)
Definition is_food_item : json -> bool :=
  is_object_with (fun fs =>
    field_is is_string "name" fs && field_is is_number "weight" fs
    && field_is is_number "carbs" fs && optional_field_is is_confidence "confidence" fs).

Definition is_breakdown : json -> bool :=
  is_object_with (fun fs =>
    field_is is_number "fiber" fs && field_is is_number "sugar" fs
    && field_is is_number "starch" fs).

Definition matches_schema (fields : list (text * json)) : bool :=
  field_is is_number "totalCarbs" fields
  && field_is is_breakdown "breakdown" fields
  && optional_field_is (is_array_of is_food_item) "foodItems" fields.

(** Whether what [setCarbData] receives has the types of a
    NutritionRecord.  The fallback builds its record field by field. *)
Definition is_nutrition_record (v : carb_value) : bool :=
  match v with
  | Estimated _ => true
  | ParsedObject fields => matches_schema fields
  | ParsedArray _ _ => false
  end.

(** [0 <= v] and [0 < v] for a parsed number, as the language compares
    the binary64 it rounds to *)
Definition json_nonneg (v : json) : bool :=
  match v with
  | JNumber d => negb (d_neg d) || is_zero d
  | _ => false
  end.

Definition json_positive (v : json) : bool :=
  match v with
  | JNumber d => negb (d_neg d) && negb (is_zero d)
  | _ => false
  end.

Definition json_nonempty_text (v : json) : bool :=
  match v with
  | JString (_ :: _) => true
  | _ => false
  end.

Definition nonempty (t : text) : bool :=
  match t with [] => false | _ => true end.

(** The value constraints of the data model on a record of the fallback:
    non-negative amounts, non-empty names, positive weights *)
Definition item_invariants (i : FoodItem) : bool :=
  nonempty (name i) && positive (weight i) && nonneg (carbs i).

Definition data_invariants (d : CarbData) : bool :=
  nonneg (totalCarbs d) && nonneg (fiber (breakdown d))
  && nonneg (sugar (breakdown d)) && nonneg (starch (breakdown d))
  && forallb item_invariants (foodItems d).

(** The same on a parsed value *)
Definition json_item_invariants : json -> bool :=
  is_object_with (fun fs =>
    field_is json_nonempty_text "name" fs && field_is json_positive "weight" fs
    && field_is json_nonneg "carbs" fs).

Definition json_invariants (fields : list (text * json)) : bool :=
  field_is json_nonneg "totalCarbs" fields
  && field_is (is_object_with (fun fs =>
       field_is json_nonneg "fiber" fs && field_is json_nonneg "sugar" fs
       && field_is json_nonneg "starch" fs)) "breakdown" fields
  && field_is (is_array_of json_item_invariants) "foodItems" fields.

Definition record_invariants (v : carb_value) : bool :=
  match v with
  | Estimated d => data_invariants d
  | ParsedObject fields => json_invariants fields
  | ParsedArray _ _ => false
  end.

(** What the fallback does keep: as [data_invariants], but a weight may
    be zero *)
Definition fallback_invariants (d : CarbData) : bool :=
  nonneg (totalCarbs d) && nonneg (fiber (breakdown d))
  && nonneg (sugar (breakdown d)) && nonneg (starch (breakdown d))
  && forallb (fun i => nonempty (name i) && nonneg (weight i) && nonneg (carbs i))
       (foodItems d).

(** Every number of the record is a non-negative integer or [Infinity];
    every number of the record is an integer *)
Definition all_natural (d : CarbData) : bool :=
  natural (totalCarbs d) && natural (fiber (breakdown d))
  && natural (sugar (breakdown d)) && natural (starch (breakdown d))
  && forallb (fun i => natural (weight i) && natural (carbs i)) (foodItems d).

Definition all_nonneg_integers (d : CarbData) : bool :=
  let ok x := nonneg x && is_integer x in
  ok (totalCarbs d) && ok (fiber (breakdown d))
  && ok (sugar (breakdown d)) && ok (starch (breakdown d))
  && forallb (fun i => ok (weight i) && ok (carbs i)) (foodItems d).

End Schema.
Import Schema.

(* ================================================================= *)
(** ** The dimension arithmetic of [compressImage] *)

Module Image.
Local Open Scope Q_scope.

(** [n / d] rounded to the nearest integer, ties to even ([0 <= n], [0 < d]) *)
Definition round_ratio (n d : Z) : Z :=
  let q := (n / d)%Z in
  let r := (n mod d)%Z in
  if (2 * r <? d)%Z then q
  else if (d <? 2 * r)%Z then (q + 1)%Z
  else if Z.even q then q else (q + 1)%Z.

(** [2^e] *)
Definition pow2 (e : Z) : Q :=
  if (0 <=? e)%Z then inject_Z (2 ^ e) else 1 # Z.to_pos (2 ^ (- e)).

(** [n/d * 2^-e] as a fraction of integers *)
Definition scale_num (n e : Z) : Z := (n * 2 ^ Z.max 0 (- e))%Z.
Definition scale_den (d e : Z) : Z := (d * 2 ^ Z.max 0 e)%Z.

(** The exponent [e] with [2^52 <= n/d * 2^-e < 2^53] ([0 < n], [0 < d]) *)
Definition exponent (n d : Z) : Z :=
  let e0 := (Z.log2 n - Z.log2 d - 53)%Z in
  if (scale_num n e0 <? 2 ^ 53 * scale_den d e0)%Z then e0 else (e0 + 1)%Z.

(** Rounding to a 53-bit significand, to nearest, ties to even: what every
    binary64 operation does to its exact result.  The exponent is not
    bounded: the values of [compressImage] stay between [2^-22] and [2^43]
    when they are not zero, far from the ends of the binary64 range. *)
Definition round53 (x : Q) : Q :=
  let n := Z.abs (Qnum x) in
  let d := Zpos (Qden x) in
  if (n =? 0)%Z then 0
  else
    let e := exponent n d in
    let m := round_ratio (scale_num n e) (scale_den d e) in
    let v := inject_Z m * pow2 e in
    Qred (if (Qnum x <? 0)%Z then - v else v).

(** [x * y], [x / y] and [x > y] of the language *)
Definition fmul (x y : Q) : Q := round53 (x * y).
Definition fdiv (x y : Q) : Q := round53 (x / y).
Definition fgt (x y : Q) : bool := negb (Qle_bool x y).

Definition maxWidth : Q := inject_Z 1200.
Definition maxHeight : Q := inject_Z 1200.

(** Lines 145-156: [width] and [height] after the two [if] statements,
    from [img.width] and [img.height] *)
Definition scaled (imgWidth imgHeight : Z) : Q * Q :=
  let width := inject_Z imgWidth in
  let height := inject_Z imgHeight in
  let '(width, height) :=
    if fgt width maxWidth
    then (maxWidth, fdiv (fmul height maxWidth) width)
    else (width, height) in
  if fgt height maxHeight
  then (fdiv (fmul width maxHeight) height, maxHeight)
  else (width, height).

(** [canvas.width = width]: the conversion of a number to the attribute's
    type, unsigned long: truncated, then modulo [2^32] *)
Definition to_unsigned_long (x : Q) : Z :=
  (Z.quot (Qnum x) (Zpos (Qden x)) mod 2 ^ 32)%Z.

(** [compressImage], as far as sizes go: the size of the canvas the image
    is drawn on and encoded from, that is, of the image it resolves with *)
Definition compressImage (imgWidth imgHeight : Z) : Z * Z :=
  let '(width, height) := scaled imgWidth imgHeight in
  (to_unsigned_long width, to_unsigned_long height).

(** The same two steps with the binary64 operations of the Standard
    Library's [SpecFloat], to compare [round53] with on samples *)
Definition b64 (z : Z) : spec_float := binary_normalize 53 1024 z 0 false.

Definition b64_value (f : spec_float) : option Q :=
  match f with
  | S754_zero _ => Some 0
  | S754_finite s m e =>
      Some (Qred ((if s then - (1) else 1) * inject_Z (Zpos m) * pow2 e))
  | _ => None
  end.

Definition b64_steps (a b : Z) : option Q * option Q :=
  let first := SFdiv 53 1024 (SFmul 53 1024 (b64 b) (b64 1200)) (b64 a) in
  let second := SFdiv 53 1024 (SFmul 53 1024 (b64 1200) (b64 1200)) first in
  (b64_value first, b64_value second).

Definition round53_steps (a b : Z) : option Q * option Q :=
  let first := fdiv (fmul (inject_Z b) maxWidth) (inject_Z a) in
  let second := fdiv (fmul maxWidth maxHeight) first in
  (Some first, Some second).

Definition same_steps (ab : Z * Z) : bool :=
  let '(a, b) := ab in
  match b64_steps a b, round53_steps a b with
  | (Some x1, Some x2), (Some y1, Some y2) => Qeq_bool x1 y1 && Qeq_bool x2 y2
  | _, _ => false
  end.

Definition sample_sizes : list (Z * Z) :=
  [(4000, 3000); (3000, 4000); (1201, 1); (1, 1201); (1237, 7); (1300, 1700);
   (99991, 31337); (12345, 54321); (4294967295, 4294967294);
   (4294967294, 4294967295); (1201, 4294967295); (65535, 65521)]%Z.

End Image.
Import Image.

(* ================================================================= *)
(** ** What [renderView] evaluates of the record *)

Module Render.
Local Open Scope Z_scope.

Definition has_own (key : string) (fields : list (text * json)) : bool :=
  match get_field (of_string key) fields with
  | Some _ => true
  | None => false
  end.

(** Whether ToPrimitive throws on the value.  No parsed value is callable:
    an object with an own [toString] property has no method left to
    convert it, whichever hint is given, and an array is joined, which
    converts each element that is not [null] to a string. *)
Fixpoint to_primitive_throws (v : json) : bool :=
  match v with
  | JObject fields => has_own "toString" fields
  | JArray elems => existsb to_primitive_throws elems
  | _ => false
  end.

(** What StringToNumber makes of a text *)
Inductive string_number :=
| NotANumber
| Infinite (neg : bool)
| Finite (d : decimal).

(** Digits of a radix, from [hex_value]; their value appended to [acc],
    [None] at a character that is no digit of the radix *)
Fixpoint read_radix (radix : N) (acc : Z) (t : text) : option Z :=
  match t with
  | [] => Some acc
  | c :: t' =>
      match hex_value c with
      | Some v =>
          if N.ltb v radix then read_radix radix (acc * Z.of_N radix + Z.of_N v) t'
          else None
      | None => None
      end
  end.

(** NonDecimalIntegerLiteral: [0x], [0o] or [0b], in either case of the
    letter, then one digit or more *)
Definition radix_of (c : code_unit) : option N :=
  if N.eqb c 120 || N.eqb c 88 then Some 16%N
  else if N.eqb c 111 || N.eqb c 79 then Some 8%N
  else if N.eqb c 98 || N.eqb c 66 then Some 2%N
  else None.

(** StrUnsignedDecimalLiteral without [Infinity]: digits, then an optional
    point and digits, then an optional exponent; or a point and one digit
    or more, then an optional exponent *)
Definition unsigned_decimal (neg : bool) (t : text) : string_number :=
  let '(iv, ni, t1) := read_dec 0 0 t in
  let '(m, nf, t2) :=
    match t1 with
    | c :: r => if N.eqb c 46 then read_dec iv 0 r else (iv, -1, t1)
    | [] => (iv, -1, t1)
    end in
  if (ni =? 0) && (nf <=? 0) then NotANumber
  else
    match number_exp t2 with
    | Some (e, []) => Finite (mkDecimal neg m (e - Z.max 0 nf))
    | _ => NotANumber
    end.

(** StringToNumber: the text without the white space around it is empty
    (zero), a non-decimal integer, or a decimal with an optional sign *)
Definition StringToNumber (s : text) : string_number :=
  match trim s with
  | [] => Finite (mkDecimal false 0 0)
  | c :: r =>
      let decimal neg t :=
        if text_eqb t (of_string "Infinity") then Infinite neg
        else unsigned_decimal neg t in
      if N.eqb c 43 then decimal false r
      else if N.eqb c 45 then decimal true r
      else
        match r with
        | x :: ((_ :: _) as ds) =>
            match (if N.eqb c 48 then radix_of x else None) with
            | Some radix =>
                match read_radix radix 0 ds with
                | Some v => Finite (mkDecimal false v 0)
                | None => NotANumber
                end
            | None => decimal false (c :: r)
            end
        | _ => decimal false (c :: r)
        end
  end.

(** [0 < x] for the binary64 a decimal rounds to *)
Definition decimal_positive (d : decimal) : bool :=
  negb (d_neg d) && negb (is_zero d).

Definition string_positive (s : text) : bool :=
  match StringToNumber s with
  | NotANumber => false
  | Infinite neg => negb neg
  | Finite d => decimal_positive d
  end.

(** [x > 0] for the only element [x] of an array, which is compared as the
    text [join] makes of it: nothing for [null], the number's own text
    for a number (which reads back as the number) *)
Fixpoint only_element_positive (x : json) : bool :=
  match x with
  | JNumber d => decimal_positive d
  | JString s => string_positive s
  | JArray [y] => only_element_positive y
  | _ => false
  end.

(** [v > 0] for a value on which ToPrimitive does not throw.  An array of
    two elements or more is joined with commas, which is no number. *)
Definition gt_zero (v : json) : bool :=
  match v with
  | JNull => false
  | JBool b => b
  | JNumber d => decimal_positive d
  | JString s => string_positive s
  | JArray [x] => only_element_positive x
  | JArray _ => false
  | JObject _ => false
  end.

Definition throws_opt (o : option json) : bool :=
  match o with
  | Some v => to_primitive_throws v
  | None => false
  end.

(** The callback of [foodItems.map] (lines 627-652) on one element:
    [item.name] throws for [null], and the division converts
    [item.carbs] and [item.weight] to numbers *)
Definition item_returns (item : json) : bool :=
  match item with
  | JNull => false
  | JObject fields =>
      negb (throws_opt (get_field (of_string "carbs") fields))
      && negb (throws_opt (get_field (of_string "weight") fields))
  | _ => true
  end.

(** Line 625: [carbData.foodItems && carbData.foodItems.length > 0 ?
    carbData.foodItems.map(...) : ...].  Only an array has a [map] to
    call. *)
Definition foodItems_return (o : option json) : bool :=
  match o with
  | None => true
  | Some w =>
      if negb (truthy w) then true
      else
        match w with
        | JArray items => forallb item_returns items
        | JString _ => false
        | JObject fields =>
            match get_field (of_string "length") fields with
            | Some len => negb (to_primitive_throws len || gt_zero len)
            | None => true
            end
        | _ => true
        end
  end.

(** Lines 579, 587 and 595: [carbData.breakdown.fiber] and the like throw
    when [breakdown] is missing or [null] *)
Definition breakdown_returns (fields : list (text * json)) : bool :=
  match get_field (of_string "breakdown") fields with
  | None | Some JNull => false
  | Some _ => true
  end.

(** Whether React accepts the value as a child of an element: a string or
    a number is text, [null] and the booleans are nothing, an array is its
    elements; an object is refused with an error. *)
Fixpoint valid_child (v : json) : bool :=
  match v with
  | JObject _ => false
  | JArray elems => forallb valid_child elems
  | _ => true
  end.

(** Line 516: the result card of the preview has [carbData.totalCarbs] as a
    child *)
Definition card_renders (v : carb_value) : bool :=
  match v with
  | ParsedObject fields =>
      match get_field (of_string "totalCarbs") fields with
      | Some c => valid_child c
      | None => true
      end
  | ParsedArray _ _ => true
  | Estimated _ => true
  end.

(** Whether the details case of [renderView] returns its elements for the
    record, rather than throwing a TypeError *)
Definition details_returns (v : carb_value) : bool :=
  match v with
  | ParsedObject fields =>
      breakdown_returns fields && foodItems_return (get_field foodItemsKey fields)
  | ParsedArray _ _ => false
  | Estimated _ => true
  end.

End Render.
Import Render.

(* ================================================================= *)
(** ** The page's state and its handlers *)

Module App.

Inductive View := camera | preview | settings | details.

(** The file handed to [handleFileSelect], and what [compressImage] makes
    of it ([None] when it rejects) *)
Record file := mkFile {
  is_image : bool;
  compressed : option text
}.

(** The state of the component, and with it the calls of
    [handleFileSelect] that are suspended at [await compressImage(file)]:
    each holds its file and the [apiKey] of the render whose
    [analyzeImage] it will call. *)
Record State := mkState {
  view : View;
  apiKey : text;
  storedApiKey : option text;       (* localStorage, key "openai-api-key" *)
  showApiKeyModal : bool;
  capturedImage : option text;
  isLoading : bool;
  isUploading : bool;
  error : option text;
  carbData : option carb_value;
  rawResponse : option text;
  pendingUploads : list (text * file)
}.

(** What a handler starts outside the component *)
Inductive effect :=
| OpenFilePicker                         (* fileInputRef.current?.click() *)
| CompressImage                          (* compressImage(file) *)
| Fetch (key : text) (image : text).     (* the POST, with [Bearer key] *)

(** How the request of [analyzeImage] settles *)
Inductive response :=
| ApiError (message : text)              (* !response.ok, or fetch rejects *)
| Content (content : text)               (* choices[0].message.content *)
| NullContent (message : text).          (* the content is null: the TypeError
                                            of content.match (line 344) *)

Definition truthy_text (t : text) : bool :=
  match t with [] => false | _ => true end.

Definition truthy_opt (o : option text) : bool :=
  match o with Some t => truthy_text t | None => false end.

Definition set_view (v : View) (s : State) : State :=
  mkState v (apiKey s) (storedApiKey s) (showApiKeyModal s) (capturedImage s)
    (isLoading s) (isUploading s) (error s) (carbData s) (rawResponse s)
    (pendingUploads s).

Definition set_apiKey (k : text) (s : State) : State :=
  mkState (view s) k (storedApiKey s) (showApiKeyModal s) (capturedImage s)
    (isLoading s) (isUploading s) (error s) (carbData s) (rawResponse s)
    (pendingUploads s).

Definition set_showApiKeyModal (b : bool) (s : State) : State :=
  mkState (view s) (apiKey s) (storedApiKey s) b (capturedImage s)
    (isLoading s) (isUploading s) (error s) (carbData s) (rawResponse s)
    (pendingUploads s).

Definition set_capturedImage (i : text) (s : State) : State :=
  mkState (view s) (apiKey s) (storedApiKey s) (showApiKeyModal s) (Some i)
    (isLoading s) (isUploading s) (error s) (carbData s) (rawResponse s)
    (pendingUploads s).

Definition set_isUploading (b : bool) (s : State) : State :=
  mkState (view s) (apiKey s) (storedApiKey s) (showApiKeyModal s) (capturedImage s)
    (isLoading s) b (error s) (carbData s) (rawResponse s)
    (pendingUploads s).

Definition set_pendingUploads (p : list (text * file)) (s : State) : State :=
  mkState (view s) (apiKey s) (storedApiKey s) (showApiKeyModal s) (capturedImage s)
    (isLoading s) (isUploading s) (error s) (carbData s) (rawResponse s) p.

(** The page as first rendered, after the effect that loads the saved key *)
Definition initial (saved : option text) : State :=
  mkState camera (if truthy_opt saved then match saved with Some k => k | None => [] end else [])
    saved false None false false None None None [].

(** [saveApiKey] *)
Definition saveApiKey (key : text) (s : State) : State :=
  mkState (view s) key (Some key) false (capturedImage s)
    (isLoading s) (isUploading s) (error s) (carbData s) (rawResponse s)
    (pendingUploads s).

(** [analyzeImage] up to the point where it awaits the request; [key] is
    the [apiKey] of the render the function belongs to *)
Definition analyzeImage (key : text) (imageSrc : text) (s : State)
  : State * list effect :=
  (mkState (view s) (apiKey s) (storedApiKey s) (showApiKeyModal s) (capturedImage s)
     true (isUploading s) None (carbData s) None (pendingUploads s),
   [Fetch key imageSrc]).

(** [analyzeImage] from the point where the request has settled.  After a
    parse [setError] is not called: the error stays what it is; the
    fallback sets the note.  A content that is [null] is stored as the raw
    response before the parse stage throws out of its [catch] block.
    [None] only if the fallback does not return. *)
Definition settle (r : response) (s : State) : option State :=
  match r with
  | ApiError msg =>
      Some (mkState (view s) (apiKey s) (storedApiKey s) (showApiKeyModal s)
              (capturedImage s) false (isUploading s) (Some msg) (carbData s)
              (rawResponse s) (pendingUploads s))
  | Content content =>
      match normalize content with
      | Some o =>
          Some (mkState (view s) (apiKey s) (storedApiKey s) (showApiKeyModal s)
                  (capturedImage s) false (isUploading s)
                  (match Normalizer.error o with
                   | Some note => Some note
                   | None => error s
                   end)
                  (Normalizer.carbData o) (Some content) (pendingUploads s))
      | None => None
      end
  | NullContent msg =>
      Some (mkState (view s) (apiKey s) (storedApiKey s) (showApiKeyModal s)
              (capturedImage s) false (isUploading s) (Some msg) (carbData s)
              None (pendingUploads s))
  end.

(** [handleGalleryClick] *)
Definition handleGalleryClick (s : State) : State * list effect :=
  if negb (truthy_text (apiKey s)) then (set_showApiKeyModal true s, [])
  else (s, [OpenFilePicker]).

(** [capturePhoto]; [shot] is what [getScreenshot()] returns *)
Definition capturePhoto (shot : option text) (s : State) : State * list effect :=
  if negb (truthy_text (apiKey s)) then (set_showApiKeyModal true s, [])
  else
    match shot with
    | Some imageSrc =>
        if truthy_text imageSrc
        then analyzeImage (apiKey s) imageSrc
               (set_view preview (set_capturedImage imageSrc s))
        else (s, [])
    | None => (s, [])
    end.

(** [handleFileSelect] up to [await compressImage(file)]: without a file
    nothing happens; a file that is no image passes through the [finally]
    block; an image leaves the call suspended, with the key of this
    render *)
Definition handleFileSelect (f : option file) (s : State) : State * list effect :=
  match f with
  | None => (s, [])
  | Some f =>
      if negb (is_image f) then (set_isUploading false s, [])
      else
        (set_pendingUploads (pendingUploads s ++ [(apiKey s, f)])
           (set_isUploading true s),
         [CompressImage])
  end.

(** [handleFileSelect] from the point where [compressImage] has settled,
    for a call that holds [key]: lines 108-110 and the [finally] block *)
Definition handleFileSelect_resume (key : text) (f : file) (s : State)
  : State * list effect :=
  match compressed f with
  | Some img =>
      let '(s', effs) := analyzeImage key img (set_view preview (set_capturedImage img s)) in
      (set_isUploading false s', effs)
  | None => (set_isUploading false s, [])
  end.

(** [retryAnalysis] *)
Definition retryAnalysis (s : State) : State * list effect :=
  match capturedImage s with
  | Some img => if truthy_text img then analyzeImage (apiKey s) img s else (s, [])
  | None => (s, [])
  end.

(** What the user, the file picker, the image decoder and the network can
    do to the page *)
Inductive action :=
| ClickShowPreview        (* camera: the image button *)
| ClickGallery            (* camera: the upload button *)
| ClickCapture (shot : option text)
| ClickSettings           (* camera: the settings button *)
| ClickClose              (* the X of preview, details and settings *)
| ClickRetry              (* preview, error overlay *)
| ClickUpdateApiKey       (* preview, error overlay *)
| ClickResult             (* preview, the result card *)
| TypeApiKey (k : text)   (* the key input of settings and of the dialog *)
| ClickSave               (* settings and dialog *)
| ClickCancel             (* dialog *)
| FileChosen (f : option file)
| Compressed (i : nat)    (* [compressImage] of the i-th suspended call settles *)
| Settled (r : response).

Definition is_none {A} (o : option A) : bool :=
  match o with None => true | Some _ => false end.

(** Line 504: [error && !carbData], in the branch where [isLoading] is
    false.  An empty message is falsy; a record is an object. *)
Definition error_overlay (s : State) : bool :=
  negb (isLoading s) && truthy_opt (error s) && is_none (carbData s).

(** Whether the page renders in the state.  [renderView] can throw in the
    details case only, which reads into the record.  Of the elements it
    returns, the result card of the preview (shown when [isLoading] is
    false and there is a record) is made of plain elements, whose children
    React checks.  The details are handed to the tab components, which are
    not part of the source: the model stops at the elements they are
    given. *)
Definition renders (s : State) : bool :=
  match view s, carbData s with
  | details, Some v => details_returns v
  | preview, Some v => isLoading s || card_renders v
  | _, _ => true
  end.

Fixpoint remove_nth {A} (i : nat) (l : list A) : list A :=
  match i, l with
  | _, [] => []
  | O, _ :: l' => l'
  | S i', x :: l' => x :: remove_nth i' l'
  end.

(** What a continuation leaves of the state: once rendering has failed the
    component is unmounted and its state setters do nothing; the suspended
    calls go on all the same. *)
Definition commit (s s' : State) : State :=
  if renders s then s' else set_pendingUploads (pendingUploads s') s.

(** One event.  For a click or an input, [None] when the control is not
    among the elements [renderView] returns in the state or is disabled,
    or the page does not render; for [Compressed], when there is no such
    suspended call; for [Settled], when the fallback does not return.  The
    file picker, the decoder and the network are not constrained. *)
Definition step (s : State) (a : action) : option (State * list effect) :=
  match a with
  | Settled r =>
      match settle r s with Some s' => Some (commit s s', []) | None => None end
  | Compressed i =>
      match nth_error (pendingUploads s) i with
      | Some (key, f) =>
          let '(s', effs) :=
            handleFileSelect_resume key f
              (set_pendingUploads (remove_nth i (pendingUploads s)) s) in
          Some (commit s s', effs)
      | None => None
      end
  | _ =>
      if negb (renders s) then None
      else if showApiKeyModal s then
        match a with
        | TypeApiKey k => Some (set_apiKey k s, [])
        | ClickSave =>
            if truthy_text (apiKey s) then Some (saveApiKey (apiKey s) s, []) else None
        | ClickCancel => Some (set_showApiKeyModal false s, [])
        | _ => None
        end
      else
        match a, view s with
        | ClickShowPreview, camera =>
            if truthy_opt (capturedImage s) then Some (set_view preview s, []) else None
        | ClickGallery, camera =>
            if isUploading s then None else Some (handleGalleryClick s)
        | ClickCapture shot, camera => Some (capturePhoto shot s)
        | ClickSettings, camera => Some (set_view settings s, [])
        | ClickClose, (preview | details | settings) => Some (set_view camera s, [])
        | ClickRetry, preview => if error_overlay s then Some (retryAnalysis s) else None
        | ClickUpdateApiKey, preview =>
            if error_overlay s then Some (set_view settings s, []) else None
        | ClickResult, preview =>
            if negb (isLoading s) && negb (error_overlay s) && negb (is_none (carbData s))
            then Some (set_view details s, []) else None
        | TypeApiKey k, settings => Some (set_apiKey k s, [])
        | ClickSave, settings =>
            if truthy_text (apiKey s) then Some (saveApiKey (apiKey s) s, []) else None
        | FileChosen f, camera => Some (handleFileSelect f s)
        | _, _ => None
        end
  end.

(** A run: the states passed through, each with the effects started on the
    way into it *)
Fixpoint run (s : State) (acts : list action) : option (list (State * list effect)) :=
  match acts with
  | [] => Some []
  | a :: acts' =>
      match step s a with
      | Some (s', effs) =>
          match run s' acts' with
          | Some tr => Some ((s', effs) :: tr)
          | None => None
          end
      | None => None
      end
  end.

(** The state a run ends in *)
Definition final (s : State) (acts : list action) : option State :=
  option_map (fun tr => last (map fst tr) s) (run s acts).

Definition is_fetch (e : effect) : bool :=
  match e with Fetch _ _ => true | _ => false end.

(** No credential: the key of the state is empty
    and nothing is saved under the storage key either *)
Definition no_credential (s : State) : bool :=
  negb (truthy_text (apiKey s)) && negb (truthy_opt (storedApiKey s)).

(** Whether some step of a run starts a request from a state with no
    credential *)
Fixpoint fetches_without_credential (s : State) (acts : list action) : bool :=
  match acts with
  | [] => false
  | a :: acts' =>
      match step s a with
      | Some (s', effs) =>
          (no_credential s && existsb is_fetch effs)
          || fetches_without_credential s' acts'
      | None => false
      end
  end.

End App.

(* ================================================================= *)
(** ** Sample inputs *)

Module Samples.

Definition chickenLine : text := of_string "Chicken: 150g, 0g of carbs".
Definition riceLine : text := of_string "Rice: 200g, 45g carbs".
Definition chicken : FoodItem :=
  mkFoodItem (of_string "Chicken") (Int 150) (Int 0) (Some low).
Definition rice : FoodItem :=
  mkFoodItem (of_string "Rice") (Int 200) (Int 45) (Some low).
Definition unknownItem : FoodItem :=
  mkFoodItem (of_string "Unknown food item") (Int 100) (Int 30) (Some low).

Definition carbsOnly : text := of_string "42g of carbs".
Definition fiberAndSugar : text := of_string "5g fiber, 10g sugar".
Definition labelledFiberAndSugar : text := of_string "fiber: 5g, sugar: 10g".
Definition zeroWeight : text := of_string "Rice: 0g, 45g carbs".

(** 309 nines, then a unit and the word *)
Definition hugeTotal : text := repeat 57%N 309 ++ of_string "g carbs".

Definition sampleRecord : text :=
  json_text "{'totalCarbs': 45, 'breakdown': {'fiber': 5, 'sugar': 10, 'starch': 30}}".

Definition sampleFields : list (text * json) :=
  Eval vm_compute in
    match JSON_parse sampleRecord with
    | Some (JObject fields) => fields
    | _ => []
    end.

Definition negativeTotal : text :=
  json_text "{'totalCarbs': -5, 'breakdown': {'fiber': 1, 'sugar': 2, 'starch': 3}, 'foodItems': []}".

Definition emptyObject : text := json_text "{}".
Definition numberArray : text := json_text "[1, 2]".


Definition photo : text := of_string "data:image/jpeg;base64,AAAA".

(** The key is typed into the dialog and the dialog cancelled, so nothing
    is saved; after a failed request the key is cleared in the settings
    and the request retried from the preview. *)
Definition retry_after_clearing_key : list App.action :=
  [ App.ClickCapture (Some photo);
    App.TypeApiKey (of_string "sk-test");
    App.ClickCancel;
    App.ClickCapture (Some photo);
    App.Settled (App.ApiError (of_string "API error: 401 - Incorrect API key"));
    App.ClickUpdateApiKey;
    App.TypeApiKey [];
    App.ClickClose;
    App.ClickShowPreview;
    App.ClickRetry ].

End Samples.
Import Samples.

(* ================================================================= *)
(** ** Predicates on texts and patterns used by the further properties *)

Module Patterns.

(** Every match of the pattern takes in a digit *)
Fixpoint needs_digit (r : regex) : bool :=
  match r with
  | Chr CsDigit | Plus _ CsDigit => true
  | Seq r1 r2 => needs_digit r1 || needs_digit r2
  | Alt r1 r2 => needs_digit r1 && needs_digit r2
  | Group _ r1 => needs_digit r1
  | _ => false
  end.

Definition no_digit (t : text) : bool := forallb (fun c => negb (is_digit c)) t.

(** A character that [\s*g] cannot start with *)
Definition blocks_unit (c : code_unit) : bool :=
  negb (is_space c) && negb (N.eqb (canonicalize c) 71).

(** No digit of the text is followed by white space, by a letter g or by
    the end of the text: no number in it is an amount in grams *)
Fixpoint no_amount (t : text) : bool :=
  match t with
  | [] => true
  | x :: t' =>
      (negb (is_digit x)
       || match t' with y :: _ => is_digit y || blocks_unit y | [] => false end)
      && no_amount t'
  end.

(** [fallbackData] as it is initialised (lines 205-220) *)
Definition fallbackData : CarbData :=
  mkCarbData (Int 30) (mkBreakdown (Int 5) (Int 10) (Int 15)) [defaultItem].

(** What follows [(\d+)\s*] in the total pattern *)
Definition carbTail : regex :=
  seqs [lit "g"; Opt (Group 2 (lit "rams")); ws; Opt (Group 3 (lit "of")); ws;
        Group 4 (Alt (lit "carb") (lit "carbohydrate"))].

(** The continuation that ends a match *)
Definition done : cont := fun e i c => Some (e, i, c).

(** Two characters that the [i] flag does not tell apart, and two texts
    that differ in the case of ASCII letters only *)
Definition same_letter (x y : code_unit) : Prop := canonicalize x = canonicalize y.

Definition same_letters (t t' : text) : Prop := Forall2 same_letter t t'.

(** Captures, match states, continuations, results and items that agree
    up to the case of letters *)
Definition cap_rel (a b : nat * capture) : Prop :=
  fst a = fst b
  /\ same_letters (fst (fst (snd a))) (fst (fst (snd b)))
  /\ snd (fst (snd a)) = snd (fst (snd b))
  /\ snd (snd a) = snd (snd b).

Definition state_rel (a b : option (nat * text * caps)) : Prop :=
  match a, b with
  | Some (e, i, c), Some (e', i', c') =>
      e = e' /\ same_letters i i' /\ Forall2 cap_rel c c'
  | None, None => True
  | _, _ => False
  end.

Definition cont_rel (k k' : cont) : Prop :=
  forall e i i' c c', same_letters i i' -> Forall2 cap_rel c c' ->
    state_rel (k e i c) (k' e i' c').

Definition result_rel (m m' : rmatch_result) : Prop :=
  m_index m = m_index m' /\ m_end m = m_end m'
  /\ same_letters (m_text m) (m_text m')
  /\ Forall2 cap_rel (m_caps m) (m_caps m')
  /\ same_letters (m_rest m) (m_rest m').

Definition option_rel {A} (R : A -> A -> Prop) (a b : option A) : Prop :=
  match a, b with
  | Some x, Some y => R x y
  | None, None => True
  | _, _ => False
  end.

Definition item_rel (i i' : FoodItem) : Prop :=
  same_letters (name i) (name i') /\ weight i' = weight i /\ carbs i' = carbs i
  /\ confidence i' = confidence i.

End Patterns.
Import Patterns.

(* ================================================================= *)
(** ** Item names *)

Module Names.

(** A character of [[\s\w]] *)
Definition name_char (c : code_unit) : bool := is_space c || is_word c.

(** Group [n] is [(\w+[\s\w]*?)], it is not optional and no later group
    has its number *)
Fixpoint binds_name (n : nat) (r : regex) : bool :=
  match r with
  | Group m (Seq (Plus _ CsWord) (Star _ (CsUnion CsSpace CsWord))) => Nat.eqb m n
  | Seq r1 r2 =>
      (binds_name n r1 && negb (existsb (Nat.eqb n) (group_ids r2)))
      || binds_name n r2
  | _ => false
  end.

(** A name: word characters and white space, a word character at both
    ends *)
Definition clean_name (nm : text) : bool :=
  forallb name_char nm
  && match nm with
     | x :: _ => is_word x && is_word (last nm x)
     | [] => false
     end.

End Names.
Import Names.

(* ================================================================= *)
(** ** The item pattern in parts *)

Module ItemPattern.

Definition nameClass : charset := CsUnion CsSpace CsWord.

(** The item pattern in parts: the name group, and what follows it from
    the colon, from the first unit, from the second number and from the
    second unit on *)
Definition itemName : regex :=
  Group 1 (Seq (Plus true CsWord) (Star false nameClass)).

Definition itemTail3 : regex :=
  seqs [ws; lit "g"; Opt (Group 5 (lit "rams")); ws; Opt (Group 6 (lit "of")); ws;
        Group 7 (Alt (lit "carbs") (lit "carbohydrates"))].

Definition itemTail2 : regex := Seq (Group 4 digits) itemTail3.

Definition itemTail1 : regex :=
  Seq ws (Seq (lit "g") (Seq (Opt (Group 3 (lit "rams")))
    (Seq (lit ",") (Seq ws itemTail2)))).

Definition itemTail0 : regex :=
  Seq (lit ":") (Seq ws (Seq (Group 2 digits) itemTail1)).

(** A line of the form the item pattern looks for *)
Definition item_line (nm sp1 wt sp2 cb : text) : text :=
  nm ++ of_string ":" ++ sp1 ++ wt ++ of_string "g," ++ sp2 ++ cb ++ of_string "g carbs".

End ItemPattern.
Import ItemPattern.

(* ================================================================= *)
(** ** The item card: carbohydrates per 100 g *)

Module Display.

(** A binary64 value: NaN, an infinity, or a sign and a magnitude (zero
    has a sign too) *)
Inductive float :=
| FNaN
| FInf (neg : bool)
| FFin (neg : bool) (q : Q).

Definition of_number (x : number) : float :=
  match x with
  | NaN => FNaN
  | NegZero => FFin true 0
  | Int z => FFin (z <? 0)%Z (inject_Z (Z.abs z))
  | PosInf => FInf false
  | NegInf => FInf true
  end.

(** The binary64 nearest to a magnitude [x] (ties to even): a significand of
    53 bits, or fewer below [2^-1022] where the exponent stops at [-1074];
    an infinity once the rounded value reaches [2^1024] *)
Definition round64 (neg : bool) (x : Q) : float :=
  let n := Qnum x in
  let d := Zpos (Qden x) in
  if (n <=? 0)%Z then FFin neg 0
  else
    let e := Z.max (exponent n d) (-1074) in
    let m := round_ratio (scale_num n e) (scale_den d e) in
    let v := (inject_Z m * pow2 e)%Q in
    if Qle_bool (pow2 1024) v then FInf neg else FFin neg (Qred v).

Definition is_zeroq (q : Q) : bool := Qeq_bool q 0.

(** [x / y] and [x * y] of the language *)
Definition div (x y : float) : float :=
  match x, y with
  | FNaN, _ | _, FNaN => FNaN
  | FInf _, FInf _ => FNaN
  | FInf s, FFin t _ => FInf (xorb s t)
  | FFin s _, FInf t => FFin (xorb s t) 0
  | FFin s a, FFin t b =>
      if is_zeroq b then (if is_zeroq a then FNaN else FInf (xorb s t))
      else round64 (xorb s t) (a / b)
  end.

Definition mul (x y : float) : float :=
  match x, y with
  | FNaN, _ | _, FNaN => FNaN
  | FInf s, FInf t => FInf (xorb s t)
  | FInf s, FFin t b => if is_zeroq b then FNaN else FInf (xorb s t)
  | FFin s a, FInf t => if is_zeroq a then FNaN else FInf (xorb s t)
  | FFin s a, FFin t b => round64 (xorb s t) (a * b)
  end.

(** Decimal digits *)
Fixpoint uint_text (u : Decimal.uint) : text :=
  match u with
  | Decimal.Nil => []
  | Decimal.D0 u => 48%N :: uint_text u
  | Decimal.D1 u => 49%N :: uint_text u
  | Decimal.D2 u => 50%N :: uint_text u
  | Decimal.D3 u => 51%N :: uint_text u
  | Decimal.D4 u => 52%N :: uint_text u
  | Decimal.D5 u => 53%N :: uint_text u
  | Decimal.D6 u => 54%N :: uint_text u
  | Decimal.D7 u => 55%N :: uint_text u
  | Decimal.D8 u => 56%N :: uint_text u
  | Decimal.D9 u => 57%N :: uint_text u
  end.

Definition decimal_text (n : Z) : text := uint_text (N.to_uint (Z.to_N n)).

(** What [toFixed] returns: a text, or, for a magnitude of [10^21] or more,
    the text of the number's [toString], which is not computed here *)
Inductive shown :=
| Shown (t : text)
| NumberToString (x : float).

(** The integer [n] for which [n / 10] is nearest to the magnitude [q], the
    larger one of two *)
Definition tenths (q : Q) : Z := Qfloor (q * 10 + (1 # 2))%Q.

(** [x.toFixed(1)] *)
Definition toFixed1 (x : float) : shown :=
  match x with
  | FNaN => Shown (of_string "NaN")
  | FInf false => Shown (of_string "Infinity")
  | FInf true => Shown (of_string "-Infinity")
  | FFin neg q =>
      if Qle_bool (inject_Z (10 ^ 21)) q then NumberToString x
      else
        let n := tenths q in
        Shown ((if neg && negb (is_zeroq q) then of_string "-" else [])
               ++ decimal_text (n / 10) ++ of_string "." ++ decimal_text (n mod 10))
  end.

(** [((item.carbs / item.weight) * 100).toFixed(1)] (line 649) *)
Definition carbsPer100g (item : FoodItem) : shown :=
  toFixed1 (mul (div (of_number (carbs item)) (of_number (weight item)))
                (of_number (Int 100))).

(** The same with the binary64 operations of the Standard Library's
    [SpecFloat], to compare with on samples *)
Definition spec_of_number (x : number) : spec_float :=
  match x with
  | NaN => S754_nan
  | NegZero => S754_zero true
  | Int z => binary_normalize 53 1024 z 0 false
  | PosInf => S754_infinity false
  | NegInf => S754_infinity true
  end.

Definition float_of_spec (f : spec_float) : float :=
  match f with
  | S754_zero s => FFin s 0
  | S754_infinity s => FInf s
  | S754_nan => FNaN
  | S754_finite s m e => FFin s (Qred (inject_Z (Zpos m) * pow2 e))
  end.

Definition float_eqb (x y : float) : bool :=
  match x, y with
  | FNaN, FNaN => true
  | FInf s, FInf t => Bool.eqb s t
  | FFin s a, FFin t b => Bool.eqb s t && Qeq_bool a b
  | _, _ => false
  end.

Definition same_quotient (cw : number * number) : bool :=
  let '(c, w) := cw in
  float_eqb
    (mul (div (of_number c) (of_number w)) (of_number (Int 100)))
    (float_of_spec
       (SFmul 53 1024 (SFdiv 53 1024 (spec_of_number c) (spec_of_number w))
          (spec_of_number (Int 100)))).

Definition sample_items : list (number * number) :=
  [(Int 45, Int 200); (Int 0, Int 150); (Int 45, Int 0); (Int 0, Int 0);
   (Int 1, Int 3); (Int 7, Int 9); (Int 123456789, Int 1000);
   (Int 4294967295, Int 4294967294); (Int 1, Int 4294967295);
   (Int 1, Int (2 ^ 1023)); (Int 1, Int (3 * 2 ^ 1021)); (Int 5, Int (2 ^ 1023 + 2 ^ 1000));
   (Int (2 ^ 1023), Int 1); (Int (2 ^ 1023), Int 3); (Int (2 ^ 1017), Int 1);
   (PosInf, Int 5); (Int 5, PosInf); (PosInf, PosInf); (PosInf, Int 0);
   (NegZero, Int 5); (Int (-5), Int 0); (Int (-7), Int 3); (NaN, Int 1)]%Z.

End Display.
Import Display.

(* ================================================================= *)
(** ** The request of [analyzeImage] *)

Module Request.

Definition comma : code_unit := 44%N.

(** [s.split(sep)] for a one-character separator: the pieces between its
    occurrences, of which there is always at least one *)
Fixpoint split (sep : code_unit) (s : text) : list text :=
  match s with
  | [] => [[]]
  | c :: s' =>
      if N.eqb c sep then [] :: split sep s'
      else
        match split sep s' with
        | piece :: pieces => (c :: piece) :: pieces
        | [] => [[c]]
        end
  end.

(** [imageSrc.split(",")[1]] (line 270); [None] is [undefined] *)
Definition base64Image (imageSrc : text) : option text :=
  nth_error (split comma imageSrc) 1.

(** What a template literal makes of the value *)
Definition interpolate (v : option text) : text :=
  match v with
  | Some t => t
  | None => of_string "undefined"
  end.

(** The [url] of the request's image part (line 296) *)
Definition image_url (imageSrc : text) : text :=
  of_string "data:image/jpeg;base64," ++ interpolate (base64Image imageSrc).

(** The [Authorization] header (line 276) *)
Definition authorization (apiKey : text) : text :=
  of_string "Bearer " ++ apiKey.

End Request.
Import Request.

(* ================================================================= *)
(** ** Runs of the page *)

Module Scenarios.

Definition testKey : text := of_string "sk-test".

(** The page after a photo has been analysed: preview, with the record of
    [sampleRecord] on the result card *)
Definition analysed : App.State :=
  App.mkState App.preview testKey (Some testKey) false (Some photo) false false None
    (Some (ParsedObject (sampleFields ++ [(foodItemsKey, JArray [])])))
    (Some sampleRecord) [].

(** Back to the camera, a second photo, and its request fails *)
Definition failed_retake : list App.action :=
  [ App.ClickClose;
    App.ClickCapture (Some photo);
    App.Settled (App.ApiError (of_string "API error: 500 - Internal Server Error")) ].

(** A first visit: the key is typed and saved in the dialog, a photo is
    taken and analysed, and the details are opened *)
Definition first_visit : list App.action :=
  [ App.ClickCapture (Some photo);
    App.TypeApiKey testKey;
    App.ClickSave;
    App.ClickCapture (Some photo);
    App.Settled (App.Content sampleRecord);
    App.ClickResult ].

Definition rateLimit : text := of_string "API error: 429 - Rate limit".
Definition serverError : text := of_string "API error: 500 - Internal Server Error".
Definition otherKey : text := of_string "sk-other".

(** An image file that [compressImage] turns into [photo] *)
Definition imageFile : App.file := App.mkFile true (Some photo).

(** Two photos in a row: the second request is started while the first is
    in flight, and the first then fails *)
Definition overlapping : list App.action :=
  [ App.ClickCapture (Some photo);
    App.ClickClose;
    App.ClickCapture (Some photo);
    App.Settled (App.ApiError serverError) ].

(** While an upload is being compressed the key is replaced in the
    settings *)
Definition key_change : list App.action :=
  [ App.ClickSettings;
    App.TypeApiKey otherKey;
    App.ClickSave ].

End Scenarios.
Import Scenarios.

(* ================================================================= *)
(** * Facts about the model *)

Ltac range_bounds H :=
  unfold in_range in H; apply andb_true_iff in H;
  let H1 := fresh in let H2 := fresh in
  destruct H as [H1 H2]; apply N.leb_le in H1, H2.

Ltac not_space :=
  unfold is_space, in_range;
  repeat (apply orb_false_iff; split);
  try (apply andb_false_iff;
       first [left; apply N.leb_gt; lia | right; apply N.leb_gt; lia]);
  apply N.eqb_neq; lia.

Ltac syntax_error := split; [discriminate | intros; discriminate].

(* ----------------------------------------------------------------- *)
(** ** The matcher *)

Module RegexFacts.

Lemma star_greedy_inv {icase cs k} : forall {inp e c res},
  star_greedy icase cs k e inp c = Some res ->
  exists pre i, inp = pre ++ i /\ forallb (cs_match icase cs) pre = true
                /\ k (e + length pre) i c = Some res.
Proof.
  induction inp as [|x rest IH]; intros e c res H; simpl in H.
  - exists [], []. rewrite Nat.add_0_r. auto.
  - destruct (cs_match icase cs x) eqn:Hx.
    + destruct (star_greedy icase cs k (S e) rest c) eqn:Hs.
      * inversion H; subst. destruct (IH _ _ _ Hs) as (pre & i & -> & Hp & Hk).
        exists (x :: pre), i. simpl. rewrite Hx, Hp.
        repeat split. rewrite <- Hk. f_equal. lia.
      * exists [], (x :: rest). rewrite Nat.add_0_r. auto.
    + exists [], (x :: rest). rewrite Nat.add_0_r. auto.
Qed.

Lemma star_lazy_inv {icase cs k} : forall {inp e c res},
  star_lazy icase cs k e inp c = Some res ->
  exists pre i, inp = pre ++ i /\ forallb (cs_match icase cs) pre = true
                /\ k (e + length pre) i c = Some res.
Proof.
  induction inp as [|x rest IH]; intros e c res H; simpl in H.
  - exists [], []. rewrite Nat.add_0_r. auto.
  - destruct (k e (x :: rest) c) eqn:Hk0.
    + inversion H; subst. exists [], (x :: rest). rewrite Nat.add_0_r. auto.
    + destruct (cs_match icase cs x) eqn:Hx; [|discriminate].
      destruct (IH _ _ _ H) as (pre & i & -> & Hp & Hk).
      exists (x :: pre), i. simpl. rewrite Hx, Hp.
      repeat split. rewrite <- Hk. f_equal. lia.
Qed.

Lemma star_inv {icase g cs k inp e c res} :
  star icase g cs k e inp c = Some res ->
  exists pre i, inp = pre ++ i /\ forallb (cs_match icase cs) pre = true
                /\ k (e + length pre) i c = Some res.
Proof.
  destruct g; [apply star_greedy_inv | apply star_lazy_inv].
Qed.

(** A successful match calls its continuation on a suffix of the input, at
    the end index that goes with it, and with the captures of the groups
    outside the pattern untouched. *)
Lemma rmatch_inv {icase r} : forall {k e inp c res},
  rmatch icase r k e inp c = Some res ->
  exists pre i c',
    inp = pre ++ i /\ min_len r <= length pre
    /\ k (e + length pre) i c' = Some res
    /\ (forall n, ~ In n (group_ids r) -> get_cap n c' = get_cap n c).
Proof.
  induction r as [|cs|r1 IH1 r2 IH2|r1 IH1 r2 IH2|r1 IH1|g cs|g cs|m r1 IH1];
    intros k e inp c res H; simpl in H.
  - exists [], inp, c. rewrite Nat.add_0_r. simpl. auto.
  - destruct inp as [|x rest]; [discriminate|].
    destruct (cs_match icase cs x); [|discriminate].
    exists [x], rest, c. simpl. replace (e + 1) with (S e) by lia. auto.
  - destruct (IH1 _ _ _ _ _ H) as (p1 & i1 & c1 & -> & Hl1 & Hk1 & Hc1).
    destruct (IH2 _ _ _ _ _ Hk1) as (p2 & i2 & c2 & -> & Hl2 & Hk2 & Hc2).
    exists (p1 ++ p2), i2, c2. rewrite <- app_assoc, length_app. simpl.
    repeat split; [lia | rewrite <- Hk2; f_equal; lia |].
    intros n Hn. rewrite in_app_iff in Hn.
    rewrite Hc2, Hc1; auto.
  - simpl. destruct (rmatch icase r1 k e inp c) eqn:H1.
    + inversion H; subst. destruct (IH1 _ _ _ _ _ H1) as (p & i & c' & -> & Hl & Hk & Hc).
      exists p, i, c'. repeat split; auto; [lia|].
      intros n Hn. apply Hc. rewrite in_app_iff in Hn. tauto.
    + destruct (IH2 _ _ _ _ _ H) as (p & i & c' & -> & Hl & Hk & Hc).
      exists p, i, c'. repeat split; auto; [lia|].
      intros n Hn. apply Hc. rewrite in_app_iff in Hn. tauto.
  - match type of H with match ?X with _ => _ end = _ => destruct X eqn:H1 end.
    + inversion H; subst.
      destruct (IH1 _ _ _ _ _ H1) as (p & i & c' & -> & Hl & Hk & Hc).
      destruct (Nat.eqb (e + length p) e); [discriminate|].
      exists p, i, c'. simpl. repeat split; auto. lia.
    + exists [], inp, c. rewrite Nat.add_0_r. simpl. repeat split; auto.
  - destruct (star_inv H) as (p & i & -> & _ & Hk).
    exists p, i, c. simpl. repeat split; auto. lia.
  - destruct inp as [|x rest]; [discriminate|].
    destruct (cs_match icase cs x); [|discriminate].
    destruct (star_inv H) as (p & i & -> & _ & Hk).
    exists (x :: p), i, c. simpl. repeat split; auto; [lia|].
    rewrite <- Hk. f_equal. lia.
  - destruct (IH1 _ _ _ _ _ H) as (p & i & c' & -> & Hl & Hk & Hc).
    exists p, i, ((m, (p ++ i, e, e + length p)) :: c').
    simpl. repeat split; auto.
    intros n Hn. destruct (Nat.eqb m n) eqn:E.
    + apply Nat.eqb_eq in E. tauto.
    + apply Hc. tauto.
Qed.

Lemma firstn_consumed (e : nat) (p i : text) :
  firstn (e + length p - e) (p ++ i) = p.
Proof.
  replace (e + length p - e) with (length p + 0) by lia.
  rewrite firstn_app_2. simpl. apply app_nil_r.
Qed.

Lemma not_mem_ids {n l} : existsb (Nat.eqb n) l = false -> ~ In n l.
Proof.
  intros H Hin. assert (existsb (Nat.eqb n) l = true).
  { apply existsb_exists. exists n. split; auto. apply Nat.eqb_refl. }
  congruence.
Qed.

(** A group [(\d+)] that every match goes through holds a non-empty run of
    digits when the match completes. *)
Lemma rmatch_binds_digits {icase n r} : binds_digits n r = true ->
  forall {k e inp c res},
  rmatch icase r k e inp c = Some res ->
  exists e' i c' d, k e' i c' = Some res /\ get_cap n c' = Some d /\ digit_text d.
Proof.
  induction r as [|cs|r1 IH1 r2 IH2|r1 IH1 r2 IH2|r1 IH1|g cs|g cs|m r1 IH1];
    intros Hb k e inp c res H; simpl in Hb; try discriminate.
  - simpl in H. apply orb_true_iff in Hb. destruct Hb as [Hb|Hb].
    + apply andb_true_iff in Hb. destruct Hb as [Hb1 Hb2].
      apply negb_true_iff, not_mem_ids in Hb2.
      destruct (IH1 Hb1 _ _ _ _ _ H) as (e1 & i1 & c1 & d & Hk1 & Hg & Hd).
      destruct (rmatch_inv Hk1) as (p & i2 & c2 & _ & _ & Hk2 & Hc2).
      exists (e1 + length p), i2, c2, d. rewrite Hc2; auto.
    + destruct (rmatch_inv H) as (p & i1 & c1 & _ & _ & Hk1 & _).
      destruct (IH2 Hb _ _ _ _ _ Hk1) as (e2 & i2 & c2 & d & Hk2 & Hg & Hd).
      exists e2, i2, c2, d. auto.
  - destruct r1; try discriminate. destruct cs; try discriminate.
    apply Nat.eqb_eq in Hb. subst m. simpl in H.
    destruct inp as [|x rest]; [discriminate|].
    simpl in H. destruct (is_digit x) eqn:Hx; [|discriminate].
    destruct (star_inv H) as (p & i & -> & Hp & Hk).
    eexists _, _, _, (x :: p). split; [exact Hk|split].
    + cbn [get_cap]. rewrite Nat.eqb_refl. f_equal. unfold capture_text.
      replace (S e + length p - e) with (S (length p + 0)) by lia.
      cbn [firstn]. rewrite firstn_app_2. simpl. rewrite app_nil_r. reflexivity.
    + split; [discriminate|]. simpl. rewrite Hx. exact Hp.
Qed.

(** A group that starts with [\w+] and that every match goes through holds
    a text that starts with a word character. *)
Lemma rmatch_binds_word {icase n r} : binds_word n r = true ->
  forall {k e inp c res},
  rmatch icase r k e inp c = Some res ->
  exists e' i c' x d, k e' i c' = Some res /\ get_cap n c' = Some (x :: d)
                      /\ is_word x = true.
Proof.
  induction r as [|cs|r1 IH1 r2 IH2|r1 IH1 r2 IH2|r1 IH1|g cs|g cs|m r1 IH1];
    intros Hb k e inp c res H; simpl in Hb; try discriminate.
  - simpl in H. apply orb_true_iff in Hb. destruct Hb as [Hb|Hb].
    + apply andb_true_iff in Hb. destruct Hb as [Hb1 Hb2].
      apply negb_true_iff, not_mem_ids in Hb2.
      destruct (IH1 Hb1 _ _ _ _ _ H) as (e1 & i1 & c1 & x & d & Hk1 & Hg & Hd).
      destruct (rmatch_inv Hk1) as (p & i2 & c2 & _ & _ & Hk2 & Hc2).
      exists (e1 + length p), i2, c2, x, d. rewrite Hc2; auto.
    + destruct (rmatch_inv H) as (p & i1 & c1 & _ & _ & Hk1 & _).
      destruct (IH2 Hb _ _ _ _ _ Hk1) as (e2 & i2 & c2 & x & d & Hk2 & Hg & Hd).
      exists e2, i2, c2, x, d. auto.
  - destruct r1; try discriminate. destruct r1_1; try discriminate.
    destruct cs; try discriminate.
    apply Nat.eqb_eq in Hb. subst m. simpl in H.
    destruct inp as [|x rest]; [discriminate|].
    simpl in H. destruct (is_word x) eqn:Hx; [|discriminate].
    destruct (star_inv H) as (p & i & -> & Hp & Hk).
    destruct (rmatch_inv Hk) as (p2 & i2 & c2 & -> & _ & Hk2 & _).
    eexists _, _, _, x, _. split; [exact Hk2|]. split; [|exact Hx].
    cbn [get_cap]. rewrite Nat.eqb_refl. f_equal. unfold capture_text.
    replace (S e + length p + length p2 - e) with (S (length p + length p2)) by lia.
    cbn [firstn]. reflexivity.
Qed.

Lemma match_here_inv {icase r idx inp res} :
  match_here icase r idx inp = Some res ->
  rmatch icase r (fun e i c => Some (e, i, c)) 0 inp []
    = Some (length (m_text res), m_rest res, m_caps res)
  /\ m_index res = idx
  /\ inp = m_text res ++ m_rest res
  /\ m_end res = idx + length (m_text res)
  /\ min_len r <= length (m_text res).
Proof.
  unfold match_here. intros H.
  destruct (rmatch icase r _ 0 inp []) as [[[e rest] c]|] eqn:Hr; [|discriminate].
  inversion H; subst; simpl. clear H.
  destruct (rmatch_inv Hr) as (p & i & c' & -> & Hl & Hk & _).
  inversion Hk; subst. simpl.
  assert (firstn (length p) (p ++ rest) = p) as ->.
  { replace (length p) with (length p + 0) at 1 by lia.
    rewrite firstn_app_2. simpl. apply app_nil_r. }
  repeat split; auto.
Qed.

Lemma search_from_inv {icase r} : forall {inp idx res},
  search_from icase r idx inp = Some res ->
  exists skipped,
    inp = skipped ++ m_text res ++ m_rest res
    /\ m_index res = idx + length skipped
    /\ match_here icase r (m_index res) (m_text res ++ m_rest res) = Some res.
Proof.
  induction inp as [|x rest IH]; intros idx res H; simpl in H.
  - destruct (match_here icase r idx []) eqn:Hm; [|discriminate].
    inversion H; subst. destruct (match_here_inv Hm) as (_ & Hi & Ht & _).
    exists []. simpl. rewrite Hi, <- Ht, Nat.add_0_r. auto.
  - destruct (match_here icase r idx (x :: rest)) eqn:Hm.
    + inversion H; subst. destruct (match_here_inv Hm) as (_ & Hi & Ht & _).
      exists []. simpl. rewrite Hi, <- Ht, Nat.add_0_r. auto.
    + destruct (IH _ _ H) as (sk & -> & Hi & Hm').
      exists (x :: sk). simpl. repeat split; auto. lia.
Qed.

(** The loop ends whenever the pattern cannot match the empty text. *)
Lemma exec_loop_terminates {icase} r : 0 < min_len r ->
  forall fuel idx inp, length inp < fuel ->
  exists l, exec_loop icase fuel r idx inp = Some l.
Proof.
  intros Hmin. induction fuel as [|fuel IH]; intros idx inp Hlen; [lia|].
  simpl. destruct (search_from icase r idx inp) as [res|] eqn:Hs; [|eauto].
  destruct (search_from_inv Hs) as (sk & Hinp & _ & Hm).
  destruct (match_here_inv Hm) as (_ & _ & _ & _ & Hl).
  destruct (IH (m_end res) (m_rest res)) as (l & ->); [|eauto].
  rewrite Hinp, !length_app in Hlen. lia.
Qed.

(** Every element of the loop's result is a match at its index, found from
    where the one before it ended, and the indices increase. *)
Lemma exec_loop_inv {icase r} : 0 < min_len r ->
  forall {fuel idx inp l}, exec_loop icase fuel r idx inp = Some l ->
  Forall (fun m => idx <= m_index m /\ m_index m < m_end m
                   /\ match_here icase r (m_index m) (m_text m ++ m_rest m) = Some m) l
  /\ StronglySorted lt (map m_index l).
Proof.
  intros Hmin. induction fuel as [|fuel IH]; intros idx inp l H; [discriminate|].
  simpl in H. destruct (search_from icase r idx inp) as [res|] eqn:Hs.
  - destruct (exec_loop icase fuel r (m_end res) (m_rest res)) as [l'|] eqn:He;
      [|discriminate].
    inversion H; subst. clear H.
    destruct (search_from_inv Hs) as (sk & Hinp & Hi & Hm).
    destruct (match_here_inv Hm) as (_ & _ & _ & Hend & Hl).
    destruct (IH _ _ _ He) as [Hall Hsorted].
    split.
    + constructor; [repeat split; auto; lia|].
      eapply Forall_impl; [|exact Hall]. simpl. intros m (H1 & H2 & H3).
      repeat split; auto. lia.
    + simpl. constructor; auto.
      rewrite Forall_map. eapply Forall_impl; [|exact Hall]. simpl.
      intros m (H1 & _). lia.
  - inversion H; subst. split; constructor.
Qed.

Lemma exec_loop_more_fuel {icase r} : forall {fuel fuel' idx inp l},
  exec_loop icase fuel r idx inp = Some l -> fuel <= fuel' ->
  exec_loop icase fuel' r idx inp = Some l.
Proof.
  induction fuel as [|fuel IH]; intros fuel' idx inp l H Hle; [discriminate|].
  destruct fuel' as [|fuel']; [lia|]. simpl in *.
  destruct (search_from icase r idx inp) as [res|]; auto.
  destruct (exec_loop icase fuel r (m_end res) (m_rest res)) as [l'|] eqn:E;
    [|discriminate].
  rewrite (IH fuel' _ _ _ E) by lia. exact H.
Qed.

Lemma exec_loop_S icase fuel r idx inp :
  exec_loop icase (S fuel) r idx inp
  = match search_from icase r idx inp with
    | None => Some []
    | Some res =>
        match exec_loop icase fuel r (m_end res) (m_rest res) with
        | Some l => Some (res :: l)
        | None => None
        end
    end.
Proof. reflexivity. Qed.

(** Each match of the loop lies in the text at its index. *)
Lemma exec_loop_positions {icase r} : forall fuel pre inp l,
  exec_loop icase fuel r (length pre) inp = Some l ->
  Forall (fun m => skipn (m_index m) (pre ++ inp) = m_text m ++ m_rest m) l.
Proof.
  induction fuel as [|fuel IH]; intros pre inp l H; [discriminate|].
  simpl in H. destruct (search_from icase r (length pre) inp) as [res|] eqn:Hs.
  - destruct (exec_loop icase fuel r (m_end res) (m_rest res)) as [l'|] eqn:He;
      [|discriminate].
    inversion H; subst. clear H.
    destruct (search_from_inv Hs) as (sk & Hinp & Hi & Hm).
    destruct (match_here_inv Hm) as (_ & _ & _ & Hend & _).
    replace (m_end res) with (length (pre ++ sk ++ m_text res)) in He
      by (rewrite !length_app; lia).
    apply IH in He. constructor.
    + rewrite Hinp, Hi, app_assoc, <- length_app, skipn_app, skipn_all.
      rewrite Nat.sub_diag. reflexivity.
    + rewrite Hinp. rewrite <- !app_assoc in He. exact He.
  - inversion H. constructor.
Qed.

(** No attempt succeeds at an index where the text has a character the
    pattern cannot start with. *)
Lemma search_skip {icase r} (p : code_unit -> bool) :
  (forall x rest, p x = true ->
     rmatch icase r (fun e i c => Some (e, i, c)) 0 (x :: rest) [] = None) ->
  forall sep idx rest, forallb p sep = true ->
  search_from icase r idx (sep ++ rest) = search_from icase r (idx + length sep) rest.
Proof.
  intros Hfail. induction sep as [|x sep IH]; intros idx rest Hsep; simpl.
  - rewrite Nat.add_0_r. reflexivity.
  - simpl in Hsep. apply andb_true_iff in Hsep. destruct Hsep as [Hx Hsep].
    unfold match_here. rewrite (Hfail _ _ Hx), (IH _ _ Hsep).
    f_equal. lia.
Qed.

End RegexFacts.
Import RegexFacts.

(* ----------------------------------------------------------------- *)
(** ** Numbers *)

Module NumFacts.
Local Open Scope Z_scope.

Lemma round_shift_nonneg n e : 0 <= n -> 0 <= round_shift n e.
Proof.
  intros Hn. unfold round_shift.
  assert (0 <= Z.shiftr n e) by (apply Z.shiftr_nonneg; exact Hn).
  repeat match goal with |- context [if ?b then _ else _] => destruct b end; lia.
Qed.

Lemma Number_value_natural z : 0 <= z -> natural (Number_value z) = true.
Proof.
  intros Hz. unfold Number_value.
  destruct (Z.abs z <? 2 ^ 53); [simpl; lia|].
  set (v := Z.shiftl _ _).
  assert (0 <= v).
  { apply Z.shiftl_nonneg, round_shift_nonneg. lia. }
  destruct (2 ^ 1024 <=? v).
  - assert ((z <? 0) = false) as -> by lia. reflexivity.
  - simpl. apply Z.leb_le. destruct (Z.sgn_spec z) as [[_ ->]|[[_ ->]|[? _]]]; lia.
Qed.

Lemma natural_Int z : natural (Int z) = true -> 0 <= z.
Proof. simpl. lia. Qed.

Lemma add_natural x y :
  natural x = true -> natural y = true -> natural (add x y) = true.
Proof.
  destruct x, y; simpl; try discriminate; auto.
  intros Hx Hy. apply Number_value_natural. lia.
Qed.

Lemma natural_nonneg x : natural x = true -> nonneg x = true.
Proof. destruct x; simpl; auto. Qed.

Lemma natural_integer_or_inf x :
  natural x = true -> is_integer x = true \/ x = PosInf.
Proof. destruct x; simpl; auto; discriminate. Qed.

Lemma digit_not_space c : is_digit c = true -> is_space c = false.
Proof.
  unfold is_digit, is_space, in_range. intros H.
  apply andb_true_iff in H. destruct H as [H1 H2].
  apply N.leb_le in H1, H2.
  repeat (apply orb_false_iff; split);
    try (apply andb_false_iff; first [left; apply N.leb_gt; lia | right; apply N.leb_gt; lia]);
    apply N.eqb_neq; lia.
Qed.

Lemma digit_bounds c : is_digit c = true -> (48 <= c <= 57)%N.
Proof.
  unfold is_digit, in_range. intros H.
  apply andb_true_iff in H. destruct H as [H1 H2].
  apply N.leb_le in H1, H2. lia.
Qed.

Lemma digit_value_digit c :
  is_digit c = true -> digit_value 10 c = Some (Z.of_N c - 48).
Proof.
  intros H. unfold digit_value. fold (is_digit c). rewrite H.
  pose proof (digit_bounds _ H).
  assert ((Z.of_N c - 48 <? 10) = true) as -> by lia. reflexivity.
Qed.

Lemma read_digits_all d : forall acc n,
  forallb is_digit d = true ->
  read_digits 10 acc n d
  = (fold_left (fun a c => a * 10 + (Z.of_N c - 48)) d acc, (n + length d)%nat).
Proof.
  induction d as [|c d IH]; intros acc n H; simpl.
  - f_equal. lia.
  - simpl in H. apply andb_true_iff in H. destruct H as [Hc Hd].
    rewrite (digit_value_digit _ Hc), IH by exact Hd. f_equal. lia.
Qed.

Lemma fold_digits_nonneg d : forall acc,
  forallb is_digit d = true -> 0 <= acc ->
  0 <= fold_left (fun a c => a * 10 + (Z.of_N c - 48)) d acc.
Proof.
  induction d as [|c d IH]; intros acc H Hacc; simpl; auto.
  simpl in H. apply andb_true_iff in H. destruct H as [Hc Hd].
  apply IH; auto. pose proof (digit_bounds _ Hc). lia.
Qed.

(** On a non-empty run of digits [parseInt] is the Number value of the
    number the digits write. *)
Lemma parseInt_digits d : digit_text d ->
  parseInt d = Number_value (decimal_value d) /\ 0 <= decimal_value d.
Proof.
  intros [Hne Hd]. destruct d as [|c d]; [congruence|].
  pose proof Hd as Hall. simpl in Hd. apply andb_true_iff in Hd. destruct Hd as [Hc Hd].
  pose proof (digit_bounds _ Hc) as Hb.
  assert (Hv : 0 <= decimal_value (c :: d)) by (apply fold_digits_nonneg; auto; lia).
  split; [|exact Hv].
  unfold parseInt. simpl drop_while. rewrite (digit_not_space _ Hc).
  assert (N.eqb c 45 = false) as -> by (apply N.eqb_neq; lia).
  assert (N.eqb c 43 = false) as -> by (apply N.eqb_neq; lia).
  assert (Hfin : forall s3, s3 = c :: d ->
            (let (v, n) := read_digits 10 0 0 s3 in
             match n with
             | 0%nat => NaN
             | S _ => if v =? 0 then Int 0 else Number_value v
             end) = Number_value (decimal_value (c :: d))).
  { intros s3 ->. rewrite read_digits_all by exact Hall.
    fold (decimal_value (c :: d)). simpl Nat.add. cbv iota.
    destruct (decimal_value (c :: d) =? 0) eqn:E; [|reflexivity].
    apply Z.eqb_eq in E. rewrite E. reflexivity. }
  destruct d as [|b t]; cbv beta iota.
  - apply Hfin. reflexivity.
  - simpl in Hd. apply andb_true_iff in Hd.
    destruct Hd as [Hb2 _]. pose proof (digit_bounds _ Hb2).
    assert (N.eqb b 120 = false) as -> by (apply N.eqb_neq; lia).
    assert (N.eqb b 88 = false) as -> by (apply N.eqb_neq; lia).
    rewrite andb_false_r. apply Hfin. reflexivity.
Qed.

Lemma parseInt_natural d : digit_text d -> natural (parseInt d) = true.
Proof.
  intros H. destruct (parseInt_digits H) as [-> Hv].
  apply Number_value_natural, Hv.
Qed.

End NumFacts.
Import NumFacts.

(* ----------------------------------------------------------------- *)
(** ** The fallback *)

Module FallbackFacts.

Lemma word_not_space c : is_word c = true -> is_space c = false.
Proof.
  unfold is_word, is_digit. intros H.
  repeat (apply orb_true_iff in H; destruct H as [H|H]).
  - range_bounds H. not_space.
  - range_bounds H. not_space.
  - range_bounds H. not_space.
  - apply N.eqb_eq in H. subst c. reflexivity.
Qed.

Lemma drop_while_last {p} {l : text} {x} :
  p x = false -> drop_while p (l ++ [x]) <> [].
Proof.
  intros Hx. induction l as [|y l IH]; simpl.
  - rewrite Hx. discriminate.
  - destruct (p y); [exact IH | discriminate].
Qed.

Lemma trim_word_nonempty {x} d : is_word x = true -> trim (x :: d) <> [].
Proof.
  intros Hx. apply word_not_space in Hx. unfold trim. simpl drop_while.
  rewrite Hx. simpl rev. intros H.
  apply (f_equal (@rev _)) in H. rewrite rev_involutive in H. simpl in H.
  exact (drop_while_last Hx H).
Qed.

(** The captures of a completed match *)
Lemma match_cap_digits {icase r} n {idx inp m} :
  binds_digits n r = true ->
  match_here icase r idx inp = Some m -> digit_text (cap n m).
Proof.
  intros Hb Hm. destruct (match_here_inv Hm) as (Hr & _).
  destruct (rmatch_binds_digits Hb Hr) as (e & i & c & d & Hk & Hg & Hd).
  inversion Hk; subst. unfold cap, group. rewrite Hg. exact Hd.
Qed.

Lemma match_cap_word {icase r} n {idx inp m} :
  binds_word n r = true ->
  match_here icase r idx inp = Some m ->
  exists x d, cap n m = x :: d /\ is_word x = true.
Proof.
  intros Hb Hm. destruct (match_here_inv Hm) as (Hr & _).
  destruct (rmatch_binds_word Hb Hr) as (e & i & c & x & d & Hk & Hg & Hx).
  inversion Hk; subst. unfold cap, group. rewrite Hg. eauto.
Qed.

Lemma search_cap_digits {icase r} n {idx inp m} :
  binds_digits n r = true ->
  search_from icase r idx inp = Some m -> digit_text (cap n m).
Proof.
  intros Hb Hs. destruct (search_from_inv Hs) as (sk & _ & _ & Hm).
  exact (match_cap_digits n Hb Hm).
Qed.

(** A field set from a match of a pattern whose first group is [(\d+)] *)
Lemma update_natural r t dflt :
  binds_digits 1 r = true -> natural dflt = true ->
  natural (update (str_match true r t) dflt) = true.
Proof.
  intros Hb Hd. unfold update, str_match.
  destruct (search_from true r 0 t) as [m|] eqn:Hs; [|exact Hd].
  apply parseInt_natural. exact (search_cap_digits 1 Hb Hs).
Qed.

Lemma item_of_match_ok {idx inp m} :
  match_here true foodItemRegex idx inp = Some m -> item_ok (item_of_match m).
Proof.
  intros Hm. unfold item_ok, item_of_match. simpl.
  destruct (match_cap_word 1 (r:=foodItemRegex) eq_refl Hm) as (x & d & -> & Hx).
  repeat split.
  - apply trim_word_nonempty, Hx.
  - apply parseInt_natural. exact (match_cap_digits 2 (r:=foodItemRegex) eq_refl Hm).
  - apply parseInt_natural. exact (match_cap_digits 4 (r:=foodItemRegex) eq_refl Hm).
Qed.

Lemma foodItemRegex_consumes : 0 < min_len foodItemRegex.
Proof. vm_compute. lia. Qed.

(** The item loop ends on every text. *)
Lemma item_loop_returns t :
  exists items, exec_loop true (S (length t)) foodItemRegex 0 t = Some items.
Proof.
  apply exec_loop_terminates; [apply foodItemRegex_consumes | lia].
Qed.

Lemma generateEstimatedCarbData_returns t :
  exists items,
    exec_loop true (S (length t)) foodItemRegex 0 t = Some items
    /\ generateEstimatedCarbData t = Some (assemble t items).
Proof.
  destruct (item_loop_returns t) as (items & H). exists items.
  unfold generateEstimatedCarbData. rewrite H. auto.
Qed.

Lemma items_ok {fuel idx t items} :
  exec_loop true fuel foodItemRegex idx t = Some items ->
  Forall item_ok (map item_of_match items).
Proof.
  intros H. destruct (exec_loop_inv foodItemRegex_consumes H) as [Hall _].
  rewrite Forall_map. eapply Forall_impl; [|exact Hall]. simpl.
  intros m (_ & _ & Hm). exact (item_of_match_ok Hm).
Qed.

Lemma defaultItem_ok : item_ok defaultItem.
Proof. repeat split; try reflexivity. discriminate. Qed.

Lemma assemble_ok {fuel idx t items} :
  exec_loop true fuel foodItemRegex idx t = Some items ->
  record_ok (assemble t items).
Proof.
  intros H. pose proof (items_ok H) as Hitems.
  assert (Hf : natural (update (str_match true fiberRegex t) (Int 5)) = true)
    by (apply update_natural; reflexivity).
  assert (Hs : natural (update (str_match true sugarRegex t) (Int 10)) = true)
    by (apply update_natural; reflexivity).
  assert (Hst : natural (update (str_match true starchRegex t) (Int 15)) = true)
    by (apply update_natural; reflexivity).
  assert (Hc : natural (update (str_match true carbRegex t) (Int 30)) = true)
    by (apply update_natural; reflexivity).
  unfold record_ok, assemble. simpl. repeat split; auto.
  - match goal with |- context [if ?b then _ else _] => destruct b end; auto.
    repeat apply add_natural; auto.
  - destruct (map item_of_match items); discriminate.
  - destruct (map item_of_match items) eqn:E; [|exact Hitems].
    constructor; [apply defaultItem_ok | constructor].
Qed.

Lemma record_ok_all_natural d : record_ok d -> all_natural d = true.
Proof.
  intros (H1 & H2 & H3 & H4 & _ & H5). unfold all_natural.
  rewrite H1, H2, H3, H4. simpl. apply forallb_forall. intros i Hi.
  rewrite Forall_forall in H5. destruct (H5 i Hi) as (_ & Hw & Hc & _).
  rewrite Hw, Hc. reflexivity.
Qed.

Lemma foodItemRegex_starts_with_word x rest :
  negb (is_word x) = true ->
  rmatch true foodItemRegex (fun e i c => Some (e, i, c)) 0 (x :: rest) [] = None.
Proof.
  intros Hx. apply negb_true_iff in Hx. unfold foodItemRegex. simpl. rewrite Hx.
  reflexivity.
Qed.

Lemma foodItems_assemble t items :
  foodItems (assemble t items)
  = match map item_of_match items with [] => [defaultItem] | l => l end.
Proof. unfold assemble. simpl. destruct (map item_of_match items); reflexivity. Qed.

Lemma natural_to_nonneg x : natural x = true -> nonneg x = true.
Proof. destruct x; simpl; auto. Qed.

Lemma record_ok_invariants d : record_ok d -> fallback_invariants d = true.
Proof.
  intros (H1 & H2 & H3 & H4 & _ & H5). unfold fallback_invariants.
  rewrite !natural_to_nonneg by assumption. simpl.
  apply forallb_forall. intros i Hi. rewrite Forall_forall in H5.
  destruct (H5 i Hi) as (Hn & Hw & Hc & _).
  rewrite !natural_to_nonneg by assumption.
  destruct (name i); [congruence | reflexivity].
Qed.

End FallbackFacts.
Import FallbackFacts.

(* ----------------------------------------------------------------- *)
(** ** The JSON parser *)

Module JsonFacts.

Lemma drop_while_length p (t : text) : length (drop_while p t) <= length t.
Proof.
  induction t as [|c t IH]; simpl; [lia|]. destruct (p c); simpl; lia.
Qed.

Lemma skip_ws_length t : length (skip_ws t) <= length t.
Proof. apply drop_while_length. Qed.

Lemma starts_with_tl c t : starts_with c t = true -> S (length (tl t)) = length t.
Proof. destruct t; simpl; [discriminate | reflexivity]. Qed.

Lemma parse_chars_ok : forall t acc,
  parse_chars acc t <> OutOfFuel
  /\ forall s r, parse_chars acc t = Ok s r -> length r < length t.
Proof.
  intros t. remember (length t) as n eqn:Hn. revert t Hn.
  induction n as [n IH] using lt_wf_ind. intros t Hn acc.
  destruct t as [|c rest]; simpl; [split; [discriminate|intros; discriminate]|].
  simpl in Hn.
  destruct (N.eqb c 34).
  { split; [discriminate|]. intros s r H. inversion H; subst. lia. }
  destruct (N.eqb c 92).
  - destruct rest as [|x r]; [split; [discriminate|intros; discriminate]|].
    destruct (N.eqb x 117).
    + destruct r as [|h1 [|h2 [|h3 [|h4 r']]]];
        try (split; [discriminate|intros; discriminate]).
      destruct (hex_value h1), (hex_value h2), (hex_value h3), (hex_value h4);
        try (split; [discriminate|intros; discriminate]).
      assert (Hlt : length r' < n). { simpl in Hn. lia. }
      destruct (IH (length r') Hlt r' eq_refl
                  ((((n0 * 16 + n1) * 16 + n2) * 16 + n3)%N :: acc)) as [H1 H2].
      split; [exact H1|]. intros s r0 H. apply H2 in H. simpl. lia.
    + destruct (escape_char x); [|split; [discriminate|intros; discriminate]].
      assert (Hlt : length r < n) by (simpl in Hn; lia).
      destruct (IH (length r) Hlt r eq_refl (c0 :: acc)) as [H1 H2].
      split; [exact H1|]. intros s r0 H. apply H2 in H. simpl. lia.
  - destruct (N.ltb c 32); [split; [discriminate|intros; discriminate]|].
    assert (Hlt : length rest < n) by lia.
    destruct (IH (length rest) Hlt rest eq_refl (c :: acc)) as [H1 H2].
    split; [exact H1|]. intros s r0 H. apply H2 in H. lia.
Qed.

Lemma read_dec_length : forall t acc n v k r,
  read_dec acc n t = (v, k, r) -> length r <= length t.
Proof.
  induction t as [|c t IH]; intros acc n v k r H; simpl in H.
  - inversion H; subst. simpl. lia.
  - destruct (is_digit c).
    + apply IH in H. simpl. lia.
    + inversion H; subst. lia.
Qed.

Lemma number_int_length t v r : number_int t = Some (v, r) -> length r < length t.
Proof.
  unfold number_int. destruct t as [|c t]; [discriminate|].
  destruct (N.eqb c 48).
  - intros H. inversion H; subst. simpl. lia.
  - destruct (is_digit c) eqn:Hc; [|discriminate].
    simpl. rewrite Hc.
    destruct (read_dec _ _ t) as [[v' k] r'] eqn:E. intros H. inversion H; subst.
    apply read_dec_length in E. simpl. lia.
Qed.

Lemma number_frac_length iv t m k r :
  number_frac iv t = Some (m, k, r) -> length r <= length t.
Proof.
  unfold number_frac. destruct t as [|c t].
  - intros H. inversion H; subst. lia.
  - destruct (N.eqb c 46).
    + destruct (read_dec iv 0 t) as [[v' k'] r'] eqn:E.
      destruct (k' =? 0)%Z; [discriminate|]. intros H. inversion H; subst.
      apply read_dec_length in E. simpl. lia.
    + intros H. inversion H; subst. lia.
Qed.

Lemma number_exp_length t e r : number_exp t = Some (e, r) -> length r <= length t.
Proof.
  unfold number_exp. destruct t as [|c t].
  - intros H. inversion H; subst. lia.
  - destruct (N.eqb c 101 || N.eqb c 69).
    + set (p := match t with [] => _ | _ => _ end).
      assert (Hp : length (snd p) <= length t).
      { subst p. destruct t as [|s t']; simpl; [lia|].
        destruct (N.eqb s 45); simpl; [lia|]. destruct (N.eqb s 43); simpl; lia. }
      destruct p as [eneg r0]. simpl in Hp.
      destruct (read_dec 0 0 r0) as [[v' k'] r'] eqn:E.
      destruct (k' =? 0)%Z; [discriminate|]. intros H. inversion H; subst.
      apply read_dec_length in E. simpl. lia.
    + intros H. inversion H; subst. lia.
Qed.

Lemma parse_number_ok t :
  parse_number t <> OutOfFuel
  /\ forall v r, parse_number t = Ok v r -> length r < length t.
Proof.
  unfold parse_number.
  set (p := match t with [] => _ | _ => _ end).
  assert (Hp : length (snd p) <= length t).
  { subst p. destruct t as [|c t']; simpl; [lia|]. destruct (N.eqb c 45); simpl; lia. }
  destruct p as [neg t0]. simpl in Hp.
  destruct (number_int t0) as [[iv t1]|] eqn:E1; [|split; [discriminate|intros; discriminate]].
  destruct (number_frac iv t1) as [[[m k] t2]|] eqn:E2;
    [|split; [discriminate|intros; discriminate]].
  destruct (number_exp t2) as [[e t3]|] eqn:E3;
    [|split; [discriminate|intros; discriminate]].
  split; [discriminate|]. intros v r H. inversion H; subst.
  apply number_int_length in E1. apply number_frac_length in E2.
  apply number_exp_length in E3. lia.
Qed.

Lemma expect_length : forall word t r,
  expect word t = Some r -> length r + length word = length t.
Proof.
  induction word as [|a word IH]; intros t r H; simpl in H.
  - inversion H; subst. simpl. lia.
  - destruct t as [|b t]; [discriminate|]. destruct (N.eqb a b); [|discriminate].
    apply IH in H. simpl. lia.
Qed.

Lemma literal_ok word v t : word <> EmptyString ->
  literal word v t <> OutOfFuel
  /\ forall v' r, literal word v t = Ok v' r -> length r < length t.
Proof.
  intros Hw. unfold literal. destruct (expect (of_string word) t) eqn:E.
  - split; [discriminate|]. intros v' r H. inversion H; subst.
    apply expect_length in E. destruct word; [congruence|]. simpl in E. lia.
  - split; [discriminate|intros; discriminate].
Qed.

(** The parser does not run out of fuel when it has two units for each
    character, and what it leaves is shorter than what it was given. *)
Lemma parse_fuel : forall fuel,
  (forall t, 2 * length t < fuel -> fuel_ok (parse_value fuel) t)
  /\ (forall acc t, 2 * length t + 1 < fuel -> fuel_ok (parse_members fuel acc) t)
  /\ (forall acc t, 2 * length t + 1 < fuel -> fuel_ok (parse_elements fuel acc) t).
Proof.
  induction fuel as [|f (IHv & IHm & IHe)].
  { repeat split; intros; lia. }
  split; [|split].
  - intros t Hlen. unfold fuel_ok. simpl.
    destruct t as [|c r]; [syntax_error|]. simpl in Hlen.
    pose proof (skip_ws_length r) as Hws.
    destruct (N.eqb c 123).
    { destruct (starts_with 125%N (skip_ws r)) eqn:Hs.
      - split; [discriminate|]. intros v r' H. inversion H; subst.
        apply starts_with_tl in Hs. simpl. lia.
      - destruct (IHm [] (skip_ws r) ltac:(lia)) as [H1 H2]. split; [exact H1|].
        intros v r' H. apply H2 in H. simpl. lia. }
    destruct (N.eqb c 91).
    { destruct (starts_with 93%N (skip_ws r)) eqn:Hs.
      - split; [discriminate|]. intros v r' H. inversion H; subst.
        apply starts_with_tl in Hs. simpl. lia.
      - destruct (IHe [] (skip_ws r) ltac:(lia)) as [H1 H2]. split; [exact H1|].
        intros v r' H. apply H2 in H. simpl. lia. }
    destruct (N.eqb c 34).
    { destruct (parse_chars_ok r []) as [H1 H2].
      destruct (parse_chars [] r) as [s r'| |] eqn:E; try congruence.
      - split; [discriminate|]. intros v r0 H. inversion H; subst.
        specialize (H2 _ _ eq_refl). simpl. lia.
      - syntax_error. }
    destruct (N.eqb c 116); [apply literal_ok; discriminate|].
    destruct (N.eqb c 102); [apply literal_ok; discriminate|].
    destruct (N.eqb c 110); [apply literal_ok; discriminate|].
    apply parse_number_ok.
  - intros acc t Hlen. unfold fuel_ok. simpl.
    destruct (starts_with 34%N t) eqn:Hq; [|syntax_error].
    apply starts_with_tl in Hq.
    destruct (parse_chars_ok (tl t) []) as [H1 H2].
    destruct (parse_chars [] (tl t)) as [key r1| |] eqn:E; try congruence;
      [|syntax_error].
    specialize (H2 _ _ eq_refl).
    pose proof (skip_ws_length r1) as Hws1.
    destruct (starts_with 58%N (skip_ws r1)) eqn:Hc; [|syntax_error].
    apply starts_with_tl in Hc.
    pose proof (skip_ws_length (tl (skip_ws r1))) as Hws2.
    destruct (IHv (skip_ws (tl (skip_ws r1))) ltac:(lia)) as [H3 H4].
    destruct (parse_value f (skip_ws (tl (skip_ws r1)))) as [v r3| |] eqn:Ev;
      try congruence; [|syntax_error].
    specialize (H4 _ _ eq_refl).
    pose proof (skip_ws_length r3) as Hws3.
    destruct (starts_with 44%N (skip_ws r3)) eqn:Hcomma.
    + apply starts_with_tl in Hcomma.
      pose proof (skip_ws_length (tl (skip_ws r3))) as Hws4.
      destruct (IHm (set_field key v acc) (skip_ws (tl (skip_ws r3))) ltac:(lia))
        as [H5 H6].
      split; [exact H5|]. intros v' r' H. apply H6 in H. lia.
    + destruct (starts_with 125%N (skip_ws r3)) eqn:Hclose; [|syntax_error].
      apply starts_with_tl in Hclose.
      split; [discriminate|]. intros v' r' H. inversion H; subst. lia.
  - intros acc t Hlen. unfold fuel_ok. simpl.
    destruct (IHv t ltac:(lia)) as [H3 H4].
    destruct (parse_value f t) as [v r1| |] eqn:Ev; try congruence; [|syntax_error].
    specialize (H4 _ _ eq_refl).
    pose proof (skip_ws_length r1) as Hws1.
    destruct (starts_with 44%N (skip_ws r1)) eqn:Hcomma.
    + apply starts_with_tl in Hcomma.
      pose proof (skip_ws_length (tl (skip_ws r1))) as Hws2.
      destruct (IHe (v :: acc) (skip_ws (tl (skip_ws r1))) ltac:(lia)) as [H5 H6].
      split; [exact H5|]. intros v' r' H. apply H6 in H. lia.
    + destruct (starts_with 93%N (skip_ws r1)) eqn:Hclose; [|syntax_error].
      apply starts_with_tl in Hclose.
      split; [discriminate|]. intros v' r' H. inversion H; subst. lia.
Qed.

(** [JSON_parse] gives its parser enough fuel: a [None] is a SyntaxError. *)
Lemma parse_value_fuel t :
  parse_value (S (2 * length t)) (skip_ws t) <> OutOfFuel.
Proof.
  apply (proj1 (parse_fuel (S (2 * length t)))).
  pose proof (skip_ws_length t). lia.
Qed.

End JsonFacts.
Import JsonFacts.

(* ----------------------------------------------------------------- *)
(** ** The parse stage *)

Module NormalizerFacts.












Lemma ensure_not_estimated v w :
  ensure_foodItems v = Some w -> forall d, w <> Estimated d.
Proof.
  destruct v; simpl; try discriminate.
  - intros H d. inversion H. discriminate.
  - destruct (get_field foodItemsKey fields) as [x|]; [destruct (truthy x)|];
      intros H d; inversion H; discriminate.
Qed.

Lemma try_parse_not_estimated t w :
  try_parse t = Some w -> forall d, w <> Estimated d.
Proof.
  unfold try_parse. destruct (JSON_parse t); [apply ensure_not_estimated | discriminate].
Qed.

Lemma embedded_parse_not_estimated t w :
  embedded_parse t = Some w -> forall d, w <> Estimated d.
Proof.
  unfold embedded_parse. destruct (str_match false jsonRegex t);
    [apply try_parse_not_estimated | discriminate].
Qed.

(** The parse stage by cases: the first [try], the second, the fallback. *)
Lemma normalize_cases content :
  (exists v, try_parse content = Some v
             /\ normalize content = Some (mkOutcome (Some v) None))
  \/ (exists v, try_parse content = None /\ embedded_parse content = Some v
                /\ normalize content = Some (mkOutcome (Some v) None))
  \/ (exists d, try_parse content = None /\ embedded_parse content = None
                /\ generateEstimatedCarbData content = Some d
                /\ normalize content
                   = Some (mkOutcome (Some (Estimated d)) (Some estimateNote))).
Proof.
  unfold normalize, embedded_parse, estimated.
  destruct (generateEstimatedCarbData_returns content) as (items & _ & Hgen).
  rewrite Hgen.
  destruct (try_parse content) as [v|]; [left; eauto|]. right.
  destruct (str_match false jsonRegex content) as [m|].
  - destruct (try_parse (m_text m)) as [v|]; [left; eauto | right; eauto].
  - right. eauto.
Qed.

Lemma set_field_absent key v : forall fields,
  get_field key fields = None -> set_field key v fields = fields ++ [(key, v)].
Proof.
  induction fields as [|[k w] fs IH]; simpl; [reflexivity|].
  destruct (text_eqb k key); [discriminate|]. intros H. rewrite IH; auto.
Qed.

End NormalizerFacts.
Import NormalizerFacts.

(* ----------------------------------------------------------------- *)
(** ** Rounding and the canvas size *)

Module ImageFacts.
Local Open Scope Z_scope.

Lemma round_ratio_spec n d : 0 <= n -> 0 < d ->
  n / d <= round_ratio n d
  /\ (forall M, n <= M * d -> round_ratio n d <= M)
  /\ 2 * round_ratio n d * d - d <= 2 * n <= 2 * round_ratio n d * d + d.
Proof.
  intros Hn Hd. unfold round_ratio.
  pose proof (Z.div_mod n d ltac:(lia)) as Hdm.
  pose proof (Z.mod_pos_bound n d Hd) as Hr.
  set (q := n / d) in *. set (r := n mod d) in *.
  assert (Hup : forall M, n <= M * d -> 0 < r -> q + 1 <= M).
  { intros M HM Hr0. assert (q < M) by nia. lia. }
  assert (Hup0 : forall M, n <= M * d -> q <= M).
  { intros M HM. assert (q < M + 1) by nia. lia. }
  assert (Hfin : forall m, (m = q \/ (m = q + 1 /\ 0 < r)) ->
            2 * m * d - d <= 2 * n <= 2 * m * d + d ->
            q <= m /\ (forall M, n <= M * d -> m <= M)
            /\ 2 * m * d - d <= 2 * n <= 2 * m * d + d).
  { intros m [->|[-> Hr0]] Hb; (split; [lia|split; [|exact Hb]]); intros M HM.
    - apply Hup0; assumption.
    - apply Hup; assumption. }
  destruct (2 * r <? d) eqn:E1; [apply Z.ltb_lt in E1|apply Z.ltb_ge in E1].
  - apply Hfin; [auto | nia].
  - destruct (d <? 2 * r) eqn:E2; [apply Z.ltb_lt in E2|apply Z.ltb_ge in E2].
    + apply Hfin; [right; split; [reflexivity|lia] | nia].
    + destruct (Z.even q).
      * apply Hfin; [auto | nia].
      * apply Hfin; [right; split; [reflexivity|lia] | nia].
Qed.

Lemma pow2_pos k : 0 < 2 ^ k \/ k < 0.
Proof. destruct (Z.le_gt_cases 0 k); [left; apply Z.pow_pos_nonneg; lia | right; lia]. Qed.

Lemma scale_num_cases n e :
  (0 <= e /\ scale_num n e = n) \/ (e < 0 /\ scale_num n e = n * 2 ^ (- e)).
Proof.
  unfold scale_num. destruct (Z.le_gt_cases 0 e).
  - left. rewrite Z.max_l by lia. simpl. split; [lia|ring].
  - right. rewrite Z.max_r by lia. split; [lia|reflexivity].
Qed.

Lemma scale_den_cases d e :
  (0 <= e /\ scale_den d e = d * 2 ^ e) \/ (e < 0 /\ scale_den d e = d).
Proof.
  unfold scale_den. destruct (Z.le_gt_cases 0 e).
  - left. rewrite Z.max_r by lia. split; [lia|reflexivity].
  - right. rewrite Z.max_l by lia. simpl. split; [lia|ring].
Qed.

(** Comparing [n/d * 2^-e] with a power of two, as a comparison of
    integers *)
Lemma scaled_ge n d e p : 0 < d -> 0 <= p ->
  (2 ^ p * scale_den d e <= scale_num n e
   <-> forall B, 0 <= B -> 0 <= B + e -> 2 ^ p * d * 2 ^ (B + e) <= n * 2 ^ B).
Proof.
  intros Hd Hp.
  destruct (scale_num_cases n e) as [[He ->]|[He ->]];
    destruct (scale_den_cases d e) as [[He' ->]|[He' ->]]; try lia.
  - split.
    + intros H B HB HBe. rewrite (Z.add_comm B e), Z.pow_add_r by lia.
      assert (0 < 2 ^ B) by (apply Z.pow_pos_nonneg; lia). nia.
    + intros H. specialize (H 0 ltac:(lia) ltac:(lia)). simpl in H.
      rewrite Z.mul_1_r in H. lia.
  - split.
    + intros H B HB HBe.
      replace B with ((B + e) + - e) at 2 by lia.
      rewrite (Z.pow_add_r 2 (B + e) (- e)) by lia.
      assert (0 < 2 ^ (B + e)) by (apply Z.pow_pos_nonneg; lia). nia.
    + intros H. specialize (H (- e) ltac:(lia) ltac:(lia)).
      replace (- e + e) with 0 in H by lia. simpl in H. lia.
Qed.

Lemma scaled_lt n d e p : 0 < d -> 0 <= p ->
  (scale_num n e < 2 ^ p * scale_den d e
   <-> forall B, 0 <= B -> 0 <= B + e -> n * 2 ^ B < 2 ^ p * d * 2 ^ (B + e)).
Proof.
  intros Hd Hp.
  destruct (scale_num_cases n e) as [[He ->]|[He ->]];
    destruct (scale_den_cases d e) as [[He' ->]|[He' ->]]; try lia.
  - split.
    + intros H B HB HBe. rewrite (Z.add_comm B e), Z.pow_add_r by lia.
      assert (0 < 2 ^ B) by (apply Z.pow_pos_nonneg; lia). nia.
    + intros H. specialize (H 0 ltac:(lia) ltac:(lia)). simpl in H.
      rewrite Z.mul_1_r in H. lia.
  - split.
    + intros H B HB HBe.
      replace B with ((B + e) + - e) at 1 by lia.
      rewrite (Z.pow_add_r 2 (B + e) (- e)) by lia.
      assert (0 < 2 ^ (B + e)) by (apply Z.pow_pos_nonneg; lia). nia.
    + intros H. specialize (H (- e) ltac:(lia) ltac:(lia)).
      replace (- e + e) with 0 in H by lia. simpl in H. lia.
Qed.

(** The exponent normalizes the significand to 53 bits. *)
Lemma exponent_spec n d : 0 < n -> 0 < d ->
  2 ^ 52 * scale_den d (exponent n d) <= scale_num n (exponent n d)
  /\ scale_num n (exponent n d) < 2 ^ 53 * scale_den d (exponent n d).
Proof.
  intros Hn Hd. unfold exponent.
  destruct (Z.log2_spec n Hn) as [Ha1 Ha2]. destruct (Z.log2_spec d Hd) as [Hb1 Hb2].
  pose proof (Z.log2_nonneg n) as Ha0. pose proof (Z.log2_nonneg d) as Hb0.
  set (a := Z.log2 n) in *. set (b := Z.log2 d) in *.
  set (e0 := a - b - 53).
  assert (Hlow0 : 2 ^ 52 * scale_den d e0 <= scale_num n e0).
  { apply scaled_ge; try lia. intros B HB HBe.
    (* 2^52 d 2^(B+e0) < 2^52 2^(b+1) 2^(B+e0) = 2^(a+B) <= n 2^B *)
    assert (H1 : 2 ^ 52 * 2 ^ Z.succ b * 2 ^ (B + e0) = 2 ^ a * 2 ^ B).
    { rewrite <- !Z.pow_add_r by lia. f_equal. subst e0. lia. }
    assert (0 < 2 ^ (B + e0)) by (apply Z.pow_pos_nonneg; lia).
    assert (0 <= 2 ^ B) by (apply Z.pow_nonneg; lia).
    nia. }
  assert (Hup1 : scale_num n (e0 + 1) < 2 ^ 53 * scale_den d (e0 + 1)).
  { apply scaled_lt; try lia. intros B HB HBe.
    assert (H1 : 2 ^ 53 * 2 ^ b * 2 ^ (B + (e0 + 1)) = 2 ^ Z.succ a * 2 ^ B).
    { rewrite <- !Z.pow_add_r by lia. f_equal. subst e0. lia. }
    assert (0 < 2 ^ (B + (e0 + 1))) by (apply Z.pow_pos_nonneg; lia).
    assert (0 < 2 ^ B) by (apply Z.pow_pos_nonneg; lia).
    nia. }
  destruct (scale_num n e0 <? 2 ^ 53 * scale_den d e0) eqn:E.
  - apply Z.ltb_lt in E. split; assumption.
  - apply Z.ltb_ge in E. split; [|assumption].
    apply scaled_ge; try lia. intros B HB HBe.
    (* from E at shift B+1... *)
    assert (E' : forall B', 0 <= B' -> 0 <= B' + e0 ->
                 2 ^ 53 * d * 2 ^ (B' + e0) <= n * 2 ^ B')
      by (apply scaled_ge; [lia|lia|exact E]).
    destruct (Z.le_gt_cases 0 (B + e0)) as [Hc|Hc].
    + specialize (E' B HB Hc).
      replace (B + (e0 + 1)) with (Z.succ (B + e0)) by lia.
      rewrite Z.pow_succ_r by lia.
      change (2 ^ 53) with (2 * 2 ^ 52) in E'. nia.
    + assert (B + (e0 + 1) = 0) as -> by lia. rewrite Z.pow_0_r, Z.mul_1_r.
      specialize (E' (B + 1) ltac:(lia) ltac:(lia)).
      replace (B + 1 + e0) with 0 in E' by lia.
      rewrite Z.pow_0_r, Z.mul_1_r, Z.pow_add_r in E' by lia.
      change (2 ^ 1) with 2 in E'.
      change (2 ^ 53) with (2 * 2 ^ 52) in E'. lia.
Qed.


Lemma Zpos_to_pos_pow2 k : 0 <= k -> Z.pos (Z.to_pos (2 ^ k)) = 2 ^ k.
Proof. intros Hk. apply Z2Pos.id. apply Z.pow_pos_nonneg; lia. Qed.

(** The rounding of a positive [n/d] below [2^52], as a fraction: the
    exponent is negative and the value is [m / 2^k]. *)
Lemma round53_small n d : 0 < n -> n < 2 ^ 52 * Z.pos d ->
  exists k m,
    0 < k
    /\ m = round_ratio (n * 2 ^ k) (Z.pos d)
    /\ 2 ^ 52 * Z.pos d <= n * 2 ^ k
    /\ round53 (n # d) = Qred (inject_Z m * (1 # Z.to_pos (2 ^ k)))%Q.
Proof.
  intros Hn Hlt. pose proof (exponent_spec Hn (Pos2Z.is_pos d)) as [Hlo _].
  set (e := exponent n (Z.pos d)) in *.
  destruct (scale_den_cases (Z.pos d) e) as [[He Hd]|[He Hd]].
  - exfalso. destruct (scale_num_cases n e) as [[_ Hs]|[? _]]; [|lia].
    rewrite Hd, Hs in Hlo. assert (0 < 2 ^ e) by (apply Z.pow_pos_nonneg; lia). nia.
  - destruct (scale_num_cases n e) as [[? _]|[_ Hs]]; [lia|].
    exists (- e), (round_ratio (n * 2 ^ (- e)) (Z.pos d)).
    rewrite Hd, Hs in Hlo. repeat split; try lia.
    unfold round53. simpl Qnum. simpl Qden.
    rewrite (Z.abs_eq n) by lia.
    assert ((n =? 0) = false) as -> by lia.
    assert ((n <? 0) = false) as -> by lia.
    fold e. rewrite Hd, Hs. unfold pow2.
    assert ((0 <=? e) = false) as -> by lia. reflexivity.
Qed.

(** Rounding does not cross an integer: what is below [x] stays below its
    rounding, what is above stays above. *)
Lemma round53_sandwich (x : Q) (K : Z) :
  (0 <= x)%Q -> (x < inject_Z (2 ^ 52))%Q ->
  ((inject_Z K <= x)%Q -> (inject_Z K <= round53 x)%Q)
  /\ ((x <= inject_Z K)%Q -> (round53 x <= inject_Z K)%Q).
Proof.
  destruct x as [n d]. intros Hn Hlt. unfold Qle, Qlt in Hn, Hlt.
  simpl in Hn, Hlt. rewrite Z.mul_1_r in Hn.
  destruct (Z.eq_dec n 0) as [->|Hne].
  { unfold round53. simpl. unfold Qle. simpl. lia. }
  destruct (@round53_small n d ltac:(lia) ltac:(lia)) as (k & m & Hk & Hm & Hlo & ->).
  pose proof (@round_ratio_spec (n * 2 ^ k) (Z.pos d)
                ltac:(assert (0 < 2 ^ k) by (apply Z.pow_pos_nonneg; lia); nia)
                ltac:(lia)) as (Hfloor & Hceil & _).
  rewrite <- Hm in *.
  assert (H2k : 0 < 2 ^ k) by (apply Z.pow_pos_nonneg; lia).
  split; intros HK; unfold Qle in HK; simpl in HK;
    rewrite Qred_correct; unfold Qle; simpl;
    rewrite Zpos_to_pos_pow2 by lia.
  - assert (K * 2 ^ k <= (n * 2 ^ k) / Z.pos d).
    { apply Z.div_le_lower_bound; [lia|]. nia. }
    lia.
  - assert (m <= K * 2 ^ k) by (apply Hceil; nia). lia.
Qed.

(** The relative error of a rounding is at most [2^-53]. *)
Lemma round53_error (x : Q) :
  (0 < x)%Q -> (x < inject_Z (2 ^ 52))%Q ->
  (inject_Z (2 ^ 53 - 1) * x <= inject_Z (2 ^ 53) * round53 x)%Q
  /\ (inject_Z (2 ^ 53) * round53 x <= inject_Z (2 ^ 53 + 1) * x)%Q.
Proof.
  remember (2 ^ 53) as P53 eqn:HP53. remember (2 ^ 52) as P52 eqn:HP52.
  assert (HP : P53 = 2 * P52) by (subst; reflexivity).
  assert (HP0 : 0 < P52) by (subst; reflexivity).
  destruct x as [n d]. intros Hn Hlt. unfold Qle, Qlt in Hn, Hlt.
  simpl in Hn, Hlt. rewrite Z.mul_1_r in Hn.
  destruct (@round53_small n d ltac:(lia) ltac:(rewrite <- HP52; lia))
    as (k & m & Hk & Hm & Hlo & ->).
  pose proof (@round_ratio_spec (n * 2 ^ k) (Z.pos d)
                ltac:(assert (0 < 2 ^ k) by (apply Z.pow_pos_nonneg; lia); nia)
                ltac:(lia)) as (_ & _ & Herr).
  rewrite <- Hm in *. rewrite <- HP52 in Hlo. clear HP52 HP53 Hm Hlt.
  assert (H2k : 0 < 2 ^ k) by (apply Z.pow_pos_nonneg; lia).
  split; rewrite Qred_correct; unfold Qle; simpl;
    rewrite Zpos_to_pos_pow2 by lia.
  - nia.
  - nia.
Qed.

Local Open Scope Q_scope.

Lemma fgt_true x y : fgt x y = true -> y < x.
Proof.
  unfold fgt. intros H. apply negb_true_iff in H.
  apply Qnot_le_lt. intros Hle. apply Qle_bool_iff in Hle. congruence.
Qed.

Lemma fgt_false x y : fgt x y = false -> x <= y.
Proof.
  unfold fgt. intros H. apply negb_false_iff in H. apply Qle_bool_iff. exact H.
Qed.

Lemma fdiv_sandwich (num den : Q) (K : Z) :
  0 <= num -> 0 < den -> num < inject_Z (2 ^ 52) * den ->
  (inject_Z K * den <= num -> inject_Z K <= fdiv num den)
  /\ (num <= inject_Z K * den -> fdiv num den <= inject_Z K).
Proof.
  intros Hn Hd Hlt. unfold fdiv.
  assert (H0 : 0 <= num / den).
  { apply Qle_shift_div_l; [exact Hd|]. rewrite Qmult_0_l. exact Hn. }
  assert (H1 : num / den < inject_Z (2 ^ 52)).
  { apply Qlt_shift_div_r; assumption. }
  destruct (round53_sandwich K H0 H1) as [Hlo Hhi]. split; intros H.
  - apply Hlo. apply Qle_shift_div_l; assumption.
  - apply Hhi. apply Qle_shift_div_r; assumption.
Qed.

Lemma fdiv_error (num den : Q) :
  0 < num -> 0 < den -> num < inject_Z (2 ^ 52) * den ->
  inject_Z (2 ^ 53 - 1) * num <= inject_Z (2 ^ 53) * fdiv num den * den
  /\ inject_Z (2 ^ 53) * fdiv num den * den <= inject_Z (2 ^ 53 + 1) * num.
Proof.
  intros Hn Hd Hlt. unfold fdiv.
  assert (H0 : 0 < num / den).
  { apply Qlt_shift_div_l; [exact Hd|]. rewrite Qmult_0_l. exact Hn. }
  assert (H1 : num / den < inject_Z (2 ^ 52)).
  { apply Qlt_shift_div_r; assumption. }
  destruct (round53_error H0 H1) as [Hlo Hhi].
  assert (Hden : ~ den == 0) by (intros E; rewrite E in Hd; discriminate).
  assert (Heq : forall c, c * num == c * (num / den) * den) by (intros c; field; exact Hden).
  split.
  - rewrite (Heq (inject_Z (2 ^ 53 - 1))).
    apply Qmult_le_compat_r; [exact Hlo | apply Qlt_le_weak, Hd].
  - rewrite (Heq (inject_Z (2 ^ 53 + 1))).
    apply Qmult_le_compat_r; [exact Hhi | apply Qlt_le_weak, Hd].
Qed.

Lemma fmul_exact (a b : Z) : (0 <= a)%Z -> (0 <= b)%Z -> (a * b < 2 ^ 52)%Z ->
  fmul (inject_Z a) (inject_Z b) == inject_Z (a * b).
Proof.
  intros Ha Hb Hlt. unfold fmul.
  assert (Hx : inject_Z a * inject_Z b == inject_Z (a * b))
    by (rewrite inject_Z_mult; reflexivity).
  assert (H0 : 0 <= inject_Z a * inject_Z b).
  { rewrite Hx. change 0 with (inject_Z 0). rewrite <- Zle_Qle. nia. }
  assert (H1 : inject_Z a * inject_Z b < inject_Z (2 ^ 52)).
  { rewrite Hx. rewrite <- Zlt_Qlt. exact Hlt. }
  destruct (round53_sandwich (a * b) H0 H1) as [Hlo Hhi].
  apply Qle_antisym; [apply Hhi | apply Hlo]; rewrite Hx; apply Qle_refl.
Qed.

(** The conversion to unsigned long of a number in range is its floor. *)
Lemma to_unsigned_long_floor (x : Q) (lo hi : Z) :
  (0 <= lo)%Z -> (hi < 2 ^ 32)%Z -> inject_Z lo <= x -> x <= inject_Z hi ->
  (lo <= to_unsigned_long x <= hi)%Z /\ to_unsigned_long x = Qfloor x.
Proof.
  intros Hlo Hhi H1 H2. unfold to_unsigned_long.
  assert (Hf1 : (lo <= Qfloor x)%Z).
  { rewrite <- (Qfloor_Z lo). apply Qfloor_resp_le. exact H1. }
  assert (Hf2 : (Qfloor x <= hi)%Z).
  { rewrite <- (Qfloor_Z hi). apply Qfloor_resp_le. exact H2. }
  assert (Hq : Z.quot (Qnum x) (Z.pos (Qden x)) = Qfloor x).
  { destruct x as [n d]. simpl.
    assert (0 <= n)%Z.
    { assert (H : 0 <= n # d) by (eapply Qle_trans; [|exact H1];
        change 0 with (inject_Z 0); rewrite <- Zle_Qle; exact Hlo).
      unfold Qle in H. simpl in H. lia. }
    apply Z.quot_div_nonneg; lia. }
  rewrite Hq. rewrite Z.mod_small by lia. split; [lia|reflexivity].
Qed.

Local Close Scope Q_scope.

Lemma to_unsigned_long_Z (k : Z) : 0 <= k < 2 ^ 32 -> to_unsigned_long (inject_Z k) = k.
Proof.
  intros Hk. unfold to_unsigned_long. simpl. rewrite Z.quot_1_r.
  apply Z.mod_small. lia.
Qed.

Lemma inject_Z_mul_le (a b c : Z) : a * b <= c -> (inject_Z a * inject_Z b <= inject_Z c)%Q.
Proof. intros H. rewrite <- inject_Z_mult, <- Zle_Qle. exact H. Qed.

Lemma inject_Z_le_mul (a b c : Z) : c <= a * b -> (inject_Z c <= inject_Z a * inject_Z b)%Q.
Proof. intros H. rewrite <- inject_Z_mult, <- Zle_Qle. exact H. Qed.

(** One scaling step: [other * 1200 / side] for a side above 1200, as the
    language computes it, lies within the integers around the exact
    quotient. *)
Lemma scale_step (side other : Z) :
  1200 < side < 2 ^ 32 -> 0 <= other < 2 ^ 32 ->
  let r := fdiv (fmul (inject_Z other) (inject_Z 1200)) (inject_Z side) in
  let k := other * 1200 / side in
  (inject_Z k <= r)%Q /\ (r <= inject_Z (k + 1))%Q /\ (r <= inject_Z other)%Q
  /\ k * side <= other * 1200 < (k + 1) * side
  /\ (other * 1200 <= 1200 * side -> (r <= inject_Z 1200)%Q)
  /\ (0 < other ->
      (inject_Z (2 ^ 53 - 1) * inject_Z (other * 1200)
         <= inject_Z (2 ^ 53) * r * inject_Z side)%Q
      /\ (inject_Z (2 ^ 53) * r * inject_Z side
         <= inject_Z (2 ^ 53 + 1) * inject_Z (other * 1200))%Q).
Proof.
  intros Hs Ho r k.
  assert (Hm : (fmul (inject_Z other) (inject_Z 1200) == inject_Z (other * 1200))%Q)
    by (apply fmul_exact; lia).
  assert (H0 : (0 <= fmul (inject_Z other) (inject_Z 1200))%Q).
  { rewrite Hm. change 0%Q with (inject_Z 0). rewrite <- Zle_Qle. lia. }
  assert (Hd : (0 < inject_Z side)%Q).
  { change 0%Q with (inject_Z 0). rewrite <- Zlt_Qlt. lia. }
  assert (Hlt : (fmul (inject_Z other) (inject_Z 1200) < inject_Z (2 ^ 52) * inject_Z side)%Q).
  { rewrite Hm, <- inject_Z_mult, <- Zlt_Qlt. lia. }
  assert (Hk : k * side <= other * 1200 < (k + 1) * side).
  { subst k. pose proof (Z.div_mod (other * 1200) side ltac:(lia)).
    pose proof (Z.mod_pos_bound (other * 1200) side ltac:(lia)). nia. }
  assert (Hsw : forall K,
    (K * side <= other * 1200 -> (inject_Z K <= r)%Q)
    /\ (other * 1200 <= K * side -> (r <= inject_Z K)%Q)).
  { intros K. destruct (fdiv_sandwich K H0 Hd Hlt) as [H1 H2]. split; intros H.
    - apply H1. rewrite Hm. apply inject_Z_mul_le. exact H.
    - apply H2. rewrite Hm. apply inject_Z_le_mul. exact H. }
  repeat split; try lia.
  - apply Hsw. lia.
  - apply Hsw. lia.
  - apply Hsw. nia.
  - intros H. apply Hsw. lia.
  - assert (Hpos : (0 < fmul (inject_Z other) (inject_Z 1200))%Q).
    { rewrite Hm. change 0%Q with (inject_Z 0). rewrite <- Zlt_Qlt. lia. }
    destruct (fdiv_error Hpos Hd Hlt) as [He _]. rewrite <- Hm. exact He.
  - assert (Hpos : (0 < fmul (inject_Z other) (inject_Z 1200))%Q).
    { rewrite Hm. change 0%Q with (inject_Z 0). rewrite <- Zlt_Qlt. lia. }
    destruct (fdiv_error Hpos Hd Hlt) as [_ He]. rewrite <- Hm. exact He.
Qed.


Local Open Scope Q_scope.

Lemma bound_upper (P qw qh qk h1 : Q) :
  1200 * qw + 1 <= P -> 1201 <= qw -> 0 < qh -> 0 <= qk -> 1200 < h1 ->
  (P - 1) * (qh * 1200) <= P * h1 * qw ->
  1200 * qw + 1 <= (qk + 1) * qh ->
  1440000 <= (qk + 1) * h1.
Proof.
  intros HP Hw Hh Hk Hh1 A1 B1.
  assert (S1 : (P - 1) * 1200 * (1200 * qw + 1) <= (P - 1) * 1200 * ((qk + 1) * qh)) by nra.
  assert (S2 : (P - 1) * (qh * 1200) * (qk + 1) <= P * h1 * qw * (qk + 1)) by nra.
  apply Qnot_lt_le. intros Hc.
  assert (Hu : 0 < P * qw) by nra.
  assert (F3 : (P * qw) * ((qk + 1) * h1) < (P * qw) * 1440000) by nra.
  nra.
Qed.

Lemma bound_lower (P qw qh qk h1 : Q) :
  1200 * qw <= P + 1 -> 1201 <= qw -> 0 < qh -> 0 <= qk -> 1200 < h1 ->
  P * h1 * qw <= (P + 1) * (qh * 1200) ->
  qk * qh + 1 <= 1200 * qw ->
  qk * h1 <= 1440000.
Proof.
  intros HP Hw Hh Hk Hh1 A2 B2.
  assert (S1 : (P + 1) * 1200 * (qk * qh) <= (P + 1) * 1200 * (1200 * qw - 1)) by nra.
  assert (S2 : P * h1 * qw * qk <= (P + 1) * (qh * 1200) * qk) by nra.
  apply Qnot_lt_le. intros Hc.
  assert (Hu : 0 < P * qw) by nra.
  assert (F3 : (P * qw) * 1440000 < (P * qw) * (qk * h1)) by nra.
  nra.
Qed.

Lemma bound_lower_exact (P qw qh qk h1 : Q) :
  1200 <= P -> 1201 <= qw -> qw < qh -> 1 <= qk -> 1200 < h1 ->
  P * h1 * qw <= (P + 1) * (qh * 1200) ->
  qk * qh == 1200 * qw ->
  (qk - 1) * h1 <= 1440000.
Proof.
  intros HP Hw Hh Hk Hh1 A2 B2.
  assert (S2 : P * h1 * qw * (qk - 1) <= (P + 1) * (qh * 1200) * (qk - 1)) by nra.
  apply Qnot_lt_le. intros Hc.
  assert (Hu : 0 < P * qw) by nra.
  assert (F3 : (P * qw) * 1440000 < (P * qw) * ((qk - 1) * h1)) by nra.
  nra.
Qed.

Lemma inject_Z_num (z : Z) : inject_Z z == z # 1.
Proof. reflexivity. Qed.

(** The second scaling step, on a height that the first one has rounded:
    the width it computes is within one of [1200 * w / h]. *)
Lemma second_step (w h : Z) (h1 : Q) :
  (1200 < w < 2 ^ 32)%Z -> (w < h < 2 ^ 32)%Z -> inject_Z 1200 < h1 ->
  inject_Z (2 ^ 53 - 1) * inject_Z (h * 1200) <= inject_Z (2 ^ 53) * h1 * inject_Z w ->
  inject_Z (2 ^ 53) * h1 * inject_Z w <= inject_Z (2 ^ 53 + 1) * inject_Z (h * 1200) ->
  let r := fdiv (fmul maxWidth maxHeight) h1 in
  let k := (1200 * w / h)%Z in
  inject_Z 0 <= r /\ r <= inject_Z 1200 /\ r <= inject_Z (k + 1)
  /\ ((k * h < 1200 * w)%Z -> inject_Z k <= r)
  /\ ((k * h = 1200 * w)%Z -> inject_Z (k - 1) <= r)
  /\ (k * h <= 1200 * w < (k + 1) * h)%Z.
Proof.
  intros Hw Hh Hh1 A1 A2 r k.
  assert (Hm : fmul maxWidth maxHeight == inject_Z 1440000)
    by (apply (@fmul_exact 1200 1200); lia).
  assert (Hk : (k * h <= 1200 * w < (k + 1) * h)%Z).
  { subst k. pose proof (Z.div_mod (1200 * w) h ltac:(lia)).
    pose proof (Z.mod_pos_bound (1200 * w) h ltac:(lia)). nia. }
  assert (Hk0 : (0 <= k)%Z) by (subst k; apply Z.div_pos; lia).
  assert (H0 : 0 <= fmul maxWidth maxHeight) by (rewrite Hm; discriminate).
  assert (Hd : 0 < h1) by (eapply Qlt_trans; [|exact Hh1]; reflexivity).
  assert (Hlt : fmul maxWidth maxHeight < inject_Z (2 ^ 52) * h1).
  { rewrite Hm. apply Qlt_le_trans with (inject_Z (2 ^ 52) * inject_Z 1200).
    - reflexivity.
    - apply Qmult_le_l; [reflexivity | apply Qlt_le_weak, Hh1]. }
  assert (Hsw : forall K,
    (inject_Z K * h1 <= inject_Z 1440000 -> inject_Z K <= r)
    /\ (inject_Z 1440000 <= inject_Z K * h1 -> r <= inject_Z K)).
  { intros K. destruct (fdiv_sandwich K H0 Hd Hlt) as [H1 H2]. split; intros H.
    - apply H1. rewrite Hm. exact H.
    - apply H2. rewrite Hm. exact H. }
  (* the facts, with the integers as rationals *)
  set (P := inject_Z (2 ^ 53)) in *.
  assert (HPm : inject_Z (2 ^ 53 - 1) == P - 1) by reflexivity.
  assert (HPp : inject_Z (2 ^ 53 + 1) == P + 1) by reflexivity.
  rewrite HPm, inject_Z_mult in A1. rewrite HPp, inject_Z_mult in A2.
  assert (HP : inject_Z (1200 * 2 ^ 32 + 1) <= P) by (unfold P; rewrite <- Zle_Qle; lia).
  assert (Hqw1 : inject_Z 1201 <= inject_Z w) by (rewrite <- Zle_Qle; lia).
  assert (Hqw2 : inject_Z w <= inject_Z (2 ^ 32)) by (rewrite <- Zle_Qle; lia).
  assert (Hqh : inject_Z w < inject_Z h) by (rewrite <- Zlt_Qlt; lia).
  assert (Hqk : inject_Z 0 <= inject_Z k) by (rewrite <- Zle_Qle; lia).
  assert (B1 : inject_Z 1200 * inject_Z w + inject_Z 1 <= (inject_Z k + inject_Z 1) * inject_Z h).
  { rewrite <- inject_Z_mult, <- !inject_Z_plus, <- inject_Z_mult, <- Zle_Qle. lia. }
  assert (B0 : inject_Z k * inject_Z h <= inject_Z 1200 * inject_Z w).
  { rewrite <- !inject_Z_mult, <- Zle_Qle. lia. }
  assert (B2 : (k * h < 1200 * w)%Z ->
               inject_Z k * inject_Z h + inject_Z 1 <= inject_Z 1200 * inject_Z w).
  { intros H. rewrite <- !inject_Z_mult, <- inject_Z_plus, <- Zle_Qle. lia. }
  assert (B3 : (k * h = 1200 * w)%Z ->
               inject_Z k * inject_Z h == inject_Z 1200 * inject_Z w
               /\ inject_Z 1 <= inject_Z k).
  { intros H. split.
    - rewrite <- !inject_Z_mult. rewrite H. reflexivity.
    - rewrite <- Zle_Qle. nia. }
  rewrite (inject_Z_num 1200) in *. rewrite (inject_Z_num 1201) in *.
  rewrite (inject_Z_num 1) in *. rewrite (inject_Z_num 0) in *.
  rewrite (inject_Z_num 1440000) in *.
  change (inject_Z (2 ^ 32)) with (4294967296 # 1) in *.
  change (inject_Z (1200 * 2 ^ 32 + 1)) with (5153960755201 # 1) in *.
  generalize dependent (inject_Z w). generalize dependent (inject_Z h).
  intros qh qw A1 A2 Hqw1 Hqw2 Hqh B1 B0 B2 B3.
  clearbody P.
  assert (Hsw' : forall K,
    (inject_Z K * h1 <= 1440000 -> inject_Z K <= r)
    /\ (1440000 <= inject_Z K * h1 -> r <= inject_Z K)).
  { intros K. destruct (Hsw K) as [H1 H2]. rewrite (inject_Z_num 1440000) in H1, H2.
    split; assumption. }
  clear Hsw. repeat split.
  - apply (proj1 (Hsw' 0%Z)). rewrite (inject_Z_num 0). nra.
  - apply (proj2 (Hsw' 1200%Z)). rewrite (inject_Z_num 1200). nra.
  - apply (proj2 (Hsw' (k + 1)%Z)). rewrite inject_Z_plus, (inject_Z_num 1).
    apply (@bound_upper P qw qh (inject_Z k) h1); try nra.
  - intros Hlt'. apply (proj1 (Hsw' k)). specialize (B2 Hlt').
    apply (@bound_lower P qw qh (inject_Z k) h1); try nra.
  - intros Heq. apply (proj1 (Hsw' (k - 1)%Z)). destruct (B3 Heq) as [B4 B5].
    unfold Z.sub. rewrite inject_Z_plus. change (inject_Z (- (1))) with (- (1)).
    apply (@bound_lower_exact P qw qh (inject_Z k) h1); try nra.
  - lia.
  - lia.
Qed.

Local Close Scope Q_scope.

Lemma floor_between (x : Q) (lo hi : Z) :
  0 <= lo -> hi < 2 ^ 32 -> (inject_Z lo <= x)%Q -> (x <= inject_Z hi)%Q ->
  lo <= to_unsigned_long x <= hi.
Proof. intros. apply to_unsigned_long_floor; assumption. Qed.

(** [round53] against the binary64 operations of the Standard Library, on
    both scaling steps of the sample sizes *)
Lemma round53_agrees_on_samples : forallb same_steps sample_sizes = true.
Proof. vm_compute. reflexivity. Qed.

End ImageFacts.
Import ImageFacts.

(* ----------------------------------------------------------------- *)
(** ** The handlers *)

Module AppFacts.
Import App.

(** With an empty key the upload button only opens the key dialog. *)
Lemma handleGalleryClick_guard s :
  apiKey s = [] ->
  handleGalleryClick s = (set_showApiKeyModal true s, []).
Proof. unfold handleGalleryClick. intros ->. reflexivity. Qed.

(** With an empty key the capture button only opens the key dialog. *)
Lemma capturePhoto_guard shot s :
  apiKey s = [] ->
  capturePhoto shot s = (set_showApiKeyModal true s, []).
Proof. unfold capturePhoto. intros ->. reflexivity. Qed.

(** [retryAnalysis] has no such guard. *)
Lemma retryAnalysis_unguarded s img :
  capturedImage s = Some img -> img <> [] ->
  snd (retryAnalysis s) = [Fetch (apiKey s) img].
Proof.
  unfold retryAnalysis. intros -> Himg. destruct img; [congruence|]. reflexivity.
Qed.

End AppFacts.
Import AppFacts.

(* ================================================================= *)
(** * The claims of the specification *)

(** C1, as stated, fails.  The parse paths hand over whatever object or
    array the text denotes: "{}" gives an object with nothing but the
    backfilled foodItems, and "[1, 2]" an array; neither has a totalCarbs or
    a breakdown. *)
Lemma normalize_returns_other_values :
  normalize emptyObject
  = Some (mkOutcome (Some (ParsedObject [(foodItemsKey, JArray [])])) None)
  /\ is_nutrition_record (ParsedObject [(foodItemsKey, JArray [])]) = false
  /\ normalize numberArray
     = Some (mkOutcome
               (Some (ParsedArray [JNumber (mkDecimal false 1 0);
                                   JNumber (mkDecimal false 2 0)] (JArray [])))
               None)
  /\ is_nutrition_record
       (ParsedArray [JNumber (mkDecimal false 1 0); JNumber (mkDecimal false 2 0)]
          (JArray [])) = false.
Proof. repeat split; vm_compute; reflexivity. Qed.

(** C1, amended.  For every response text the parse stage hands over a
    value, by the first of three attempts that succeeds: the direct parse
    of the text; else the parse of the embedded object; else the heuristic
    fallback.  After either parse the error stays empty; the note "Could
    not get precise values. Showing estimates." is set if and only if the
    value is the fallback's record.  Only the fallback's value is a
    NutritionRecord by construction. *)
Theorem normalize_ordered_attempts (content : text) :
  exists v err,
    normalize content = Some (mkOutcome (Some v) err)
    /\ ((try_parse content = Some v /\ err = None)
        \/ (try_parse content = None /\ embedded_parse content = Some v
            /\ err = None)
        \/ (try_parse content = None /\ embedded_parse content = None
            /\ (exists d, generateEstimatedCarbData content = Some d
                          /\ v = Estimated d)
            /\ err = Some estimateNote))
    /\ (err = Some estimateNote <-> exists d, v = Estimated d)
    /\ (err = None \/ err = Some estimateNote)
    /\ ((exists d, v = Estimated d) -> is_nutrition_record v = true).
Proof.
  destruct (normalize_cases content)
    as [(v & Ht & Hn)|[(v & Ht & He & Hn)|(d & Ht & He & Hg & Hn)]].
  - exists v, None. split; [exact Hn|]. split; [auto|]. split; [|split; [auto|]].
    + split; [discriminate|].
      intros (d & ->). exfalso. exact (try_parse_not_estimated _ Ht eq_refl).
    + intros (d & ->). reflexivity.
  - exists v, None. split; [exact Hn|]. split; [auto|]. split; [|split; [auto|]].
    + split; [discriminate|].
      intros (d & ->). exfalso. exact (embedded_parse_not_estimated _ He eq_refl).
    + intros (d & ->). reflexivity.
  - exists (Estimated d), (Some estimateNote). split; [exact Hn|].
    split; [right; right; eauto 10|]. split; [|split; [auto|reflexivity]].
    split; eauto.
Qed.

(** C2, as stated, fails.  In "5g fiber, 10g sugar" no total-carb phrase
    matches and the fiber and sugar patterns do: the total is 30, not the
    15 of the found components, and starch is 15, not 0.  In
    "fiber: 5g, sugar: 10g" the patterns, which want the number before the
    word, match nothing, and the record is the default one. *)
Lemma fallback_total_counts_defaults :
  (str_match true carbRegex fiberAndSugar = None
   /\ option_map (cap 1) (str_match true fiberRegex fiberAndSugar)
      = Some (of_string "5")
   /\ option_map (cap 1) (str_match true sugarRegex fiberAndSugar)
      = Some (of_string "10")
   /\ str_match true starchRegex fiberAndSugar = None
   /\ exists d,
        generateEstimatedCarbData fiberAndSugar = Some d
        /\ totalCarbs d = Int 30 /\ totalCarbs d <> Int 15
        /\ starch (breakdown d) = Int 15 /\ starch (breakdown d) <> Int 0)
  /\ (str_match true carbRegex labelledFiberAndSugar = None
      /\ str_match true fiberRegex labelledFiberAndSugar = None
      /\ str_match true sugarRegex labelledFiberAndSugar = None
      /\ exists d,
           generateEstimatedCarbData labelledFiberAndSugar = Some d
           /\ totalCarbs d = Int 30 /\ totalCarbs d <> Int 15
           /\ starch (breakdown d) = Int 15 /\ starch (breakdown d) <> Int 0).
Proof.
  split.
  - do 4 (split; [vm_compute; reflexivity|]).
    eexists. split; [vm_compute; reflexivity|]. repeat split; discriminate.
  - do 3 (split; [vm_compute; reflexivity|]).
    eexists. split; [vm_compute; reflexivity|]. repeat split; discriminate.
Qed.

(** C2, amended.  For text in which no total-carb phrase matches and at
    least one of the fiber, sugar and starch patterns does, the fallback
    sets totalCarbs to the sum of the three components of its breakdown,
    where a component that was found is the number parsed and one that was
    not keeps its default (fiber 5, sugar 10, starch 15). *)
Theorem fallback_total_is_breakdown_sum (t : text) :
  str_match true carbRegex t = None ->
  is_some (str_match true fiberRegex t) || is_some (str_match true sugarRegex t)
    || is_some (str_match true starchRegex t) = true ->
  exists d,
    generateEstimatedCarbData t = Some d
    /\ fiber (breakdown d) = update (str_match true fiberRegex t) (Int 5)
    /\ sugar (breakdown d) = update (str_match true sugarRegex t) (Int 10)
    /\ starch (breakdown d) = update (str_match true starchRegex t) (Int 15)
    /\ totalCarbs d
       = add (add (fiber (breakdown d)) (sugar (breakdown d))) (starch (breakdown d)).
Proof.
  intros Hc Hany.
  destruct (generateEstimatedCarbData_returns t) as (items & _ & Hgen).
  exists (assemble t items). split; [exact Hgen|].
  unfold assemble. simpl. rewrite Hc, Hany. simpl. auto.
Qed.

(** C2, amended, at "5g fiber, 10g sugar": fiber 5, sugar 10, starch 15 and
    a total of 30. *)
Lemma fallback_total_is_breakdown_sum_witness :
  str_match true carbRegex fiberAndSugar = None
  /\ is_some (str_match true fiberRegex fiberAndSugar)
     || is_some (str_match true sugarRegex fiberAndSugar)
     || is_some (str_match true starchRegex fiberAndSugar) = true
  /\ exists d,
    generateEstimatedCarbData fiberAndSugar = Some d
    /\ fiber (breakdown d) = update (str_match true fiberRegex fiberAndSugar) (Int 5)
    /\ sugar (breakdown d) = update (str_match true sugarRegex fiberAndSugar) (Int 10)
    /\ starch (breakdown d) = update (str_match true starchRegex fiberAndSugar) (Int 15)
    /\ totalCarbs d
       = add (add (fiber (breakdown d)) (sugar (breakdown d))) (starch (breakdown d)).
Proof.
  split; [reflexivity|]. split; [reflexivity|].
  apply (@fallback_total_is_breakdown_sum fiberAndSugar); reflexivity.
Defined.

(** C3, as stated, fails.  On "42g of carbs" no item matches and the total
    recovered is 42, but the single default item keeps carbs = 30. *)
Lemma default_item_keeps_its_carbs :
  str_match true foodItemRegex carbsOnly = None
  /\ exists d i,
    generateEstimatedCarbData carbsOnly = Some d
    /\ foodItems d = [i]
    /\ name i = of_string "Unknown food item"
    /\ weight i = Int 100
    /\ totalCarbs d = Int 42
    /\ carbs i = Int 30
    /\ carbs i <> totalCarbs d.
Proof.
  split; [reflexivity|].
  eexists. eexists. split; [vm_compute; reflexivity|].
  repeat split. discriminate.
Qed.

(** C3, amended.  For every input text on which the fallback finds no
    food-item match, foodItems is the single item named "Unknown food item"
    with weight 100, carbs 30 and confidence low, whatever total was
    recovered. *)
Theorem fallback_default_item (t : text) :
  str_match true foodItemRegex t = None ->
  exists d,
    generateEstimatedCarbData t = Some d
    /\ foodItems d = [unknownItem].
Proof.
  intros H. unfold generateEstimatedCarbData. simpl exec_loop.
  unfold str_match in H. rewrite H. eexists. split; reflexivity.
Qed.

(** C3, amended, at "42g of carbs" *)
Lemma fallback_default_item_witness :
  str_match true foodItemRegex carbsOnly = None
  /\ exists d,
    generateEstimatedCarbData carbsOnly = Some d
    /\ foodItems d = [unknownItem].
Proof.
  split; [reflexivity|]. apply (@fallback_default_item carbsOnly). reflexivity.
Defined.

(** C4.  For every input text that [JSON.parse] accepts as an object of
    the schema, the first [try] hands over exactly the parsed object, with
    [foodItems] added as the empty array when the object has none, and
    sets no error. *)
Theorem direct_parse_round_trip (t : text) (fields : list (text * json)) :
  JSON_parse t = Some (JObject fields) ->
  matches_schema fields = true ->
  normalize t
  = Some (mkOutcome
            (Some (ParsedObject
               (match get_field foodItemsKey fields with
                | Some _ => fields
                | None => fields ++ [(foodItemsKey, JArray [])]
                end)))
            None).
Proof.
  intros Hp Hs. unfold normalize, try_parse. rewrite Hp. simpl.
  unfold matches_schema, optional_field_is in Hs.
  apply andb_true_iff in Hs. destruct Hs as [_ Hs].
  change (of_string "foodItems") with foodItemsKey in Hs.
  destruct (get_field foodItemsKey fields) as [w|] eqn:Hf.
  - destruct w; try discriminate. reflexivity.
  - rewrite set_field_absent by exact Hf. reflexivity.
Qed.

(** C4 at a record without [foodItems] *)
Lemma direct_parse_round_trip_witness :
  JSON_parse sampleRecord = Some (JObject sampleFields)
  /\ matches_schema sampleFields = true
  /\ normalize sampleRecord
     = Some (mkOutcome
               (Some (ParsedObject (sampleFields ++ [(foodItemsKey, JArray [])])))
               None).
Proof.
  split; [vm_compute; reflexivity|]. split; [vm_compute; reflexivity|].
  apply (@direct_parse_round_trip sampleRecord sampleFields); vm_compute; reflexivity.
Defined.



(** C6, as stated, fails on two of the three paths.  The fallback turns
    "Rice: 0g, 45g carbs" into an item of weight 0, which is not positive;
    the direct parse hands over an object whose totalCarbs is -5 as it
    is. *)
Lemma normalize_breaks_invariants :
  (exists d i,
      normalize zeroWeight = Some (mkOutcome (Some (Estimated d)) (Some estimateNote))
      /\ foodItems d = [i] /\ weight i = Int 0
      /\ record_invariants (Estimated d) = false)
  /\ (exists fields,
      normalize negativeTotal = Some (mkOutcome (Some (ParsedObject fields)) None)
      /\ get_field (of_string "totalCarbs") fields
         = Some (JNumber (mkDecimal true 5 0))
      /\ record_invariants (ParsedObject fields) = false).
Proof.
  split.
  - eexists. eexists. split; [vm_compute; reflexivity|]. repeat split.
  - eexists. split; [vm_compute; reflexivity|]. repeat split.
Qed.

(** C6, amended.  Every record of the heuristic fallback has non-negative
    totalCarbs, fiber, sugar, starch, item carbs and item weights (a weight
    can be 0) and non-empty item names; a record of either parse path is
    the parsed value with [foodItems] backfilled, not validated. *)
Theorem normalize_invariants (content : text) :
  exists v err,
    normalize content = Some (mkOutcome (Some v) err)
    /\ (forall d, v = Estimated d -> fallback_invariants d = true)
    /\ ((forall d, v <> Estimated d) ->
        try_parse content = Some v
        \/ (try_parse content = None /\ embedded_parse content = Some v)).
Proof.
  destruct (normalize_cases content)
    as [(v & Ht & Hn)|[(v & Ht & He & Hn)|(d & Ht & He & Hg & Hn)]].
  - exists v, None. split; [exact Hn|]. split; [|auto].
    intros d ->. exfalso. exact (try_parse_not_estimated _ Ht eq_refl).
  - exists v, None. split; [exact Hn|]. split; [|auto].
    intros d ->. exfalso. exact (embedded_parse_not_estimated _ He eq_refl).
  - exists (Estimated d), (Some estimateNote). split; [exact Hn|]. split.
    + intros d' Hd. inversion Hd; subst d'.
      destruct (generateEstimatedCarbData_returns content) as (items & Hloop & Hgen).
      rewrite Hgen in Hg. inversion Hg; subst d.
      apply record_ok_invariants. exact (assemble_ok Hloop).
    + intros H. exfalso. exact (H d eq_refl).
Qed.

(** C7.  The fallback returns the items in the order their matches are
    met in the text: the item list is the image of the list of matches,
    whose start indices increase and each of which is the match of the item
    pattern at its index.  For "Chicken: 150g, 0g of carbs" followed, after
    any separator without word characters, by "Rice: 200g, 45g carbs", the
    items are Chicken (150, 0, low) then Rice (200, 45, low). *)
Theorem fallback_items_in_order :
  (forall t, exists items d,
      exec_loop true (S (length t)) foodItemRegex 0 t = Some items
      /\ generateEstimatedCarbData t = Some d
      /\ foodItems d
         = match items with [] => [defaultItem] | _ => map item_of_match items end
      /\ StronglySorted lt (map (@m_index) items)
      /\ Forall (fun m =>
           skipn (m_index m) t = m_text m ++ m_rest m
           /\ match_here true foodItemRegex (m_index m) (skipn (m_index m) t) = Some m)
           items)
  /\ (forall sep, forallb (fun c => negb (is_word c)) sep = true ->
      exists d,
        generateEstimatedCarbData (chickenLine ++ sep ++ riceLine) = Some d
        /\ foodItems d = [chicken; rice]).
Proof.
  split.
  - intros t. destruct (generateEstimatedCarbData_returns t) as (items & Hloop & Hgen).
    exists items, (assemble t items). split; [exact Hloop|]. split; [exact Hgen|].
    destruct (exec_loop_inv foodItemRegex_consumes Hloop) as [Hall Hsorted].
    pose proof (exec_loop_positions _ [] _ Hloop) as Hpos. simpl in Hpos.
    split; [|split; [exact Hsorted|]].
    + rewrite foodItems_assemble. destruct items; reflexivity.
    + rewrite Forall_forall in *. intros m Hm.
      destruct (Hall m Hm) as (_ & _ & Hh). rewrite (Hpos m Hm). auto.
  - intros sep Hsep.
    assert (H1 : exists m1,
      search_from true foodItemRegex 0 (chickenLine ++ sep ++ riceLine) = Some m1
      /\ item_of_match m1 = chicken /\ m_rest m1 = sep ++ riceLine /\ m_end m1 = 26).
    { eexists. split; [vm_compute; reflexivity|]. repeat split. }
    assert (H2 : forall n, exists m2,
      search_from true foodItemRegex n riceLine = Some m2
      /\ item_of_match m2 = rice /\ m_rest m2 = []).
    { intros n. eexists. split; [vm_compute; reflexivity|]. repeat split. }
    assert (H3 : forall n, search_from true foodItemRegex n [] = None).
    { intros n. reflexivity. }
    destruct H1 as (m1 & Hs1 & Hi1 & Hr1 & He1).
    destruct (H2 (26 + length sep)) as (m2 & Hs2 & Hi2 & Hr2).
    assert (Hloop : exec_loop true 3 foodItemRegex 0 (chickenLine ++ sep ++ riceLine)
                    = Some [m1; m2]).
    { rewrite exec_loop_S, Hs1, Hr1, He1, exec_loop_S.
      rewrite (search_skip _ foodItemRegex_starts_with_word _ _ _ Hsep).
      rewrite Hs2, Hr2, exec_loop_S, H3. reflexivity. }
    exists (assemble (chickenLine ++ sep ++ riceLine) [m1; m2]). split.
    + unfold generateEstimatedCarbData.
      rewrite (exec_loop_more_fuel (fuel' := S (length (chickenLine ++ sep ++ riceLine))) Hloop);
        [reflexivity|].
      rewrite length_app. simpl. lia.
    + rewrite foodItems_assemble. simpl. rewrite Hi1, Hi2. reflexivity.
Qed.

(** C7 with a line feed between the two lines *)
Lemma fallback_items_in_order_witness :
  forallb (fun c => negb (is_word c)) [10%N] = true
  /\ exists d,
    generateEstimatedCarbData (chickenLine ++ [10%N] ++ riceLine) = Some d
    /\ foodItems d = [chicken; rice].
Proof.
  split; [reflexivity|]. apply (proj2 fallback_items_in_order [10%N]). reflexivity.
Defined.

(** C8, as stated, fails.  A run of 309 nines before "g carbs" parses to
    [Infinity], which is not an integer. *)
Lemma fallback_total_can_be_infinite :
  exists d,
    generateEstimatedCarbData hugeTotal = Some d
    /\ totalCarbs d = PosInf
    /\ is_integer (totalCarbs d) = false
    /\ all_nonneg_integers d = false.
Proof.
  destruct (generateEstimatedCarbData_returns hugeTotal) as (items & _ & Hgen).
  exists (assemble hugeTotal items). split; [exact Hgen|].
  assert (Ht : totalCarbs (assemble hugeTotal items) = PosInf)
    by (vm_compute; reflexivity).
  unfold all_nonneg_integers. rewrite Ht. repeat split.
Qed.

(** C8, amended.  For every input text the record of the fallback has a
    non-empty foodItems list, every item in it has confidence low, and each
    of its numbers (totalCarbs, fiber, sugar, starch, each item's weight
    and carbs) is a non-negative integer or [Infinity]. *)
Theorem fallback_record_shape (t : text) :
  exists d,
    generateEstimatedCarbData t = Some d
    /\ foodItems d <> []
    /\ Forall (fun i => confidence i = Some low) (foodItems d)
    /\ all_natural d = true.
Proof.
  destruct (generateEstimatedCarbData_returns t) as (items & Hloop & Hgen).
  exists (assemble t items). split; [exact Hgen|].
  pose proof (assemble_ok Hloop) as Hok.
  split; [apply Hok|]. split; [|apply record_ok_all_natural, Hok].
  destruct Hok as (_ & _ & _ & _ & _ & Hitems).
  eapply Forall_impl; [|exact Hitems]. intros i Hi. apply Hi.
Qed.

Section CanvasSize.
Local Open Scope Z_scope.

(** C9.  For a source image of [w] by [h] pixels the canvas is no wider
    than [w] and no higher than [h], neither side exceeds 1200, and the
    aspect ratio is kept up to the rounding of one side: [W * h] and
    [H * w] differ by at most the larger of [w] and [h], that is, the
    scaled side is within one pixel of what the exact ratio gives.  An
    image that fits is left as it is. *)
Theorem compressImage_bounds (w h : Z) :
  0 <= w < 2 ^ 32 -> 0 <= h < 2 ^ 32 ->
  let '(W, H) := compressImage w h in
  0 <= W <= w /\ 0 <= H <= h /\ W <= 1200 /\ H <= 1200
  /\ Z.abs (W * h - H * w) <= Z.max w h
  /\ (w <= 1200 -> h <= 1200 -> W = w /\ H = h).
Proof.
  intros Hw Hh. unfold compressImage, scaled.
  destruct (fgt (inject_Z w) maxWidth) eqn:E1.
  - apply fgt_true in E1. unfold maxWidth in E1. rewrite <- Zlt_Qlt in E1.
    pose proof (@scale_step w h ltac:(lia) ltac:(lia)) as Hs. cbv zeta in Hs.
    fold maxWidth in Hs.
    set (h1 := fdiv (fmul (inject_Z h) maxWidth) (inject_Z w)) in *.
    set (k := h * 1200 / w) in *.
    destruct Hs as (Hlo & Hhi & Hle & Hk & H1200 & Herr).
    assert (Hk0 : 0 <= k) by (subst k; apply Z.div_pos; lia).
    destruct (fgt h1 maxHeight) eqn:E2.
    + apply fgt_true in E2. unfold maxHeight in E2.
      assert (Hwh : w < h).
      { destruct (Z.lt_ge_cases w h) as [|Hge]; [assumption|exfalso].
        assert (h1 <= inject_Z 1200)%Q by (apply H1200; lia).
        apply (Qlt_irrefl h1). eapply Qle_lt_trans; eassumption. }
      destruct (Herr ltac:(lia)) as [A1 A2].
      pose proof (@second_step w h h1 ltac:(lia) ltac:(lia) E2 A1 A2) as Hs2.
      cbv zeta in Hs2.
      set (w2 := fdiv (fmul maxWidth maxHeight) h1) in *.
      set (kz := 1200 * w / h) in *.
      destruct Hs2 as (S0 & S1200 & Sup & Slow & Sexact & Hkz).
      change (to_unsigned_long maxHeight) with 1200.
      assert (Hkz0 : 0 <= kz) by (subst kz; apply Z.div_pos; lia).
      pose proof (@floor_between w2 0 1200 ltac:(lia) ltac:(lia) S0 S1200) as HW1.
      assert (HW2 : to_unsigned_long w2 <= kz + 1).
      { assert (kz + 1 <= 1201) by nia.
        apply (@floor_between w2 0 (kz + 1)); auto; lia. }
      set (W := to_unsigned_long w2) in *.
      assert (HW3 : (kz * h < 1200 * w -> kz <= W) /\ (kz * h = 1200 * w -> kz - 1 <= W)).
      { split; intros Hc.
        - apply (@floor_between w2 kz 1200); auto; lia.
        - assert (1 <= kz) by nia.
          apply (@floor_between w2 (kz - 1) 1200); auto; lia. }
      destruct HW3 as [HW3 HW4].
      repeat split; try lia.
      rewrite Z.max_r by lia. apply Z.abs_le.
      destruct (Z.eq_dec (kz * h) (1200 * w)) as [Heq|Hne].
      * specialize (HW4 Heq). nia.
      * specialize (HW3 ltac:(lia)). nia.
    + apply fgt_false in E2. unfold maxHeight in E2.
      change (to_unsigned_long maxWidth) with 1200.
      assert (Hk1 : k <= 1200).
      { rewrite Zle_Qle. eapply Qle_trans; eassumption. }
      pose proof (@floor_between h1 k (k + 1) ltac:(lia) ltac:(lia) Hlo Hhi) as HH1.
      pose proof (@floor_between h1 0 1200 ltac:(lia) ltac:(lia)
                    ltac:(eapply Qle_trans; [|exact Hlo]; rewrite <- Zle_Qle; lia) E2)
        as HH2.
      pose proof (@floor_between h1 0 h ltac:(lia) ltac:(lia)
                    ltac:(eapply Qle_trans; [|exact Hlo]; rewrite <- Zle_Qle; lia) Hle)
        as HH3.
      set (H := to_unsigned_long h1) in *.
      repeat split; try lia.
      apply Z.abs_le. assert (Z.max w h >= w) by lia.
      assert (H = k \/ H = k + 1) as [->| ->] by lia; nia.
  - apply fgt_false in E1. unfold maxWidth in E1. rewrite <- Zle_Qle in E1.
    destruct (fgt (inject_Z h) maxHeight) eqn:E2.
    + apply fgt_true in E2. unfold maxHeight in E2. rewrite <- Zlt_Qlt in E2.
      pose proof (@scale_step h w ltac:(lia) ltac:(lia)) as Hs. cbv zeta in Hs.
      fold maxHeight in Hs.
      set (w2 := fdiv (fmul (inject_Z w) maxHeight) (inject_Z h)) in *.
      set (k := w * 1200 / h) in *.
      destruct Hs as (Hlo & Hhi & Hle & Hk & H1200 & _).
      assert (Hk0 : 0 <= k) by (subst k; apply Z.div_pos; lia).
      change (to_unsigned_long maxHeight) with 1200.
      assert (Hw2 : (w2 <= inject_Z 1200)%Q) by (apply H1200; nia).
      assert (Hk1 : k <= 1200).
      { rewrite Zle_Qle. eapply Qle_trans; eassumption. }
      pose proof (@floor_between w2 k (k + 1) ltac:(lia) ltac:(lia) Hlo Hhi) as HH1.
      pose proof (@floor_between w2 0 w ltac:(lia) ltac:(lia)
                    ltac:(eapply Qle_trans; [|exact Hlo]; rewrite <- Zle_Qle; lia) Hle)
        as HH3.
      set (W := to_unsigned_long w2) in *.
      repeat split; try lia.
      apply Z.abs_le. assert (Z.max w h >= h) by lia.
      assert (W = k \/ W = k + 1) as [->| ->] by lia; nia.
    + apply fgt_false in E2. unfold maxHeight in E2. rewrite <- Zle_Qle in E2.
      rewrite !to_unsigned_long_Z by lia.
      repeat split; lia.
Qed.

(** C9 at a photograph of 4000 by 3000 pixels: 1200 by 900 *)
Lemma compressImage_bounds_witness :
  0 <= 4000 < 2 ^ 32 /\ 0 <= 3000 < 2 ^ 32
  /\ let '(W, H) := compressImage 4000 3000 in
     0 <= W <= 4000 /\ 0 <= H <= 3000 /\ W <= 1200 /\ H <= 1200
     /\ Z.abs (W * 3000 - H * 4000) <= Z.max 4000 3000
     /\ (4000 <= 1200 -> 3000 <= 1200 -> W = 4000 /\ H = 3000).
Proof.
  split; [lia|]. split; [lia|]. apply (@compressImage_bounds 4000 3000); lia.
Defined.

End CanvasSize.

(** C10 fails on the code.  With an empty key the capture and upload
    buttons only open the key dialog ([capturePhoto_guard],
    [handleGalleryClick_guard]), but [retryAnalysis] has no such guard: in
    the run below no key has been saved, the key typed has been cleared,
    and the Retry button of the preview starts the request all the same,
    with an empty bearer. *)
Theorem retry_fetches_without_credential :
  exists s,
    option_map (fun tr => map snd tr)
      (App.run (App.initial None) (firstn 9 retry_after_clearing_key))
      = Some [[]; []; []; [App.Fetch (of_string "sk-test") photo]; []; []; []; []; []]
    /\ option_map (fun tr => last (map fst tr) (App.initial None))
         (App.run (App.initial None) (firstn 9 retry_after_clearing_key)) = Some s
    /\ App.apiKey s = [] /\ App.storedApiKey s = None /\ App.no_credential s = true
    /\ option_map snd (App.step s App.ClickRetry) = Some [App.Fetch [] photo]
    /\ App.fetches_without_credential (App.initial None) retry_after_clearing_key = true.
Proof.
  eexists. split; [vm_compute; reflexivity|].
  split; [vm_compute; reflexivity|]. repeat split.
Qed.

(* ================================================================= *)
(** * Further properties of the code *)

(* ----------------------------------------------------------------- *)
(** ** Lemmas *)

Module PatternFacts.

Lemma rmatch_needs_digit {icase r} : needs_digit r = true ->
  forall {k e inp c res},
  rmatch icase r k e inp c = Some res -> existsb is_digit inp = true.
Proof.
  induction r as [|cs|r1 IH1 r2 IH2|r1 IH1 r2 IH2|r1 IH1|g cs|g cs|m r1 IH1];
    intros Hn k e inp c res H; simpl in Hn; try discriminate.
  - destruct cs; try discriminate. simpl in H.
    destruct inp as [|x rest]; [discriminate|].
    destruct (is_digit x) eqn:Hx; [|discriminate]. simpl. rewrite Hx. reflexivity.
  - simpl in H. apply orb_true_iff in Hn. destruct Hn as [Hn|Hn].
    + exact (IH1 Hn _ _ _ _ _ H).
    + destruct (rmatch_inv H) as (p & i & c' & -> & _ & Hk & _).
      rewrite existsb_app, (IH2 Hn _ _ _ _ _ Hk). apply orb_true_r.
  - simpl in H. apply andb_true_iff in Hn. destruct Hn as [Hn1 Hn2].
    destruct (rmatch icase r1 k e inp c) eqn:H1.
    + exact (IH1 Hn1 _ _ _ _ _ H1).
    + exact (IH2 Hn2 _ _ _ _ _ H).
  - destruct cs; try discriminate. simpl in H.
    destruct inp as [|x rest]; [discriminate|].
    destruct (is_digit x) eqn:Hx; [|discriminate]. simpl. rewrite Hx. reflexivity.
  - simpl in H. exact (IH1 Hn _ _ _ _ _ H).
Qed.

Lemma no_digit_existsb t : no_digit t = true -> existsb is_digit t = false.
Proof.
  induction t as [|x t IH]; simpl; [reflexivity|].
  intros H. apply andb_true_iff in H. destruct H as [Hx Ht].
  apply negb_true_iff in Hx. rewrite Hx, IH; auto.
Qed.

(** A pattern that needs a digit matches nowhere in a text without one. *)
Lemma search_needs_digit {icase r} : needs_digit r = true ->
  forall t idx, no_digit t = true -> search_from icase r idx t = None.
Proof.
  intros Hn.
  assert (Hhere : forall t idx, no_digit t = true -> match_here icase r idx t = None).
  { intros t idx Ht. unfold match_here.
    destruct (rmatch icase r _ 0 t []) as [[[e rest] c]|] eqn:H; [|reflexivity].
    apply (rmatch_needs_digit Hn) in H. rewrite no_digit_existsb in H by exact Ht.
    discriminate. }
  induction t as [|x t IH]; intros idx Ht; simpl; rewrite Hhere by exact Ht.
  - reflexivity.
  - apply IH. simpl in Ht. apply andb_true_iff in Ht. apply Ht.
Qed.

(** A greedy star takes a whole run when what follows the run can go on. *)
Lemma star_greedy_run {icase cs k} : forall run rest e c res,
  forallb (cs_match icase cs) run = true ->
  k (e + length run) rest c = Some res ->
  match rest with x :: _ => cs_match icase cs x = false | [] => True end ->
  star_greedy icase cs k e (run ++ rest) c = Some res.
Proof.
  induction run as [|x run IH]; intros rest e c res Hrun Hk Hrest; simpl in *.
  - rewrite Nat.add_0_r in Hk. destruct rest as [|y rest]; simpl; [exact Hk|].
    rewrite Hrest. exact Hk.
  - apply andb_true_iff in Hrun. destruct Hrun as [Hx Hrun]. rewrite Hx.
    rewrite (IH rest (S e) c res Hrun); auto.
    rewrite <- Hk. f_equal. lia.
Qed.

(** A greedy star fails when what follows fails after every prefix. *)
Lemma star_greedy_none {icase cs k} : forall inp e c,
  (forall pre i, inp = pre ++ i -> forallb (cs_match icase cs) pre = true ->
                 k (e + length pre) i c = None) ->
  star_greedy icase cs k e inp c = None.
Proof.
  induction inp as [|x rest IH]; intros e c Hk; simpl.
  - specialize (Hk [] [] eq_refl eq_refl). rewrite Nat.add_0_r in Hk. exact Hk.
  - assert (H0 : k e (x :: rest) c = None).
    { specialize (Hk [] (x :: rest) eq_refl eq_refl). rewrite Nat.add_0_r in Hk. exact Hk. }
    destruct (cs_match icase cs x) eqn:Hx; [|exact H0].
    rewrite IH; [exact H0|].
    intros pre i -> Hpre. specialize (Hk (x :: pre) i eq_refl).
    simpl in Hk. rewrite Hx, Hpre in Hk. specialize (Hk eq_refl).
    rewrite <- Hk. f_equal. lia.
Qed.

Lemma search_from_here {icase r idx inp m} :
  match_here icase r idx inp = Some m -> search_from icase r idx inp = Some m.
Proof. intros H. destruct inp; simpl; rewrite H; reflexivity. Qed.

Lemma carbRegex_parts : carbRegex = Seq (Group 1 digits) (Seq ws carbTail).
Proof. reflexivity. Qed.

Lemma carbTail_unit e after c :
  rmatch true carbTail done e (of_string "g carbs" ++ after) c
  = Some (S (S (S (S (S (S e))))), 115%N :: after,
          (4, (of_string "carbs" ++ after, S (S e), S (S (S (S (S (S e))))))) :: c).
Proof. reflexivity. Qed.

Lemma space_not_digit c : is_space c = true -> is_digit c = false.
Proof.
  intros H. destruct (is_digit c) eqn:Hd; [|reflexivity].
  rewrite (digit_not_space _ Hd) in H. discriminate.
Qed.

(** The total pattern at a number that is followed by "g carbs" *)
Lemma carbRegex_at_number ds sp after idx :
  digit_text ds -> forallb is_space sp = true ->
  exists m,
    match_here true carbRegex idx (ds ++ sp ++ of_string "g carbs" ++ after) = Some m
    /\ cap 1 m = ds.
Proof.
  intros [Hne Hds] Hsp. destruct ds as [|x ds]; [congruence|]. clear Hne.
  simpl in Hds. apply andb_true_iff in Hds. destruct Hds as [Hx Hds].
  assert (H2 : forall e c,
    rmatch true (Seq ws carbTail) done e (sp ++ of_string "g carbs" ++ after) c
    = Some (S (S (S (S (S (S (e + length sp)))))), 115%N :: after,
            (4, (of_string "carbs" ++ after, S (S (e + length sp)),
                 S (S (S (S (S (S (e + length sp)))))))) :: c)).
  { intros e c. cbn [rmatch ws]. unfold star.
    apply star_greedy_run; [exact Hsp | apply carbTail_unit | reflexivity]. }
  assert (Hrest : match sp ++ of_string "g carbs" ++ after with
                  | y :: _ => cs_match true CsDigit y = false
                  | [] => True
                  end).
  { destruct sp as [|y sp]; [reflexivity|]. simpl in Hsp.
    apply andb_true_iff in Hsp. simpl. apply space_not_digit, Hsp. }
  unfold match_here. rewrite carbRegex_parts.
  cbn [rmatch digits app cs_match]. rewrite Hx.
  unfold star.
  match goal with
  | |- context [star_greedy true CsDigit ?k ?e _ ?c] =>
      rewrite (@star_greedy_run true CsDigit k ds _ e c _ Hds (H2 _ _) Hrest)
  end.
  eexists. split; [reflexivity|].
  unfold cap, group. cbn [m_caps get_cap Nat.eqb capture_text].
  replace (1 + length ds - 0) with (S (length ds)) by lia.
  cbn [firstn]. f_equal.
  replace (length ds) with (length ds + 0) by lia.
  rewrite firstn_app_2. simpl. apply app_nil_r.
Qed.

Lemma digit_blocks c : is_digit c = true -> blocks_unit c = true.
Proof.
  intros H. unfold blocks_unit. rewrite (digit_not_space _ H). simpl.
  apply digit_bounds in H. unfold canonicalize, in_range.
  destruct (N.leb 97 c) eqn:E; simpl.
  - apply N.leb_le in E. lia.
  - apply negb_true_iff, N.eqb_neq. lia.
Qed.

(** After a digit of a text without amounts, every way of reading on over
    digits stops before a character that [\s*g] cannot start with. *)
Lemma digit_run_blocked : forall t rest pre i,
  match t with y :: _ => is_digit y || blocks_unit y = true | [] => False end ->
  no_amount t = true ->
  t ++ rest = pre ++ i -> forallb is_digit pre = true ->
  exists z i', i = z :: i' /\ blocks_unit z = true.
Proof.
  induction t as [|y t IH]; intros rest pre i Hhead Hna Heq Hpre; [destruct Hhead|].
  destruct pre as [|p pre].
  - simpl in Heq. subst i. exists y, (t ++ rest). split; [reflexivity|].
    apply orb_true_iff in Hhead. destruct Hhead as [H|H]; [apply digit_blocks, H | exact H].
  - simpl in Heq. inversion Heq; subst p. clear Heq.
    simpl in Hpre. apply andb_true_iff in Hpre. destruct Hpre as [Hy Hpre].
    simpl in Hna. rewrite Hy in Hna. simpl in Hna.
    apply andb_true_iff in Hna. destruct Hna as [Hnext Hna].
    apply (IH rest pre i); auto.
    destruct t as [|y' t]; [discriminate | exact Hnext].
Qed.

Lemma carbRegex_blocked z i e c :
  blocks_unit z = true ->
  rmatch true (Seq ws carbTail) done e (z :: i) c = None.
Proof.
  unfold blocks_unit. intros H. apply andb_true_iff in H. destruct H as [Hs Hg].
  apply negb_true_iff in Hs, Hg.
  cbn [rmatch ws star star_greedy cs_match]. rewrite Hs.
  unfold carbTail. cbn [seqs lit of_string list_ascii_of_string map fold_right rmatch cs_match].
  change (canonicalize (N_of_ascii "g")) with 71%N. rewrite Hg. reflexivity.
Qed.

(** No match of the total pattern starts in a text without amounts,
    whatever follows the text. *)
Lemma carbRegex_skips : forall before rest idx,
  no_amount before = true ->
  search_from true carbRegex idx (before ++ rest)
  = search_from true carbRegex (idx + length before) rest.
Proof.
  induction before as [|x before IH]; intros rest idx Hna.
  - simpl. rewrite Nat.add_0_r. reflexivity.
  - simpl in Hna. apply andb_true_iff in Hna. destruct Hna as [Hx Hna].
    assert (Hhere : match_here true carbRegex idx ((x :: before) ++ rest) = None).
    { unfold match_here. rewrite carbRegex_parts.
      cbn [rmatch digits app cs_match].
      destruct (is_digit x) eqn:Hd; [|reflexivity].
      simpl in Hx. unfold star. rewrite star_greedy_none; [reflexivity|].
      intros pre i Heq Hpre.
      destruct (digit_run_blocked before rest pre i) as (z & i' & -> & Hz); auto.
      - destruct before; [discriminate | exact Hx].
      - apply carbRegex_blocked, Hz. }
    simpl app. cbn [search_from]. simpl app in Hhere. rewrite Hhere.
    rewrite IH by exact Hna. f_equal. simpl. lia.
Qed.

Lemma decimal_value_bound d : forallb is_digit d = true ->
  (0 <= decimal_value d < 10 ^ Z.of_nat (length d))%Z.
Proof.
  unfold decimal_value.
  assert (G : forall d acc, forallb is_digit d = true -> (0 <= acc)%Z ->
    (0 <= fold_left (fun a c => a * 10 + (Z.of_N c - 48)) d acc
     < (acc + 1) * 10 ^ Z.of_nat (length d))%Z).
  { clear. induction d as [|x d IH]; intros acc Hd Hacc.
    - simpl. lia.
    - simpl in Hd. apply andb_true_iff in Hd. destruct Hd as [Hx Hd].
      apply digit_bounds in Hx. cbn [fold_left].
      specialize (IH (acc * 10 + (Z.of_N x - 48))%Z Hd ltac:(lia)).
      replace (Z.of_nat (length (x :: d))) with (Z.of_nat (length d) + 1)%Z
        by (simpl length; lia).
      rewrite Z.pow_add_r by lia. 
      assert (0 < 10 ^ Z.of_nat (length d))%Z by (apply Z.pow_pos_nonneg; lia).
      nia. }
  intros Hd. specialize (G d 0%Z Hd ltac:(lia)). lia.
Qed.

End PatternFacts.
Import PatternFacts.

Module CaseFacts.

Lemma same_letter_cases x y : same_letter x y ->
  x = y \/ ((in_range 65 90 x || in_range 97 122 x = true)
            /\ (in_range 65 90 y || in_range 97 122 y = true)).
Proof.
  unfold same_letter, canonicalize, in_range. intros H.
  destruct (N.leb 97 x && N.leb x 122) eqn:Ex, (N.leb 97 y && N.leb y 122) eqn:Ey.
  - right. rewrite !orb_true_r. auto.
  - right. rewrite orb_true_r. split; [reflexivity|].
    apply andb_true_iff in Ex. destruct Ex as [E1 E2].
    apply N.leb_le in E1, E2.
    assert (N.leb 65 y && N.leb y 90 = true) as ->; [|reflexivity].
    apply andb_true_iff. split; apply N.leb_le; lia.
  - right. rewrite orb_true_r. split; [|reflexivity].
    apply andb_true_iff in Ey. destruct Ey as [E1 E2].
    apply N.leb_le in E1, E2.
    assert (N.leb 65 x && N.leb x 90 = true) as ->; [|reflexivity].
    apply andb_true_iff. split; apply N.leb_le; lia.
  - left. exact H.
Qed.

Lemma letter_facts x : in_range 65 90 x || in_range 97 122 x = true ->
  is_digit x = false /\ is_word x = true /\ is_space x = false.
Proof.
  intros H.
  assert (Hw : is_word x = true).
  { unfold is_word. apply orb_true_iff in H. destruct H as [H|H]; rewrite H;
      rewrite ?orb_true_r; reflexivity. }
  split; [|split; [exact Hw | apply word_not_space, Hw]].
  unfold is_digit, in_range in *.
  apply orb_true_iff in H.
  destruct H as [H|H]; apply andb_true_iff in H; destruct H as [H1 H2];
    apply N.leb_le in H1, H2; apply andb_false_iff; right; apply N.leb_gt; lia.
Qed.

Lemma cs_match_same_letter cs x y : same_letter x y ->
  cs_match true cs x = cs_match true cs y.
Proof.
  intros H. induction cs; simpl.
  - unfold same_letter in H. rewrite H. reflexivity.
  - destruct (same_letter_cases H) as [->|[Hx Hy]]; [reflexivity|].
    apply letter_facts in Hx, Hy. destruct Hx as (-> & _), Hy as (-> & _). reflexivity.
  - destruct (same_letter_cases H) as [->|[Hx Hy]]; [reflexivity|].
    apply letter_facts in Hx, Hy. destruct Hx as (_ & -> & _), Hy as (_ & -> & _).
    reflexivity.
  - destruct (same_letter_cases H) as [->|[Hx Hy]]; [reflexivity|].
    apply letter_facts in Hx, Hy. destruct Hx as (_ & _ & ->), Hy as (_ & _ & ->).
    reflexivity.
  - destruct (same_letter_cases H) as [->|[Hx Hy]]; [reflexivity|].
    apply letter_facts in Hx, Hy. destruct Hx as (_ & _ & ->), Hy as (_ & _ & ->).
    reflexivity.
  - rewrite IHcs1, IHcs2. reflexivity.
Qed.

Lemma star_greedy_rel cs k k' : cont_rel k k' ->
  cont_rel (star_greedy true cs k) (star_greedy true cs k').
Proof.
  intros Hk e i i' c c' Hi. revert e c c'.
  induction Hi as [|x y i i' Hxy Hi IH]; intros e c c' Hc; simpl.
  - apply Hk; [constructor | exact Hc].
  - rewrite (cs_match_same_letter cs Hxy).
    assert (H0 : state_rel (k e (x :: i) c) (k' e (y :: i') c'))
      by (apply Hk; [constructor; assumption | exact Hc]).
    destruct (cs_match true cs y); [|exact H0].
    specialize (IH (S e) c c' Hc). unfold state_rel in IH.
    destruct (star_greedy true cs k (S e) i c) as [[[e1 i1] c1]|],
             (star_greedy true cs k' (S e) i' c') as [[[e2 i2] c2]|];
      try contradiction; [exact IH | exact H0].
Qed.

Lemma star_lazy_rel cs k k' : cont_rel k k' ->
  cont_rel (star_lazy true cs k) (star_lazy true cs k').
Proof.
  intros Hk e i i' c c' Hi. revert e c c'.
  induction Hi as [|x y i i' Hxy Hi IH]; intros e c c' Hc; simpl.
  - apply Hk; [constructor | exact Hc].
  - rewrite (cs_match_same_letter cs Hxy).
    assert (H0 : state_rel (k e (x :: i) c) (k' e (y :: i') c'))
      by (apply Hk; [constructor; assumption | exact Hc]).
    unfold state_rel in H0.
    destruct (k e (x :: i) c) as [[[e1 i1] c1]|], (k' e (y :: i') c') as [[[e2 i2] c2]|];
      try contradiction; [exact H0|].
    destruct (cs_match true cs y); [|exact I].
    apply IH, Hc.
Qed.

Lemma rmatch_rel r : forall k k', cont_rel k k' ->
  cont_rel (rmatch true r k) (rmatch true r k').
Proof.
  induction r as [|cs|r1 IH1 r2 IH2|r1 IH1 r2 IH2|r1 IH1|g cs|g cs|m r1 IH1];
    intros k k' Hk e i i' c c' Hi Hc; simpl.
  - apply Hk; assumption.
  - destruct Hi as [|x y i i' Hxy Hi]; [exact I|].
    rewrite (cs_match_same_letter cs Hxy).
    destruct (cs_match true cs y); [|exact I]. apply Hk; assumption.
  - apply IH1; [|assumption|assumption].
    intros e1 j j' c1 c1' Hj Hc1. apply IH2; assumption.
  - pose proof (IH1 k k' Hk e i i' c c' Hi Hc) as H1. unfold state_rel in H1.
    destruct (rmatch true r1 k e i c) as [[[e1 i1] c1]|],
             (rmatch true r1 k' e i' c') as [[[e2 i2] c2]|];
      try contradiction; [exact H1|].
    apply IH2; assumption.
  - match goal with
    | |- state_rel (match ?A with _ => _ end) (match ?B with _ => _ end) =>
        assert (H1 : state_rel A B)
    end.
    { apply IH1; [|assumption|assumption].
      intros e1 j j' c1 c1' Hj Hc1. destruct (Nat.eqb e1 e); [exact I|].
      apply Hk; assumption. }
    unfold state_rel in H1.
    match type of H1 with
    | match ?A with _ => _ end =>
        destruct A as [[[e1 i1] c1]|]
    end;
    match type of H1 with
    | context [match ?B with _ => _ end] =>
        destruct B as [[[e2 i2] c2]|]
    end; try contradiction; [exact H1|].
    apply Hk; assumption.
  - destruct g; [apply star_greedy_rel | apply star_lazy_rel]; assumption.
  - destruct Hi as [|x y i i' Hxy Hi]; [exact I|].
    rewrite (cs_match_same_letter cs Hxy).
    destruct (cs_match true cs y); [|exact I].
    destruct g; [apply star_greedy_rel | apply star_lazy_rel]; assumption.
  - apply IH1; [|assumption|assumption].
    intros e1 j j' c1 c1' Hj Hc1. apply Hk; [assumption|].
    constructor; [|assumption]. repeat split; assumption.
Qed.

Lemma same_letters_firstn n : forall t t',
  same_letters t t' -> same_letters (firstn n t) (firstn n t').
Proof.
  induction n as [|n IH]; intros t t' H; simpl; [constructor|].
  destruct H; constructor; auto. apply IH. assumption.
Qed.

Lemma same_letters_rev t t' : same_letters t t' -> same_letters (rev t) (rev t').
Proof.
  induction 1; simpl; [constructor|].
  apply Forall2_app; [assumption | constructor; [assumption | constructor]].
Qed.

Lemma same_letters_refl t : same_letters t t.
Proof. induction t; constructor; [reflexivity | assumption]. Qed.

Lemma same_letters_drop t t' :
  same_letters t t' -> same_letters (drop_while is_space t) (drop_while is_space t').
Proof.
  induction 1 as [|x y t t' Hxy Ht IH]; simpl; [constructor|].
  change (is_space x) with (cs_match true CsSpace x).
  change (is_space y) with (cs_match true CsSpace y).
  rewrite (cs_match_same_letter CsSpace Hxy).
  destruct (cs_match true CsSpace y); [exact IH | constructor; assumption].
Qed.

Lemma same_letters_trim t t' : same_letters t t' -> same_letters (trim t) (trim t').
Proof.
  intros H. unfold trim.
  apply same_letters_rev, same_letters_drop, same_letters_rev, same_letters_drop, H.
Qed.

Lemma same_letters_digits d d' :
  same_letters d d' -> forallb is_digit d = true -> d' = d.
Proof.
  induction 1 as [|x y d d' Hxy Hd IH]; simpl; [reflexivity|].
  intros H. apply andb_true_iff in H. destruct H as [Hx Hds].
  rewrite (IH Hds). f_equal.
  destruct (same_letter_cases Hxy) as [->|[Hl _]]; [reflexivity|].
  apply letter_facts in Hl. destruct Hl as (Hl & _). congruence.
Qed.

Lemma match_here_rel r idx i i' : same_letters i i' ->
  option_rel result_rel (match_here true r idx i) (match_here true r idx i').
Proof.
  intros Hi. unfold match_here.
  assert (H : state_rel (rmatch true r (fun e i c => Some (e, i, c)) 0 i [])
                        (rmatch true r (fun e i c => Some (e, i, c)) 0 i' [])).
  { apply rmatch_rel; [|exact Hi|constructor].
    intros e j j' c c' Hj Hc. simpl. auto. }
  unfold state_rel in H.
  destruct (rmatch true r _ 0 i []) as [[[e1 i1] c1]|],
           (rmatch true r _ 0 i' []) as [[[e2 i2] c2]|]; try contradiction; [|exact I].
  destruct H as (-> & Hrest & Hc). simpl. repeat split; auto.
  apply same_letters_firstn, Hi.
Qed.

Lemma search_from_rel r : forall i i' idx, same_letters i i' ->
  option_rel result_rel (search_from true r idx i) (search_from true r idx i').
Proof.
  intros i i' idx Hi. revert idx.
  induction Hi as [|x y i i' Hxy Hi IH]; intros idx.
  - simpl. pose proof (@match_here_rel r idx [] [] ltac:(constructor)) as H.
    unfold option_rel in *.
    destruct (match_here true r idx []); [exact H | exact I].
  - cbn [search_from].
    pose proof (@match_here_rel r idx (x :: i) (y :: i')
                  ltac:(constructor; assumption)) as H.
    unfold option_rel in H.
    destruct (match_here true r idx (x :: i)), (match_here true r idx (y :: i'));
      try contradiction; [exact H | apply IH].
Qed.

Lemma exec_loop_rel r : forall fuel idx i i', same_letters i i' ->
  option_rel (Forall2 result_rel)
    (exec_loop true fuel r idx i) (exec_loop true fuel r idx i').
Proof.
  induction fuel as [|fuel IH]; intros idx i i' Hi; [exact I|].
  rewrite !exec_loop_S.
  pose proof (@search_from_rel r i i' idx Hi) as H. unfold option_rel in H.
  destruct (search_from true r idx i) as [m|], (search_from true r idx i') as [m'|];
    try contradiction; [|constructor].
  destruct H as (Hidx & Hend & Htext & Hc & Hrest).
  rewrite <- Hend.
  specialize (IH (m_end m) _ _ Hrest). unfold option_rel in IH.
  destruct (exec_loop true fuel r (m_end m) (m_rest m)) as [l|],
           (exec_loop true fuel r (m_end m) (m_rest m')) as [l'|];
    try contradiction; [|exact I].
  constructor; [|exact IH]. repeat split; auto.
Qed.

Lemma get_cap_rel n : forall c c', Forall2 cap_rel c c' ->
  option_rel same_letters (get_cap n c) (get_cap n c').
Proof.
  induction 1 as [|[k [[inp from] to]] [k' [[inp' from'] to']] c c' H Hc IH];
    simpl; [exact I|].
  destruct H as (Hk & Hinp & Hfrom & Hto). simpl in *. subst k' from' to'.
  destruct (Nat.eqb k n); [|exact IH].
  simpl. apply same_letters_firstn, Hinp.
Qed.

Lemma cap_same_letters n m m' :
  result_rel m m' -> same_letters (cap n m) (cap n m').
Proof.
  intros (_ & _ & _ & Hc & _). unfold cap, group.
  pose proof (get_cap_rel n Hc) as H. unfold option_rel in H.
  destruct (get_cap n (m_caps m)), (get_cap n (m_caps m')); try contradiction;
    [exact H | constructor].
Qed.

(** A field read from the first group of a pattern *)
Lemma update_same r t t' dflt : binds_digits 1 r = true -> same_letters t t' ->
  update (str_match true r t') dflt = update (str_match true r t) dflt
  /\ is_some (str_match true r t') = is_some (str_match true r t).
Proof.
  intros Hb Ht. unfold str_match.
  pose proof (@search_from_rel r t t' 0 Ht) as H. unfold option_rel in H.
  destruct (search_from true r 0 t) as [m|] eqn:Hs,
           (search_from true r 0 t') as [m'|]; try contradiction; [|auto].
  split; [|reflexivity]. simpl.
  pose proof (search_cap_digits 1 Hb Hs) as [_ Hd].
  rewrite (same_letters_digits (cap_same_letters 1 H) Hd). reflexivity.
Qed.

Lemma items_same : forall items items',
  Forall2 result_rel items items' ->
  Forall (fun m => digit_text (cap 2 m) /\ digit_text (cap 4 m)) items ->
  Forall2 item_rel (map item_of_match items) (map item_of_match items').
Proof.
  induction 1 as [|m m' l l' Hm Hl IH]; intros Hd; simpl; [constructor|].
  inversion Hd as [|? ? [[_ H2] [_ H4]] Hd']; subst.
  constructor; [|apply IH, Hd'].
  unfold item_rel, item_of_match. simpl.
  rewrite (same_letters_digits (cap_same_letters 2 Hm) H2).
  rewrite (same_letters_digits (cap_same_letters 4 Hm) H4).
  repeat split. apply same_letters_trim, cap_same_letters, Hm.
Qed.

End CaseFacts.
Import CaseFacts.

Module LoopFacts.

(** The matches of the loop follow one another in the text: each starts
    where the one before ended or later, each is at least as long as the
    pattern demands, and all lie inside the text. *)
Lemma exec_loop_spans {icase r} : forall fuel idx inp l,
  exec_loop icase fuel r idx inp = Some l ->
  StronglySorted (fun a b => m_end a <= m_index b) l
  /\ Forall (fun m => idx <= m_index m /\ m_index m + min_len r <= m_end m
                      /\ m_end m <= idx + length inp) l
  /\ min_len r * length l <= length inp.
Proof.
  induction fuel as [|fuel IH]; intros idx inp l H; [discriminate|].
  rewrite exec_loop_S in H.
  destruct (search_from icase r idx inp) as [res|] eqn:Hs.
  - destruct (exec_loop icase fuel r (m_end res) (m_rest res)) as [l'|] eqn:He;
      [|discriminate].
    inversion H; subst. clear H.
    destruct (search_from_inv Hs) as (sk & Hinp & Hi & Hm).
    destruct (match_here_inv Hm) as (_ & _ & _ & Hend & Hl).
    destruct (IH _ _ _ He) as (Hsorted & Hall & Hcount).
    assert (Hlen : length inp = length sk + length (m_text res) + length (m_rest res)).
    { rewrite Hinp at 1. rewrite !length_app. lia. }
    split; [|split].
    + constructor; [exact Hsorted|].
      eapply Forall_impl; [|exact Hall]. simpl. intros m (H1 & _). exact H1.
    + constructor; [lia|].
      eapply Forall_impl; [|exact Hall]. simpl. intros m (H1 & H2 & H3). lia.
    + simpl length. nia.
  - inversion H. repeat split; try constructor. simpl. lia.
Qed.

End LoopFacts.
Import LoopFacts.


Module BackfillFacts.

Lemma get_set_field key v : forall fields,
  get_field key (set_field key v fields) = Some v.
Proof.
  induction fields as [|[k w] fs IH]; simpl.
  - unfold text_eqb. destruct (list_eq_dec N.eq_dec key key); [reflexivity|congruence].
  - destruct (text_eqb k key) eqn:E; simpl; rewrite E; [reflexivity | exact IH].
Qed.

End BackfillFacts.
Import BackfillFacts.


Module ScaleFacts.
Local Open Scope Z_scope.

Lemma Qfloor_between (x : Q) (k : Z) :
  (inject_Z k <= x)%Q -> (x < inject_Z (k + 1))%Q -> Qfloor x = k.
Proof.
  intros Hlo Hhi.
  assert (k <= Qfloor x).
  { rewrite <- (Qfloor_Z k). apply Qfloor_resp_le. exact Hlo. }
  assert (Qfloor x < k + 1).
  { rewrite Zlt_Qlt. eapply Qle_lt_trans; [apply Qfloor_le | exact Hhi]. }
  lia.
Qed.

(** One scaling step whose result does not exceed 1200 is exact: the
    canvas side is the integer quotient. *)
Lemma scale_step_floor (side other : Z) :
  1200 < side < 2 ^ 32 -> 0 <= other <= side ->
  let r := fdiv (fmul (inject_Z other) (inject_Z 1200)) (inject_Z side) in
  to_unsigned_long r = other * 1200 / side /\ (r <= inject_Z 1200)%Q.
Proof.
  intros Hs Ho r.
  pose proof (@scale_step side other Hs ltac:(lia)) as H. cbv zeta in H.
  fold r in H. set (k := other * 1200 / side) in *.
  destruct H as (Hlo & Hhi & _ & Hk & H1200 & Herr).
  assert (Hr : (r <= inject_Z 1200)%Q) by (apply H1200; lia).
  split; [|exact Hr].
  assert (Hk0 : 0 <= k) by (subst k; apply Z.div_pos; lia).
  assert (Hk1 : k <= 1200).
  { rewrite Zle_Qle. eapply Qle_trans; eassumption. }
  destruct (@to_unsigned_long_floor r k (k + 1) Hk0 ltac:(lia) Hlo Hhi) as [_ ->].
  destruct (Z.eq_dec other 0) as [->|Hne].
  - assert (k = 0) by (subst k; reflexivity).
    assert (Hr0 : r = 0%Q) by reflexivity.
    rewrite Hr0, H. reflexivity.
  - apply Qfloor_between; [exact Hlo|].
    destruct (Herr ltac:(lia)) as [_ Hup].
    apply Qnot_le_lt. intros Hge.
    assert (Hside : (0 < inject_Z side)%Q).
    { change 0%Q with (inject_Z 0). rewrite <- Zlt_Qlt. lia. }
    assert (H1 : (inject_Z (2 ^ 53) * inject_Z (k + 1) * inject_Z side
                  <= inject_Z (2 ^ 53 + 1) * inject_Z (other * 1200))%Q).
    { eapply Qle_trans; [|exact Hup].
      apply Qmult_le_compat_r; [|apply Qlt_le_weak, Hside].
      apply Qmult_le_l; [reflexivity | exact Hge]. }
    rewrite <- !inject_Z_mult, <- Zle_Qle in H1.
    assert (2 ^ 53 = 9007199254740992) by reflexivity.
    assert (2 ^ 32 = 4294967296) by reflexivity.
    nia.
Qed.

(** The second quotient stays below the next integer: arithmetic *)
Lemma below_next (P qw qh qk h1 r : Q) :
  (2400 * qw + 2 <= P -> 1201 <= qw -> qw < qh -> 1200 < h1 -> 0 <= qk ->
   (P - 1) * (qh * 1200) <= P * h1 * qw ->
   P * r * h1 <= (P + 1) * 1440000 ->
   1200 * qw + 1 <= (qk + 1) * qh ->
   r < qk + 1)%Q.
Proof.
  intros HP Hw Hh Hh1 Hk A1 E B1.
  apply Qnot_le_lt. intros Hc.
  assert (HP0 : (0 < P)%Q) by nra.
  assert (S1 : (P * (qk + 1) * h1 <= (P + 1) * 1440000)%Q) by nra.
  assert (S2 : ((P - 1) * (qh * 1200) * (qk + 1) <= P * h1 * qw * (qk + 1))%Q) by nra.
  assert (S3 : (P * h1 * qw * (qk + 1) <= (P + 1) * 1440000 * qw)%Q) by nra.
  assert (S4 : ((P - 1) * 1200 * (1200 * qw + 1) <= (P - 1) * 1200 * ((qk + 1) * qh))%Q) by nra.
  nra.
Qed.

(** The second step stays strictly below the integer after the exact
    quotient. *)
Lemma second_step_below (w h : Z) (h1 : Q) :
  1200 < w < 2 ^ 32 -> w < h < 2 ^ 32 -> (inject_Z 1200 < h1)%Q ->
  (inject_Z (2 ^ 53 - 1) * inject_Z (h * 1200) <= inject_Z (2 ^ 53) * h1 * inject_Z w)%Q ->
  (fdiv (fmul maxWidth maxHeight) h1 < inject_Z (1200 * w / h + 1))%Q.
Proof.
  intros Hw Hh Hh1 A1.
  set (k := 1200 * w / h).
  assert (Hm : (fmul maxWidth maxHeight == inject_Z 1440000)%Q)
    by (apply (@fmul_exact 1200 1200); lia).
  assert (Hk : k * h <= 1200 * w < (k + 1) * h).
  { subst k. pose proof (Z.div_mod (1200 * w) h ltac:(lia)).
    pose proof (Z.mod_pos_bound (1200 * w) h ltac:(lia)). nia. }
  assert (Hk0 : 0 <= k) by (subst k; apply Z.div_pos; lia).
  assert (Hd : (0 < h1)%Q) by (eapply Qlt_trans; [|exact Hh1]; reflexivity).
  assert (Hn : (0 < fmul maxWidth maxHeight)%Q) by (rewrite Hm; reflexivity).
  assert (Hlt : (fmul maxWidth maxHeight < inject_Z (2 ^ 52) * h1)%Q).
  { rewrite Hm. apply Qlt_le_trans with (inject_Z (2 ^ 52) * inject_Z 1200)%Q.
    - reflexivity.
    - apply Qmult_le_l; [reflexivity | apply Qlt_le_weak, Hh1]. }
  destruct (fdiv_error Hn Hd Hlt) as [_ E0].
  set (r := fdiv (fmul maxWidth maxHeight) h1) in *.
  assert (E : (inject_Z (2 ^ 53) * r * h1 <= inject_Z (2 ^ 53 + 1) * inject_Z 1440000)%Q).
  { eapply Qle_trans; [exact E0|]. rewrite Hm. apply Qle_refl. }
  clear E0 Hn Hlt Hm.
  set (P := inject_Z (2 ^ 53)) in *.
  assert (HPm : (inject_Z (2 ^ 53 - 1) == P - 1)%Q) by reflexivity.
  assert (HPp : (inject_Z (2 ^ 53 + 1) == P + 1)%Q) by reflexivity.
  rewrite HPm, inject_Z_mult in A1. rewrite HPp in E.
  assert (HP : (inject_Z (2400 * 2 ^ 32 + 2) <= P)%Q) by (unfold P; rewrite <- Zle_Qle; lia).
  assert (Hqw1 : (inject_Z 1201 <= inject_Z w)%Q) by (rewrite <- Zle_Qle; lia).
  assert (Hqw2 : (inject_Z w <= inject_Z (2 ^ 32))%Q) by (rewrite <- Zle_Qle; lia).
  assert (Hqh : (inject_Z w < inject_Z h)%Q) by (rewrite <- Zlt_Qlt; lia).
  assert (Hqk : (inject_Z 0 <= inject_Z k)%Q) by (rewrite <- Zle_Qle; lia).
  assert (B1 : (inject_Z 1200 * inject_Z w + inject_Z 1
                <= (inject_Z k + inject_Z 1) * inject_Z h)%Q).
  { rewrite <- inject_Z_mult, <- !inject_Z_plus, <- inject_Z_mult, <- Zle_Qle. lia. }
  rewrite inject_Z_plus.
  rewrite (inject_Z_num 1200) in *. rewrite (inject_Z_num 1201) in *.
  rewrite (inject_Z_num 1) in *. rewrite (inject_Z_num 0) in *.
  rewrite (inject_Z_num 1440000) in *.
  change (inject_Z (2 ^ 32)) with (4294967296 # 1)%Q in *.
  change (inject_Z (2400 * 2 ^ 32 + 2)) with (10307921510402 # 1)%Q in *.
  generalize dependent (inject_Z w). generalize dependent (inject_Z h).
  intros qh qw A1 Hqw1 Hqw2 Hqh B1.
  clearbody P r.
  apply (@below_next P qw qh (inject_Z k) h1 r); try nra.
Qed.

(** For an image higher than wide the first step leaves a height above
    1200: the second step runs. *)
Lemma first_step_above (w h : Z) :
  1200 < w < 2 ^ 32 -> w < h < 2 ^ 32 ->
  (inject_Z 1200 < fdiv (fmul (inject_Z h) maxWidth) (inject_Z w))%Q.
Proof.
  intros Hw Hh.
  pose proof (@scale_step w h Hw ltac:(lia)) as Hs. cbv zeta in Hs.
  fold maxWidth in Hs.
  set (h1 := fdiv (fmul (inject_Z h) maxWidth) (inject_Z w)) in *.
  destruct Hs as (_ & _ & _ & _ & _ & Herr).
  destruct (Herr ltac:(lia)) as [A1 _]. clear Herr.
  apply Qnot_le_lt. intros Hc.
  assert (HP : (inject_Z (2 ^ 32 + 2) <= inject_Z (2 ^ 53))%Q) by (rewrite <- Zle_Qle; lia).
  set (P := inject_Z (2 ^ 53)) in *.
  assert (HPm : (inject_Z (2 ^ 53 - 1) == P - 1)%Q) by reflexivity.
  rewrite HPm, inject_Z_mult in A1.
  assert (Hqw1 : (inject_Z 1201 <= inject_Z w)%Q) by (rewrite <- Zle_Qle; lia).
  assert (Hqw2 : (inject_Z w <= inject_Z (2 ^ 32))%Q) by (rewrite <- Zle_Qle; lia).
  assert (Hqh : (inject_Z w + inject_Z 1 <= inject_Z h)%Q).
  { rewrite <- inject_Z_plus, <- Zle_Qle. lia. }
  rewrite (inject_Z_num 1200) in *. rewrite (inject_Z_num 1201) in *.
  rewrite (inject_Z_num 1) in *.
  change (inject_Z (2 ^ 32)) with (4294967296 # 1)%Q in *.
  change (inject_Z (2 ^ 32 + 2)) with (4294967298 # 1)%Q in *.
  clearbody P h1.
  generalize dependent (inject_Z w). generalize dependent (inject_Z h).
  intros qh qw A1 Hqw1 Hqw2 Hqh.
  assert (S0 : (0 <= P * qw)%Q) by nra.
  assert (S1 : (P * qw * h1 <= P * qw * 1200)%Q) by nra.
  assert (S2 : ((P - 1) * ((qw + 1) * 1200) <= (P - 1) * (qh * 1200))%Q) by nra.
  nra.
Qed.

End ScaleFacts.
Import ScaleFacts.

Module RequestFacts.

Lemma split_no_sep sep : forall s, ~ In sep s -> split sep s = [s].
Proof.
  induction s as [|c s IH]; intros H; simpl; [reflexivity|].
  destruct (N.eqb c sep) eqn:E.
  - apply N.eqb_eq in E. exfalso. apply H. left. exact E.
  - rewrite IH; [reflexivity|]. intros Hin. apply H. right. exact Hin.
Qed.

Lemma split_at_first sep : forall s rest,
  ~ In sep s -> split sep (s ++ sep :: rest) = s :: split sep rest.
Proof.
  induction s as [|c s IH]; intros rest H; simpl.
  - rewrite N.eqb_refl. reflexivity.
  - destruct (N.eqb c sep) eqn:E.
    + apply N.eqb_eq in E. exfalso. apply H. left. exact E.
    + rewrite IH; [reflexivity|]. intros Hin. apply H. right. exact Hin.
Qed.

End RequestFacts.
Import RequestFacts.


Module RenderFacts.

Lemma text_eqb_eq a b : text_eqb a b = true <-> a = b.
Proof.
  unfold text_eqb. destruct (list_eq_dec N.eq_dec a b); split; congruence.
Qed.

Lemma get_set_other key v k : k <> key -> forall fields,
  get_field k (set_field key v fields) = get_field k fields.
Proof.
  intros Hne. induction fields as [|[k' w] fs IH]; simpl.
  - destruct (text_eqb key k) eqn:E; [|reflexivity].
    apply text_eqb_eq in E. congruence.
  - destruct (text_eqb k' key) eqn:E; simpl.
    + apply text_eqb_eq in E. subst k'.
      destruct (text_eqb key k) eqn:E'; [|reflexivity].
      apply text_eqb_eq in E'. congruence.
    + destruct (text_eqb k' k); [reflexivity | exact IH].
Qed.

(** An item of the schema's types goes through the callback of [map]. *)
Lemma food_item_returns item : is_food_item item = true -> item_returns item = true.
Proof.
  destruct item as [| | | | |fields]; try discriminate. unfold is_food_item. simpl.
  unfold field_is. intros H.
  apply andb_prop in H. destruct H as [H _].
  apply andb_prop in H. destruct H as [H Hc].
  apply andb_prop in H. destruct H as [_ Hw].
  destruct (get_field (of_string "carbs") fields) as [c|]; [|discriminate].
  destruct (get_field (of_string "weight") fields) as [w|]; [|discriminate].
  destruct c; try discriminate. destruct w; try discriminate. reflexivity.
Qed.

(** The backfill keeps the breakdown and leaves a list of items. *)
Lemma ensure_foodItems_fields fields v :
  ensure_foodItems (JObject fields) = Some v ->
  exists fields',
    v = ParsedObject fields'
    /\ get_field (of_string "breakdown") fields'
       = get_field (of_string "breakdown") fields
    /\ ((get_field foodItemsKey fields' = get_field foodItemsKey fields
         /\ fields' = fields)
        \/ get_field foodItemsKey fields' = Some (JArray [])).
Proof.
  unfold ensure_foodItems.
  assert (Hne : of_string "breakdown" <> foodItemsKey) by discriminate.
  destruct (get_field foodItemsKey fields) as [w|] eqn:E.
  - destruct (truthy w); intros H; inversion H; subst; eexists; split; try reflexivity.
    + split; [reflexivity|]. left. auto.
    + split; [apply get_set_other; exact Hne|]. right. apply get_set_field.
  - intros H; inversion H; subst; eexists; split; try reflexivity.
    split; [apply get_set_other; exact Hne|]. right. apply get_set_field.
Qed.

(** A parsed object with the types of the schema is rendered by the
    details case. *)
Lemma schema_renders fields v :
  matches_schema fields = true ->
  ensure_foodItems (JObject fields) = Some v ->
  details_returns v = true.
Proof.
  intros Hs He. destruct (ensure_foodItems_fields _ He) as (fields' & -> & Hb & Hf).
  unfold matches_schema in Hs.
  apply andb_prop in Hs. destruct Hs as [Hs Hi].
  apply andb_prop in Hs. destruct Hs as [_ Hbr].
  unfold details_returns, breakdown_returns. rewrite Hb.
  unfold field_is in Hbr.
  destruct (get_field (of_string "breakdown") fields) as [b|]; [|discriminate].
  destruct b; try discriminate. simpl.
  destruct Hf as [[Hf _]|Hf]; rewrite Hf; [|reflexivity].
  unfold optional_field_is in Hi. change (of_string "foodItems") with foodItemsKey in Hi.
  destruct (get_field foodItemsKey fields) as [w|]; [|reflexivity].
  destruct w; try discriminate. simpl in *.
  apply forallb_forall. intros item Hin.
  apply food_item_returns. exact (proj1 (forallb_forall _ _) Hi item Hin).
Qed.

(** Its total is a number, which the result card shows. *)
Lemma schema_card_renders fields v :
  matches_schema fields = true ->
  ensure_foodItems (JObject fields) = Some v ->
  card_renders v = true.
Proof.
  intros Hs He.
  assert (Ht : forall fields',
            get_field (of_string "totalCarbs") fields'
            = get_field (of_string "totalCarbs") fields ->
            card_renders (ParsedObject fields') = true).
  { intros fields' Hf. unfold card_renders. rewrite Hf.
    unfold matches_schema in Hs.
    apply andb_prop in Hs. destruct Hs as [Hs _].
    apply andb_prop in Hs. destruct Hs as [Hs _].
    unfold field_is in Hs.
    destruct (get_field (of_string "totalCarbs") fields) as [c|]; [|reflexivity].
    destruct c; try discriminate. reflexivity. }
  assert (Hne : of_string "totalCarbs" <> foodItemsKey) by discriminate.
  unfold ensure_foodItems in He.
  destruct (get_field foodItemsKey fields) as [w|];
    [destruct (truthy w)|]; inversion He; subst; apply Ht;
    first [reflexivity | apply get_set_other; exact Hne].
Qed.

(** Without a breakdown the details case throws. *)
Lemma no_breakdown_throws fields v :
  get_field (of_string "breakdown") fields = None ->
  ensure_foodItems (JObject fields) = Some v ->
  details_returns v = false.
Proof.
  intros Hn He. destruct (ensure_foodItems_fields _ He) as (fields' & -> & Hb & _).
  unfold details_returns, breakdown_returns. rewrite Hb, Hn. reflexivity.
Qed.

End RenderFacts.
Import RenderFacts.

Module AppRuns.
Import App.

Ltac step_cases H :=
  repeat match type of H with
         | context [if ?b then _ else _] => destruct b eqn:?
         | context [match ?x with _ => _ end] => destruct x eqn:?
         end;
  try discriminate.

(** A continuation's updates are kept or, once the component is
    unmounted, dropped. *)
Lemma commit_cases s s' :
  (renders s = true /\ commit s s' = s')
  \/ (renders s = false
      /\ commit s s' = set_pendingUploads (pendingUploads s') s).
Proof. unfold commit. destruct (renders s); auto. Qed.

(** A property of the component's own state that a continuation
    establishes or keeps is kept by what is committed of it. *)
Lemma commit_keeps (P : State -> Prop) s s' :
  (forall p, P (set_pendingUploads p s)) -> P s' -> P (commit s s').
Proof.
  intros Hs Hs'. destruct (commit_cases s s') as [[_ ->]|[_ ->]]; auto.
Qed.

Lemma commit_pending s s' : pendingUploads (commit s s') = pendingUploads s'.
Proof. unfold commit. destruct (renders s); reflexivity. Qed.

Lemma settle_keeps_record r s s' :
  settle r s = Some s' ->
  App.carbData s <> None -> App.carbData s' <> None.
Proof.
  destruct r as [msg|content|msg]; simpl.
  - intros H. inversion H; subst. simpl. auto.
  - destruct (normalize_cases content)
      as [(v & _ & Hn)|[(v & _ & _ & Hn)|(d & _ & _ & _ & Hn)]];
      rewrite Hn; intros H; inversion H; subst; simpl; discriminate.
  - intros H. inversion H; subst. simpl. auto.
Qed.

Lemma settle_frame r s s' :
  settle r s = Some s' ->
  view s' = view s /\ apiKey s' = apiKey s /\ storedApiKey s' = storedApiKey s
  /\ showApiKeyModal s' = showApiKeyModal s /\ capturedImage s' = capturedImage s
  /\ isLoading s' = false /\ pendingUploads s' = pendingUploads s.
Proof.
  destruct r as [msg|content|msg]; simpl.
  - intros H. inversion H; subst. simpl. auto 10.
  - destruct (normalize content); intros H; inversion H; subst. simpl. auto 10.
  - intros H. inversion H; subst. simpl. auto 10.
Qed.

(** The two continuations *)
Lemma step_settled s r s' effs :
  step s (Settled r) = Some (s', effs) ->
  exists s1, settle r s = Some s1 /\ s' = commit s s1 /\ effs = [].
Proof.
  unfold step. destruct (settle r s) as [s1|]; [|discriminate].
  intros H. inversion H. eauto.
Qed.

Lemma step_compressed s i s' effs :
  step s (Compressed i) = Some (s', effs) ->
  exists key f s1,
    nth_error (pendingUploads s) i = Some (key, f)
    /\ handleFileSelect_resume key f
         (set_pendingUploads (remove_nth i (pendingUploads s)) s) = (s1, effs)
    /\ s' = commit s s1.
Proof.
  unfold step. destruct (nth_error (pendingUploads s) i) as [[key f]|]; [|discriminate].
  destruct (handleFileSelect_resume key f _) as [s1 effs1] eqn:E.
  intros H. inversion H; subst. eauto 10.
Qed.

Lemma resume_frame key f s s1 effs :
  handleFileSelect_resume key f s = (s1, effs) ->
  App.carbData s1 = App.carbData s /\ storedApiKey s1 = storedApiKey s
  /\ apiKey s1 = apiKey s /\ pendingUploads s1 = pendingUploads s
  /\ isUploading s1 = false
  /\ ((compressed f = None /\ effs = [] /\ view s1 = view s
       /\ capturedImage s1 = capturedImage s)
      \/ (exists img, compressed f = Some img /\ effs = [Fetch key img]
          /\ view s1 = preview /\ capturedImage s1 = Some img
          /\ isLoading s1 = true /\ App.error s1 = None /\ rawResponse s1 = None)).
Proof.
  unfold handleFileSelect_resume, analyzeImage.
  destruct (compressed f) as [img|]; intros H; inversion H; subst; simpl.
  - repeat split. right. exists img. repeat split.
  - repeat split. left. repeat split.
Qed.

Lemma step_keeps_record s a s' effs :
  step s a = Some (s', effs) ->
  App.carbData s <> None -> App.carbData s' <> None.
Proof.
  intros H Hc. destruct a;
    try (unfold step, handleGalleryClick, capturePhoto, handleFileSelect,
           retryAnalysis, analyzeImage in H;
         step_cases H; inversion H; subst; simpl; assumption).
  - apply step_compressed in H. destruct H as (key & f & s1 & _ & Hr & ->).
    apply resume_frame in Hr. destruct Hr as (Hcd & _).
    apply (@commit_keeps (fun x => App.carbData x <> None)); [intros p; exact Hc|].
    rewrite Hcd. exact Hc.
  - apply step_settled in H. destruct H as (s1 & Hs & -> & _).
    apply (@commit_keeps (fun x => App.carbData x <> None)); [intros p; exact Hc|].
    eapply settle_keeps_record; eassumption.
Qed.

Lemma step_keeps_image s a s' effs :
  step s a = Some (s', effs) ->
  capturedImage s <> None -> capturedImage s' <> None.
Proof.
  intros H Hc. destruct a;
    try (unfold step, handleGalleryClick, capturePhoto, handleFileSelect,
           retryAnalysis, analyzeImage in H;
         step_cases H; inversion H; subst; simpl;
         solve [assumption | discriminate | congruence]).
  - apply step_compressed in H. destruct H as (key & f & s1 & _ & Hr & ->).
    apply resume_frame in Hr. destruct Hr as (_ & _ & _ & _ & _ & Hi).
    apply (@commit_keeps (fun x => capturedImage x <> None)); [intros p; exact Hc|].
    destruct Hi as [(_ & _ & _ & ->)|(img & _ & _ & _ & -> & _)];
      [exact Hc | discriminate].
  - apply step_settled in H. destruct H as (s1 & Hs & -> & _).
    apply (@commit_keeps (fun x => capturedImage x <> None)); [intros p; exact Hc|].
    destruct (settle_frame _ _ Hs) as (_ & _ & _ & _ & -> & _). exact Hc.
Qed.

Lemma step_views s a s' effs :
  step s a = Some (s', effs) ->
  (view s = details -> App.carbData s <> None) ->
  (view s = preview -> capturedImage s <> None) ->
  (view s' = details -> App.carbData s' <> None)
  /\ (view s' = preview -> capturedImage s' <> None).
Proof.
  intros H Hd Hp.
  pose proof (step_keeps_record _ _ H) as Hrec.
  pose proof (step_keeps_image _ _ H) as Himg.
  destruct a; try (
    destruct s as [v key0 sk m ci l u e cd rr pu];
    unfold step, handleGalleryClick, capturePhoto, handleFileSelect, retryAnalysis,
      analyzeImage, error_overlay in H;
    simpl in *; destruct m, v, ci, cd, l, e; simpl in *;
    rewrite ?andb_false_r, ?andb_true_r in H; step_cases H;
    inversion H; subst; simpl in *; split; intros;
    solve [discriminate | congruence | auto]).
  - apply step_compressed in H. destruct H as (key & f & s1 & _ & Hr & ->).
    apply resume_frame in Hr. destruct Hr as (Hcd & _ & _ & _ & _ & Hi).
    apply (@commit_keeps (fun x => (view x = details -> App.carbData x <> None)
                                   /\ (view x = preview -> capturedImage x <> None)));
      [intros p; split; assumption|].
    rewrite Hcd. destruct Hi as [(_ & _ & -> & ->)|(img & _ & _ & -> & -> & _)];
      split; auto; try discriminate.
  - apply step_settled in H. destruct H as (s1 & Hs & -> & _).
    apply (@commit_keeps (fun x => (view x = details -> App.carbData x <> None)
                                   /\ (view x = preview -> capturedImage x <> None)));
      [intros p; split; assumption|].
    destruct (settle_frame _ _ Hs) as (Hv & _ & _ & _ & Hi & _).
    rewrite Hv, Hi. split; [|exact Hp].
    intros Hview. eapply settle_keeps_record; eauto.
Qed.

Lemma run_invariant (P : State -> Prop) :
  (forall s a s' effs, step s a = Some (s', effs) -> P s -> P s') ->
  forall acts s tr, P s -> run s acts = Some tr -> Forall (fun st => P (fst st)) tr.
Proof.
  intros Hstep. induction acts as [|a acts IH]; intros s tr Hs H; simpl in H.
  - inversion H. constructor.
  - destruct (step s a) as [[s' effs]|] eqn:E; [|discriminate].
    destruct (run s' acts) as [tr'|] eqn:E'; [|discriminate].
    inversion H; subst. constructor; [simpl|]; eauto.
Qed.

(** A click that starts a request: Retry or the capture button, one
    request, with the key of the state *)
Lemma step_fetch s a s' effs key img :
  step s a = Some (s', effs) -> In (Fetch key img) effs ->
  (forall i, a <> Compressed i) ->
  key = apiKey s /\ capturedImage s' = Some img /\ view s' = preview
  /\ isLoading s' = true /\ App.error s' = None /\ rawResponse s' = None
  /\ App.carbData s' = App.carbData s
  /\ effs = [Fetch key img]
  /\ (a = ClickRetry \/ exists shot, a = ClickCapture shot).
Proof.
  intros H Hin Hi.
  destruct a; try (
    destruct s as [v key0 sk m ci l u e cd rr pu];
    unfold step, handleGalleryClick, capturePhoto, handleFileSelect, retryAnalysis,
      analyzeImage, error_overlay in H;
    simpl in *; destruct m, v; simpl in *; step_cases H;
    inversion H; subst; simpl in *;
    repeat match goal with
           | Hin : _ \/ _ |- _ => destruct Hin as [Hin|Hin]
           | Hin : False |- _ => destruct Hin
           | Hin : _ = Fetch _ _ |- _ => inversion Hin; subst; clear Hin
           end;
    solve [discriminate | repeat split; solve [congruence | eauto]]).
  exfalso. exact (Hi _ eq_refl).
Qed.

(** Only the file input and the decoder change the suspended calls: the
    one appends, the other removes. *)
Lemma step_pending s a s' effs :
  step s a = Some (s', effs) ->
  (forall i, a <> Compressed i) ->
  pendingUploads s' = pendingUploads s
  \/ (exists f, a = FileChosen (Some f) /\ is_image f = true
                /\ pendingUploads s' = pendingUploads s ++ [(apiKey s, f)]).
Proof.
  intros H Hi.
  destruct a; try (
    destruct s as [v key0 sk m ci l u e cd rr pu];
    unfold step, handleGalleryClick, capturePhoto, handleFileSelect, retryAnalysis,
      analyzeImage, error_overlay in H;
    simpl in *; destruct m, v; simpl in *; step_cases H;
    inversion H; subst; simpl in *;
    solve [left; reflexivity
          | right; eexists; split; [reflexivity|];
            split; [apply negb_false_iff; assumption | reflexivity]]).
  - exfalso. exact (Hi _ eq_refl).
  - left. apply step_settled in H. destruct H as (s1 & Hs & -> & _).
    rewrite commit_pending. apply (settle_frame _ _ Hs).
Qed.

Lemma last_cons_default {A} (l : list A) : forall x d d',
  last (x :: l) d = last (x :: l) d'.
Proof.
  induction l as [|y l IH]; intros x d d'; [reflexivity|].
  change (last (y :: l) d = last (y :: l) d'). apply IH.
Qed.

(** A suspended call stays where it is in the list as long as no call is
    resumed. *)
Lemma run_keeps_pending n entry : forall acts s tr,
  nth_error (pendingUploads s) n = Some entry ->
  Forall (fun a => forall i, a <> Compressed i) acts ->
  run s acts = Some tr ->
  nth_error (pendingUploads (last (map fst tr) s)) n = Some entry.
Proof.
  induction acts as [|a acts IH]; intros s tr Hn Hall H; simpl in H.
  - inversion H. exact Hn.
  - destruct (step s a) as [[s' effs]|] eqn:E; [|discriminate].
    destruct (run s' acts) as [tr'|] eqn:E'; [|discriminate].
    inversion H; subst. inversion Hall; subst.
    assert (Hn' : nth_error (pendingUploads s') n = Some entry).
    { destruct (@step_pending _ _ _ _ E ltac:(assumption)) as [->|(f & _ & _ & ->)];
        [exact Hn|].
      rewrite nth_error_app1; [exact Hn|].
      apply nth_error_Some. congruence. }
    specialize (IH s' tr' Hn' ltac:(assumption) E').
    simpl. destruct tr' as [|st tr'']; [exact Hn'|].
    rewrite <- IH. cbn [map].
    rewrite (last_cons_default (map fst tr'') (fst st) s s'). reflexivity.
Qed.

Lemma step_storage s a s' effs :
  step s a = Some (s', effs) ->
  storedApiKey s' = storedApiKey s
  \/ (a = ClickSave /\ apiKey s <> [] /\ storedApiKey s' = Some (apiKey s)).
Proof.
  intros H.
  destruct a; try (
    destruct s as [v key0 sk m ci l u e cd rr pu];
    unfold step, handleGalleryClick, capturePhoto, handleFileSelect, retryAnalysis,
      analyzeImage, error_overlay in H;
    simpl in *; destruct m, v; simpl in *; step_cases H;
    inversion H; subst; simpl in *;
    solve [left; reflexivity
          | right; repeat split; destruct key0; [discriminate | discriminate]]).
  - left. apply step_compressed in H. destruct H as (key & f & s1 & _ & Hr & ->).
    apply resume_frame in Hr. destruct Hr as (_ & Hst & _).
    apply (@commit_keeps (fun x => storedApiKey x = storedApiKey s));
      [intros p; reflexivity | exact Hst].
  - left. apply step_settled in H. destruct H as (s1 & Hs & -> & _).
    apply (@commit_keeps (fun x => storedApiKey x = storedApiKey s));
      [intros p; reflexivity | apply (settle_frame _ _ Hs)].
Qed.

(** A reply that gives a record puts the result card into the preview;
    the card can be tapped if it renders. *)
Lemma content_shown s content v err :
  renders s = true -> showApiKeyModal s = false -> view s = preview ->
  normalize content = Some (mkOutcome (Some v) err) ->
  exists s1,
    step s (Settled (Content content)) = Some (s1, [])
    /\ App.carbData s1 = Some v
    /\ view s1 = preview
    /\ error_overlay s1 = false
    /\ renders s1 = card_renders v
    /\ (card_renders v = true ->
        step s1 ClickResult = Some (set_view details s1, [])).
Proof.
  intros Hr Hm Hv Hn. eexists. split.
  { unfold step, settle, commit. rewrite Hn, Hr. reflexivity. }
  unfold step, error_overlay, renders.
  cbn [isLoading App.carbData App.error view showApiKeyModal Normalizer.carbData].
  rewrite Hm, Hv. cbn. rewrite andb_false_r.
  repeat split. intros ->. reflexivity.
Qed.

End AppRuns.

Module NameFacts.

Lemma rmatch_binds_name {icase n r} : binds_name n r = true ->
  forall {k e inp c res},
  rmatch icase r k e inp c = Some res ->
  exists e' i c' x d, k e' i c' = Some res /\ get_cap n c' = Some (x :: d)
                      /\ is_word x = true /\ forallb name_char d = true.
Proof.
  induction r as [|cs|r1 IH1 r2 IH2|r1 IH1 r2 IH2|r1 IH1|g cs|g cs|m r1 IH1];
    intros Hb k e inp c res H; simpl in Hb; try discriminate.
  - simpl in H. apply orb_true_iff in Hb. destruct Hb as [Hb|Hb].
    + apply andb_true_iff in Hb. destruct Hb as [Hb1 Hb2].
      apply negb_true_iff, not_mem_ids in Hb2.
      destruct (IH1 Hb1 _ _ _ _ _ H) as (e1 & i1 & c1 & x & d & Hk1 & Hg & Hd).
      destruct (rmatch_inv Hk1) as (p & i2 & c2 & _ & _ & Hk2 & Hc2).
      exists (e1 + length p), i2, c2, x, d. rewrite Hc2; auto.
    + destruct (rmatch_inv H) as (p & i1 & c1 & _ & _ & Hk1 & _).
      destruct (IH2 Hb _ _ _ _ _ Hk1) as (e2 & i2 & c2 & x & d & Hk2 & Hg & Hd).
      exists e2, i2, c2, x, d. auto.
  - destruct r1; try discriminate. destruct r1_1; try discriminate.
    destruct cs; try discriminate. destruct r1_2; try discriminate.
    destruct cs; try discriminate. destruct cs1; try discriminate.
    destruct cs2; try discriminate.
    apply Nat.eqb_eq in Hb. subst m. simpl in H.
    destruct inp as [|x rest]; [discriminate|].
    simpl in H. destruct (is_word x) eqn:Hx; [|discriminate].
    destruct (star_inv H) as (p & i & -> & Hp & Hk).
    destruct (star_inv Hk) as (p2 & i2 & -> & Hp2 & Hk2).
    eexists _, _, _, x, (p ++ p2). split; [exact Hk2|]. split; [|split; [exact Hx|]].
    + cbn [get_cap]. rewrite Nat.eqb_refl. f_equal. unfold capture_text.
      replace (S e + length p + length p2 - e) with (S (length (p ++ p2) + 0))
        by (rewrite length_app; lia).
      cbn [firstn]. rewrite app_assoc, firstn_app_2. simpl. rewrite app_nil_r.
      reflexivity.
    + rewrite forallb_app. apply andb_true_iff. split.
      * apply forallb_forall. intros a Ha. rewrite forallb_forall in Hp.
        specialize (Hp a Ha). simpl in Hp. unfold name_char. rewrite Hp.
        apply orb_true_r.
      * exact Hp2.
Qed.

Lemma forallb_drop_while (P p : code_unit -> bool) : forall t,
  forallb P t = true -> forallb P (drop_while p t) = true.
Proof.
  induction t as [|x t IH]; simpl; [reflexivity|].
  intros H. destruct (p x); [|exact H].
  apply andb_true_iff in H. apply IH, H.
Qed.

Lemma forallb_rev (P : code_unit -> bool) (t : text) :
  forallb P t = true -> forallb P (rev t) = true.
Proof.
  intros H. apply forallb_forall. intros a Ha. rewrite forallb_forall in H.
  apply H. apply in_rev. exact Ha.
Qed.

Lemma forallb_trim (P : code_unit -> bool) (t : text) :
  forallb P t = true -> forallb P (trim t) = true.
Proof.
  intros H. unfold trim.
  apply forallb_rev, forallb_drop_while, forallb_rev, forallb_drop_while, H.
Qed.

Lemma drop_while_head (p : code_unit -> bool) : forall t,
  match drop_while p t with x :: _ => p x = false | [] => True end.
Proof.
  induction t as [|x t IH]; simpl; [exact I|].
  destruct (p x) eqn:E; [exact IH | exact E].
Qed.

(** The text of a name group, trimmed *)
Lemma trim_name x d : is_word x = true -> forallb name_char d = true ->
  clean_name (trim (x :: d)) = true.
Proof.
  intros Hx Hd.
  assert (Hall : forallb name_char (trim (x :: d)) = true).
  { apply forallb_trim. simpl. unfold name_char at 1. rewrite Hx, orb_true_r. exact Hd. }
  unfold clean_name. rewrite Hall. simpl andb.
  pose proof (word_not_space _ Hx) as Hs.
  unfold trim in *. simpl drop_while in *. rewrite Hs in *.
  pose proof (drop_while_head is_space (rev (x :: d))) as Hh.
  assert (Hne : drop_while is_space (rev (x :: d)) <> []).
  { simpl rev. apply drop_while_last. exact Hs. }
  destruct (drop_while is_space (rev (x :: d))) as [|y l] eqn:E; [congruence|].
  assert (Hsub : exists pre, rev (x :: d) = pre ++ y :: l).
  { clear -E. revert E. generalize (rev (x :: d)). intros t.
    induction t as [|a t IH]; simpl; [discriminate|].
    destruct (is_space a).
    - intros H. destruct (IH H) as (pre & ->). exists (a :: pre). reflexivity.
    - intros H. inversion H; subst. exists []. reflexivity. }
  destruct Hsub as (pre & Hpre).
  assert (Hy : is_word y = true).
  { cbn [rev] in Hall. rewrite forallb_app in Hall.
    apply andb_true_iff in Hall. destruct Hall as [_ Hall]. simpl in Hall.
    rewrite andb_true_r in Hall. unfold name_char in Hall. rewrite Hh in Hall.
    exact Hall. }
  apply (f_equal (@rev _)) in Hpre. rewrite rev_involutive in Hpre.
  rewrite rev_app_distr in Hpre. cbn [rev] in Hpre. rewrite <- app_assoc in Hpre.
  cbn [rev].
  assert (Hhd : exists rest, rev l ++ [y] = x :: rest).
  { destruct (rev l) as [|z l'].
    - simpl in Hpre. exists []. simpl. inversion Hpre; reflexivity.
    - simpl in Hpre. inversion Hpre; subst. eexists. reflexivity. }
  destruct Hhd as (rest & Hrest).
  assert (Hlast : last (rev l ++ [y]) x = y) by apply last_last.
  rewrite Hrest in *. rewrite Hx, Hlast, Hy. reflexivity.
Qed.

Lemma item_name_clean {idx inp m} :
  match_here true foodItemRegex idx inp = Some m ->
  clean_name (name (item_of_match m)) = true.
Proof.
  intros Hm. destruct (match_here_inv Hm) as (Hr & _).
  destruct (rmatch_binds_name (n := 1) (r := foodItemRegex) eq_refl Hr)
    as (e & i & c & x & d & Hk & Hg & Hx & Hd).
  inversion Hk; subst. unfold item_of_match, cap, group. cbn [name].
  rewrite Hg. apply trim_name; assumption.
Qed.

End NameFacts.
Import NameFacts.


Module DisplayFacts.
Local Open Scope Z_scope.

Lemma exponent_lower n d :
  0 < n -> 0 < d -> d <= n * 2 ^ 1000 -> -1074 <= exponent n d.
Proof.
  intros Hn Hd Hle.
  destruct (Z.le_gt_cases (-1074) (exponent n d)) as [H|H]; [exact H | exfalso].
  destruct (exponent_spec Hn Hd) as [_ Hup].
  destruct (scale_num_cases n (exponent n d)) as [[H0 _]|[_ Hnum]]; [lia|].
  destruct (scale_den_cases d (exponent n d)) as [[H0 _]|[_ Hden]]; [lia|].
  rewrite Hnum, Hden in Hup.
  assert (Hpow : 2 ^ 1075 <= 2 ^ (- exponent n d)) by (apply Z.pow_le_mono_r; lia).
  assert (Hsplit : 2 ^ 1075 = 2 ^ 22 * (2 ^ 53 * 2 ^ 1000)).
  { rewrite <- !Z.pow_add_r by lia. reflexivity. }
  remember (2 ^ 1000) as B eqn:HB. remember (2 ^ (- exponent n d)) as A eqn:HA.
  remember (2 ^ 1075) as T eqn:HT.
  assert (HB0 : 0 < B) by (subst B; apply Z.pow_pos_nonneg; lia).
  assert (H53 : 2 ^ 53 = 9007199254740992) by reflexivity.
  assert (H22 : 2 ^ 22 = 4194304) by reflexivity.
  rewrite H53 in *. rewrite H22 in *. clear HB HA HT. nia.
Qed.

(** Away from the ends of the range, the binary64 nearest to a magnitude
    is its rounding to 53 bits. *)
Lemma round64_round53 (neg : bool) (x : Q) (K : Z) :
  (0 < x)%Q -> (x <= inject_Z K)%Q -> K < 2 ^ 52 ->
  (1 <= x * inject_Z (2 ^ 1000))%Q ->
  round64 neg x = FFin neg (round53 x).
Proof.
  intros Hpos HK HK52 Hlow.
  assert (H0 : (0 <= x)%Q) by (apply Qlt_le_weak, Hpos).
  assert (Hlt : (x < inject_Z (2 ^ 52))%Q).
  { eapply Qle_lt_trans; [exact HK|]. rewrite <- Zlt_Qlt. exact HK52. }
  destruct (round53_sandwich K H0 Hlt) as [_ Hround]. specialize (Hround HK).
  destruct x as [n d]. unfold Qlt in Hpos. simpl in Hpos. rewrite Z.mul_1_r in Hpos.
  unfold Qle in Hlow. cbn [Qnum Qden Qmult inject_Z] in Hlow.
  assert (Hd : Z.pos d <= n * 2 ^ 1000).
  { remember (2 ^ 1000) as B. rewrite Pos.mul_1_r in Hlow. lia. }
  pose proof (@exponent_lower n (Z.pos d) Hpos ltac:(lia) Hd) as He.
  unfold round64, round53 in *. cbn [Qnum Qden] in *.
  rewrite Z.abs_eq in Hround by lia.
  assert (E1 : (n <=? 0) = false) by (apply Z.leb_gt; lia).
  assert (E2 : (n =? 0) = false) by (apply Z.eqb_neq; lia).
  assert (E3 : (n <? 0) = false) by (apply Z.ltb_ge; lia).
  rewrite E1. rewrite E2, E3 in Hround. rewrite Z.abs_eq by lia. rewrite E2, E3.
  rewrite Z.max_l by lia.
  set (v := (inject_Z (round_ratio (scale_num n (exponent n (Z.pos d)))
                         (scale_den (Z.pos d) (exponent n (Z.pos d))))
             * pow2 (exponent n (Z.pos d)))%Q) in *.
  assert (Hno : Qle_bool (pow2 1024) v = false).
  { destruct (Qle_bool (pow2 1024) v) eqn:E; [|reflexivity]. exfalso.
    apply Qle_bool_iff in E. rewrite Qred_correct in Hround.
    assert (H : (pow2 1024 <= inject_Z K)%Q) by (eapply Qle_trans; eassumption).
    change (pow2 1024) with (inject_Z (2 ^ 1024)) in H. rewrite <- Zle_Qle in H.
    assert (2 ^ 52 < 2 ^ 1024) by (apply Z.pow_lt_mono_r; lia). lia. }
  rewrite Hno. reflexivity.
Qed.


Local Open Scope Q_scope.

Lemma inject_Z_pos (z : Z) : (0 < z)%Z -> 0 < inject_Z z.
Proof. intros H. change 0 with (inject_Z 0). rewrite <- Zlt_Qlt. exact H. Qed.

(** The quotient of two positive integers below [2^32], and its product
    with 100, as the language computes them *)
Lemma quotient_value (c w : Z) :
  (0 < c < 2 ^ 32)%Z -> (0 < w < 2 ^ 32)%Z ->
  exists f1 : Q,
    div (FFin false (inject_Z c)) (FFin false (inject_Z w)) = FFin false f1
    /\ 0 < f1 /\ f1 <= inject_Z c
    /\ inject_Z (2 ^ 53 - 1) * inject_Z c <= inject_Z (2 ^ 53) * f1 * inject_Z w
    /\ inject_Z (2 ^ 53) * f1 * inject_Z w <= inject_Z (2 ^ 53 + 1) * inject_Z c.
Proof.
  intros Hc Hw.
  pose proof (inject_Z_pos (proj1 Hc)) as Hqc.
  pose proof (inject_Z_pos (proj1 Hw)) as Hqw.
  set (x := inject_Z c / inject_Z w).
  assert (Hx0 : 0 < x).
  { apply Qlt_shift_div_l; [exact Hqw|]. rewrite Qmult_0_l. exact Hqc. }
  assert (HxK : x <= inject_Z c).
  { apply Qle_shift_div_r; [exact Hqw|]. rewrite <- inject_Z_mult, <- Zle_Qle. nia. }
  assert (Hxlow : 1 <= x * inject_Z (2 ^ 1000)).
  { unfold x. unfold Qdiv. rewrite <- Qmult_assoc, (Qmult_comm (/ inject_Z w)), Qmult_assoc.
    apply Qle_shift_div_l; [exact Hqw|]. rewrite Qmult_1_l.
    rewrite <- inject_Z_mult, <- Zle_Qle.
    assert (2 ^ 32 <= 2 ^ 1000)%Z by (apply Z.pow_le_mono_r; lia).
    remember (2 ^ 1000)%Z as B. nia. }
  exists (round53 x). split.
  { unfold div. assert (E : is_zeroq (inject_Z w) = false).
    { unfold is_zeroq, Qeq_bool. simpl. apply Z.eqb_neq. lia. }
    rewrite E. cbn [xorb]. fold x.
    apply (@round64_round53 false x c Hx0 HxK); [|exact Hxlow].
    assert (2 ^ 32 < 2 ^ 52)%Z by reflexivity. lia. }
  assert (Hlt : x < inject_Z (2 ^ 52)).
  { eapply Qle_lt_trans; [exact HxK|]. rewrite <- Zlt_Qlt.
    assert (2 ^ 32 < 2 ^ 52)%Z by reflexivity. lia. }
  destruct (round53_error Hx0 Hlt) as [Hlo Hhi].
  destruct (round53_sandwich c (Qlt_le_weak _ _ Hx0) Hlt) as [_ Hup].
  assert (Hden : ~ inject_Z w == 0) by (intros E; rewrite E in Hqw; discriminate).
  assert (Heq : forall k, k * inject_Z c == k * x * inject_Z w).
  { intros k. unfold x. field. exact Hden. }
  split; [|split; [exact (Hup HxK)|split]].
  - clear -Hlo Hx0. change (inject_Z (2 ^ 53 - 1)) with (9007199254740991 # 1) in Hlo.
    change (inject_Z (2 ^ 53)) with (9007199254740992 # 1) in Hlo.
    set (r := round53 x) in *. clearbody r x. lra.
  - rewrite (Heq (inject_Z (2 ^ 53 - 1))).
    apply Qmult_le_compat_r; [exact Hlo | apply Qlt_le_weak, Hqw].
  - rewrite (Heq (inject_Z (2 ^ 53 + 1))).
    apply Qmult_le_compat_r; [exact Hhi | apply Qlt_le_weak, Hqw].
Qed.

Lemma product_value (f1 : Q) (c w : Z) :
  (0 < c < 2 ^ 32)%Z -> (0 < w < 2 ^ 32)%Z ->
  0 < f1 -> f1 <= inject_Z c ->
  inject_Z (2 ^ 53 - 1) * inject_Z c <= inject_Z (2 ^ 53) * f1 * inject_Z w ->
  exists f2 : Q,
    mul (FFin false f1) (of_number (Int 100)) = FFin false f2
    /\ 0 < f2 /\ f2 <= inject_Z (100 * c)
    /\ inject_Z (2 ^ 53 - 1) * (f1 * inject_Z 100) <= inject_Z (2 ^ 53) * f2
    /\ inject_Z (2 ^ 53) * f2 <= inject_Z (2 ^ 53 + 1) * (f1 * inject_Z 100).
Proof.
  intros Hc Hw Hf0 HfK Hlo1.
  set (x := f1 * inject_Z 100).
  assert (Hx0 : 0 < x).
  { apply Qmult_lt_0_compat; [exact Hf0 | reflexivity]. }
  assert (HxK : x <= inject_Z (100 * c)).
  { unfold x. rewrite inject_Z_mult, Qmult_comm.
    apply Qmult_le_l; [reflexivity | exact HfK]. }
  assert (HK : (100 * c < 2 ^ 52)%Z).
  { assert (2 ^ 32 = 4294967296)%Z by reflexivity.
    assert (2 ^ 52 = 4503599627370496)%Z by reflexivity. lia. }
  assert (Hlow : 1 <= x * inject_Z (2 ^ 1000)).
  { (* f1 is at least 2^-33 *)
    assert (Hw' : inject_Z w <= inject_Z (2 ^ 32)) by (rewrite <- Zle_Qle; lia).
    assert (Hc' : 1 <= inject_Z c) by (change 1 with (inject_Z 1); rewrite <- Zle_Qle; lia).
    assert (Hf : 1 <= f1 * inject_Z (2 ^ 33)).
    { assert (Hm : inject_Z (2 ^ 53) * f1 * inject_Z w
                   <= inject_Z (2 ^ 53) * f1 * inject_Z (2 ^ 32)).
      { apply Qmult_le_l; [|exact Hw'].
        apply Qmult_lt_0_compat; [reflexivity | exact Hf0]. }
      change (inject_Z (2 ^ 53 - 1)) with (9007199254740991 # 1) in Hlo1.
      change (inject_Z (2 ^ 53)) with (9007199254740992 # 1) in *.
      change (inject_Z (2 ^ 32)) with (4294967296 # 1) in *.
      change (inject_Z (2 ^ 33)) with (8589934592 # 1).
      set (qc := inject_Z c) in *. set (qw := inject_Z w) in *.
      clearbody qc qw. clear -Hlo1 Hm Hc' Hf0. lra. }
    unfold x.
    assert (Hsplit : inject_Z (2 ^ 1000) == inject_Z (2 ^ 33) * inject_Z (2 ^ 967)).
    { rewrite <- inject_Z_mult, <- Z.pow_add_r by lia. reflexivity. }
    rewrite Hsplit.
    assert (H967 : 1 <= inject_Z (2 ^ 967)).
    { change 1 with (inject_Z 1). rewrite <- Zle_Qle.
      assert (0 < 2 ^ 967)%Z by (apply Z.pow_pos_nonneg; lia). lia. }
    change (inject_Z 100) with (100 # 1).
    set (B := inject_Z (2 ^ 967)) in *. set (A := inject_Z (2 ^ 33)) in *.
    assert (HA : 0 < A) by reflexivity.
    clearbody B A. clear -Hf H967 Hf0 HA.
    assert (1 * 1 <= (f1 * A) * B).
    { apply Qmult_le_compat_nonneg; split; try lra; assumption. } 
    nra. }
  exists (round53 x). split.
  { unfold mul, of_number. cbn [xorb]. change (Z.abs 100) with 100%Z.
    change (100 <? 0)%Z with false. cbn [xorb]. fold x.
    exact (@round64_round53 false x (100 * c) Hx0 HxK HK Hlow). }
  assert (Hlt : x < inject_Z (2 ^ 52)).
  { eapply Qle_lt_trans; [exact HxK|]. rewrite <- Zlt_Qlt. exact HK. }
  destruct (round53_error Hx0 Hlt) as [Hlo Hhi].
  destruct (round53_sandwich (100 * c) (Qlt_le_weak _ _ Hx0) Hlt) as [_ Hup].
  split; [|split; [exact (Hup HxK)|split; assumption]].
  clear -Hlo Hx0. change (inject_Z (2 ^ 53 - 1)) with (9007199254740991 # 1) in Hlo.
  change (inject_Z (2 ^ 53)) with (9007199254740992 # 1) in Hlo.
  set (r := round53 x) in *. clearbody r x. lra.
Qed.

Local Close Scope Q_scope.

(** The operations agree with those of [SpecFloat] on the samples, which
    include quotients below [2^-1022], products above [2^1024], zeros and
    infinities. *)
Lemma quotients_agree_on_samples : forallb same_quotient sample_items = true.
Proof. vm_compute. reflexivity. Qed.

End DisplayFacts.
Import DisplayFacts.

Module ItemFacts.

Lemma foodItemRegex_parts : foodItemRegex = Seq itemName itemTail0.
Proof. reflexivity. Qed.

(** A lazy star takes a whole run when what follows fails before the end
    of the run and goes on after it. *)
Lemma star_lazy_run {icase cs k} : forall run rest e c res,
  forallb (cs_match icase cs) run = true ->
  (forall a y b, run = a ++ y :: b -> k (e + length a) (y :: b ++ rest) c = None) ->
  k (e + length run) rest c = Some res ->
  star_lazy icase cs k e (run ++ rest) c = Some res.
Proof.
  induction run as [|x run IH]; intros rest e c res Hrun Hfail Hk; simpl in *.
  - rewrite Nat.add_0_r in Hk. destruct rest; simpl; [exact Hk|]. rewrite Hk. reflexivity.
  - apply andb_true_iff in Hrun. destruct Hrun as [Hx Hrun].
    pose proof (Hfail [] x run eq_refl) as H0. simpl in H0. rewrite Nat.add_0_r in H0.
    rewrite H0, Hx. apply IH; auto.
    + intros a y b ->. specialize (Hfail (x :: a) y b eq_refl).
      simpl in Hfail. rewrite <- Hfail. f_equal. lia.
    + rewrite <- Hk. f_equal. lia.
Qed.

Lemma itemTail3_unit e after c :
  rmatch true itemTail3 done e (of_string "g carbs" ++ after) c
  = Some (S (S (S (S (S (S (S e)))))), after,
          (7, (of_string "carbs" ++ after, S (S e), S (S (S (S (S (S (S e)))))))) :: c).
Proof. reflexivity. Qed.

Lemma head_not_digit (sp rest : text) (y : code_unit) :
  forallb is_space sp = true -> is_digit y = false ->
  match sp ++ y :: rest with
  | z :: _ => cs_match true CsDigit z = false
  | [] => True
  end.
Proof.
  intros Hsp Hy. destruct sp as [|z sp]; simpl; [exact Hy|].
  simpl in Hsp. apply andb_true_iff in Hsp. apply space_not_digit, Hsp.
Qed.

(** A group [(\d+)] at a digit run that something other than a digit
    follows *)
Lemma digits_group n (k : cont) ds rest e c res :
  digit_text ds ->
  match rest with z :: _ => is_digit z = false | [] => True end ->
  k (e + length ds) rest ((n, (ds ++ rest, e, e + length ds)) :: c) = Some res ->
  rmatch true (Group n digits) k e (ds ++ rest) c = Some res.
Proof.
  intros [Hne Hds] Hrest Hk. destruct ds as [|x ds]; [congruence|].
  simpl in Hds. apply andb_true_iff in Hds. destruct Hds as [Hx Hds].
  cbn [rmatch digits app cs_match]. rewrite Hx. unfold star.
  apply star_greedy_run; [exact Hds | | exact Hrest].
  rewrite <- Hk. simpl length. f_equal; [lia|].
  do 3 f_equal. lia.
Qed.

Lemma spaces_run (k : cont) sp rest e c res :
  forallb is_space sp = true ->
  match rest with z :: _ => is_space z = false | [] => True end ->
  k (e + length sp) rest c = Some res ->
  rmatch true ws k e (sp ++ rest) c = Some res.
Proof.
  intros Hsp Hrest Hk. cbn [rmatch ws]. unfold star.
  apply star_greedy_run; assumption.
Qed.

Lemma head_digit_not_space ds rest :
  digit_text ds ->
  match ds ++ rest with z :: _ => is_space z = false | [] => True end.
Proof.
  intros [Hne Hds]. destruct ds as [|x ds]; [congruence|]. simpl in *.
  apply andb_true_iff in Hds. apply digit_not_space, Hds.
Qed.

(** From the second number on *)
Lemma itemTail2_at cb after e c :
  digit_text cb ->
  rmatch true itemTail2 done e (cb ++ of_string "g carbs" ++ after) c
  = Some (S (S (S (S (S (S (S (e + length cb))))))), after,
          (7, (of_string "carbs" ++ after, S (S (e + length cb)),
               S (S (S (S (S (S (S (e + length cb))))))))) 
          :: (4, (cb ++ of_string "g carbs" ++ after, e, e + length cb)) :: c).
Proof.
  intros Hcb. unfold itemTail2. cbn [rmatch].
  apply (@digits_group 4 (fun e1 i c1 => rmatch true itemTail3 done e1 i c1));
    [exact Hcb | reflexivity | apply itemTail3_unit].
Qed.

(** From the first unit on *)
Lemma itemTail1_at sp2 cb after e c :
  forallb is_space sp2 = true -> digit_text cb ->
  rmatch true itemTail1 done e
    (of_string "g," ++ sp2 ++ cb ++ of_string "g carbs" ++ after) c
  = Some (S (S (S (S (S (S (S (S (S e + length sp2) + length cb))))))), after,
          (7, (of_string "carbs" ++ after, S (S (S (S e + length sp2) + length cb)),
               S (S (S (S (S (S (S (S (S e + length sp2) + length cb))))))))) 
          :: (4, (cb ++ of_string "g carbs" ++ after, S (S e) + length sp2,
                  S (S e) + length sp2 + length cb)) :: c).
Proof.
  intros Hsp Hcb. unfold itemTail1.
  cbn [rmatch ws star star_greedy lit of_string list_ascii_of_string map fold_right
       cs_match app].
  change (is_space (N_of_ascii "g")) with false. cbv iota.
  change (N.eqb (canonicalize (N_of_ascii "g")) (canonicalize (N_of_ascii "g"))) with true.
  cbv iota.
  change (N.eqb (canonicalize (N_of_ascii ",")) (canonicalize (N_of_ascii "r"))) with false.
  cbv iota.
  change (N.eqb (canonicalize (N_of_ascii ",")) (canonicalize (N_of_ascii ","))) with true.
  cbv iota.
  apply star_greedy_run; [exact Hsp | | apply head_digit_not_space, Hcb].
  apply itemTail2_at. exact Hcb.
Qed.

(** From the colon on *)
Lemma itemTail0_at sp1 wt sp2 cb after e c :
  forallb is_space sp1 = true -> digit_text wt ->
  forallb is_space sp2 = true -> digit_text cb ->
  exists e7 c7,
  rmatch true itemTail0 done e
    (of_string ":" ++ sp1 ++ wt ++ of_string "g," ++ sp2 ++ cb
     ++ of_string "g carbs" ++ after) c
  = Some (e + (10 + length sp1 + length wt + length sp2 + length cb), after,
          (7, c7) :: (4, (cb ++ of_string "g carbs" ++ after, e7, e7 + length cb))
          :: (2, (wt ++ of_string "g," ++ sp2 ++ cb ++ of_string "g carbs" ++ after,
                  S e + length sp1, S e + length sp1 + length wt)) :: c).
Proof.
  intros Hsp1 Hwt Hsp2 Hcb. eexists. eexists. unfold itemTail0.
  cbn [rmatch lit of_string list_ascii_of_string map fold_right cs_match app].
  change (N.eqb (canonicalize (N_of_ascii ":")) (canonicalize (N_of_ascii ":"))) with true.
  cbv iota.
  apply spaces_run; [exact Hsp1 | apply head_digit_not_space, Hwt |].
  apply digits_group; [exact Hwt | reflexivity|].
  etransitivity; [apply (@itemTail1_at sp2 cb after); assumption|].
  match goal with
  | |- Some (?a, _, _) = Some (?b, _, _) => replace b with a by lia
  end.
  reflexivity.
Qed.

Lemma word_span : forall l : text,
  exists p q, l = p ++ q /\ forallb is_word p = true
              /\ match q with z :: _ => is_word z = false | [] => True end.
Proof.
  induction l as [|x l (p & q & -> & Hp & Hq)].
  - exists [], []. auto.
  - destruct (is_word x) eqn:Hx.
    + exists (x :: p), q. simpl. rewrite Hx, Hp. auto.
    + exists [], (x :: p ++ q). simpl. auto.
Qed.

Lemma name_char_not_colon y : name_char y = true -> N.eqb (canonicalize y) 58 = false.
Proof.
  intros H. apply N.eqb_neq. unfold canonicalize.
  destruct (in_range 97 122 y) eqn:E.
  - range_bounds E. lia.
  - intros ->. vm_compute in H. discriminate.
Qed.

Lemma firstn_exact (p i : text) : firstn (length p) (p ++ i) = p.
Proof.
  replace (length p) with (length p + 0) by lia.
  rewrite firstn_app_2. simpl. apply app_nil_r.
Qed.

Lemma item_line_app nm sp1 wt sp2 cb after :
  item_line nm sp1 wt sp2 cb ++ after
  = nm ++ of_string ":" ++ sp1 ++ wt ++ of_string "g," ++ sp2 ++ cb
    ++ of_string "g carbs" ++ after.
Proof. unfold item_line. rewrite <- !app_assoc. reflexivity. Qed.

Lemma item_line_length nm sp1 wt sp2 cb :
  length (item_line nm sp1 wt sp2 cb)
  = length nm + (10 + length sp1 + length wt + length sp2 + length cb).
Proof. unfold item_line. rewrite !length_app. simpl. lia. Qed.

(** The item pattern at a line of its form *)
Lemma foodItemRegex_at_line x nm sp1 wt sp2 cb after idx :
  is_word x = true -> forallb name_char nm = true ->
  forallb is_space sp1 = true -> digit_text wt ->
  forallb is_space sp2 = true -> digit_text cb ->
  exists m,
    match_here true foodItemRegex idx (item_line (x :: nm) sp1 wt sp2 cb ++ after)
    = Some m
    /\ cap 1 m = x :: nm /\ cap 2 m = wt /\ cap 4 m = cb
    /\ m_rest m = after
    /\ m_end m = idx + length (item_line (x :: nm) sp1 wt sp2 cb).
Proof.
  intros Hx Hnm Hsp1 Hwt Hsp2 Hcb.
  rewrite item_line_app, item_line_length.
  set (rest0 := of_string ":" ++ sp1 ++ wt ++ of_string "g," ++ sp2 ++ cb
                ++ of_string "g carbs" ++ after).
  set (inp := (x :: nm) ++ rest0).
  assert (Hmatch : exists e7 c7,
    rmatch true foodItemRegex done 0 inp []
    = Some (S (length nm) + (10 + length sp1 + length wt + length sp2 + length cb),
            after,
            [(7, c7); (4, (cb ++ of_string "g carbs" ++ after, e7, e7 + length cb));
             (2, (wt ++ of_string "g," ++ sp2 ++ cb ++ of_string "g carbs" ++ after,
                  S (S (length nm)) + length sp1,
                  S (S (length nm)) + length sp1 + length wt));
             (1, (inp, 0, S (length nm)))])).
  { destruct (word_span nm) as (p & q & Hpq & Hp & Hq).
    assert (Hqall : forallb (cs_match true nameClass) q = true).
    { rewrite Hpq, forallb_app in Hnm. apply andb_true_iff in Hnm. apply Hnm. }
    subst nm. unfold inp. clear inp. rewrite length_app.
    destruct (@itemTail0_at sp1 wt sp2 cb after (S (length p + length q))
                [(1, ((x :: p ++ q) ++ rest0, 0, S (length p + length q)))]
                Hsp1 Hwt Hsp2 Hcb) as (e7 & c7 & Htail).
    fold rest0 in Htail. exists e7, c7.
    rewrite foodItemRegex_parts. unfold itemName.
    cbn [rmatch app cs_match]. rewrite Hx. unfold star.
    rewrite <- app_assoc.
    apply star_greedy_run; [exact Hp | |].
    - apply star_lazy_run; [exact Hqall | |].
      + intros a y b Hq'. unfold itemTail0.
        cbn [rmatch lit of_string list_ascii_of_string map fold_right cs_match app].
        change (canonicalize (N_of_ascii ":")) with 58%N.
        rewrite name_char_not_colon; [reflexivity|].
        rewrite Hq' in Hqall. rewrite forallb_app in Hqall.
        apply andb_true_iff in Hqall. destruct Hqall as [_ Hy]. simpl in Hy.
        apply andb_true_iff in Hy. apply Hy.
      + cbv beta. rewrite app_assoc. exact Htail.
    - destruct q as [|z q]; [reflexivity | exact Hq]. }
  destruct Hmatch as (e7 & c7 & Hmatch).
  unfold match_here. fold done. rewrite Hmatch.
  eexists. split; [reflexivity|]. unfold cap, group.
  cbn [m_caps m_rest m_end get_cap Nat.eqb capture_text].
  repeat split.
  - unfold inp. rewrite Nat.sub_0_r. apply (firstn_exact (x :: nm)).
  - replace (S (S (length nm)) + length sp1 + length wt - (S (S (length nm)) + length sp1))
      with (length wt) by lia.
    apply firstn_exact.
  - replace (e7 + length cb - e7) with (length cb) by lia. apply firstn_exact.
Qed.

Lemma search_nothing (sep : text) idx :
  forallb (fun c => negb (is_word c)) sep = true ->
  search_from true foodItemRegex idx sep = None.
Proof.
  intros Hsep.
  pose proof (search_skip _ foodItemRegex_starts_with_word sep idx [] Hsep) as H.
  rewrite app_nil_r in H. rewrite H. reflexivity.
Qed.

(** A name with a word character at both ends is left as it is. *)
Lemma trim_clean nm : clean_name nm = true -> trim nm = nm.
Proof.
  unfold clean_name. intros H. apply andb_true_iff in H. destruct H as [_ H].
  destruct nm as [|x nm]; [discriminate|].
  apply andb_true_iff in H. destruct H as [Hx Hl].
  apply word_not_space in Hx, Hl.
  unfold trim. simpl drop_while. rewrite Hx.
  assert (Hrev : exists l, rev (x :: nm) = last (x :: nm) x :: l).
  { destruct (exists_last (l := x :: nm) ltac:(discriminate)) as (l' & a & E).
    rewrite E, last_last, rev_app_distr. simpl. eauto. }
  destruct Hrev as (l & Hrev). rewrite Hrev. cbn [drop_while]. rewrite Hl.
  rewrite <- Hrev. apply rev_involutive.
Qed.

End ItemFacts.
Import ItemFacts.

(* ----------------------------------------------------------------- *)
(** ** Properties *)

(** X1.  On a text with no digit in it none of the five patterns of the
    fallback matches, so the fallback returns [fallbackData] as it was
    initialised: total 30, fiber 5, sugar 10, starch 15 and the one item
    "Unknown food item" (100, 30, low).  When neither parse succeeds on such
    a response (a refusal in prose, say) this is the record the page shows,
    with the estimate note. *)
Theorem text_without_digits_gets_defaults (t : text) :
  no_digit t = true ->
  generateEstimatedCarbData t = Some fallbackData
  /\ (try_parse t = None -> embedded_parse t = None ->
      normalize t = Some (mkOutcome (Some (Estimated fallbackData)) (Some estimateNote))).
Proof.
  intros Ht.
  assert (Hgen : generateEstimatedCarbData t = Some fallbackData).
  { unfold generateEstimatedCarbData. rewrite exec_loop_S.
    rewrite (search_needs_digit (r := foodItemRegex) eq_refl _ _ Ht).
    unfold assemble, str_match.
    rewrite (search_needs_digit (r := carbRegex) eq_refl _ _ Ht).
    rewrite (search_needs_digit (r := fiberRegex) eq_refl _ _ Ht).
    rewrite (search_needs_digit (r := sugarRegex) eq_refl _ _ Ht).
    rewrite (search_needs_digit (r := starchRegex) eq_refl _ _ Ht).
    reflexivity. }
  split; [exact Hgen|]. intros Hp He.
  destruct (normalize_cases t)
    as [(v & Hv & _)|[(v & _ & Hv & _)|(d & _ & _ & Hd & Hn)]]; try congruence.
Qed.

(** X1 at a refusal *)
Lemma text_without_digits_gets_defaults_witness :
  no_digit (of_string "I am sorry, I cannot analyse this image.") = true
  /\ generateEstimatedCarbData (of_string "I am sorry, I cannot analyse this image.")
     = Some fallbackData
  /\ normalize (of_string "I am sorry, I cannot analyse this image.")
     = Some (mkOutcome (Some (Estimated fallbackData)) (Some estimateNote)).
Proof.
  split; [reflexivity|].
  destruct (@text_without_digits_gets_defaults
              (of_string "I am sorry, I cannot analyse this image.") eq_refl)
    as [Hgen Hnorm].
  split; [exact Hgen|]. apply Hnorm; reflexivity.
Defined.

(** X2.  The total is read from the first digit run that is followed, after
    optional white space, by "g carbs": when no digit before the run is
    followed by white space, a letter g or the end of what precedes the
    run, totalCarbs is the value of the run, whatever the breakdown holds,
    and exactly so for up to 15 digits.  Digits before a decimal point or a
    thousands separator are such a prefix: in "12.5g carbs" the total is
    5. *)
Theorem fallback_reads_the_first_amount (before ds sp after : text) :
  no_amount before = true -> digit_text ds -> forallb is_space sp = true ->
  exists d,
    generateEstimatedCarbData (before ++ ds ++ sp ++ of_string "g carbs" ++ after)
    = Some d
    /\ totalCarbs d = Number_value (decimal_value ds)
    /\ (length ds <= 15 -> totalCarbs d = Int (decimal_value ds)).
Proof.
  intros Hb Hds Hsp.
  set (t := before ++ ds ++ sp ++ of_string "g carbs" ++ after).
  destruct (generateEstimatedCarbData_returns t) as (items & _ & Hgen).
  exists (assemble t items). split; [exact Hgen|].
  destruct (@carbRegex_at_number ds sp after (0 + length before) Hds Hsp) as (m & Hm & Hcap).
  assert (Hs : str_match true carbRegex t = Some m).
  { unfold str_match, t. rewrite carbRegex_skips by exact Hb.
    apply search_from_here, Hm. }
  assert (Ht : totalCarbs (assemble t items) = Number_value (decimal_value ds)).
  { unfold assemble. cbn [totalCarbs]. rewrite Hs. cbn [is_some negb andb update].
    rewrite Hcap. apply parseInt_digits, Hds. }
  split; [exact Ht|]. intros Hlen. rewrite Ht.
  destruct Hds as [_ Hds]. pose proof (decimal_value_bound _ Hds) as Hbound.
  unfold Number_value.
  assert (10 ^ Z.of_nat (length ds) <= 10 ^ 15)%Z by (apply Z.pow_le_mono_r; lia).
  assert ((Z.abs (decimal_value ds) <? 2 ^ 53)%Z = true) as ->; [|reflexivity].
  apply Z.ltb_lt. rewrite Z.abs_eq by lia.
  assert (10 ^ 15 < 2 ^ 53)%Z by reflexivity. lia.
Qed.

(** X2 at "About 12.5g carbs in total": the total is 5 *)
Lemma fallback_reads_the_first_amount_witness :
  no_amount (of_string "About 12.") = true
  /\ digit_text (of_string "5")
  /\ forallb is_space [] = true
  /\ exists d,
    generateEstimatedCarbData (of_string "About 12.5g carbs in total") = Some d
    /\ totalCarbs d = Int 5.
Proof.
  split; [reflexivity|]. split; [split; [discriminate | reflexivity]|].
  split; [reflexivity|].
  destruct (@fallback_reads_the_first_amount
              (of_string "About 12.") (of_string "5") [] (of_string " in total"))
    as (d & Hd & _ & Ht); try reflexivity.
  - split; [discriminate | reflexivity].
  - exists d. split; [exact Hd|]. apply Ht. simpl. lia.
Defined.

(** X3.  The fallback does not depend on the case of ASCII letters: for two
    texts that differ in it only, the totals and the breakdowns are equal,
    and the items correspond one to one with equal weights, carbs and
    confidence and with names that differ in case only. *)
Theorem fallback_ignores_case (t t' : text) :
  same_letters t t' ->
  exists d d',
    generateEstimatedCarbData t = Some d
    /\ generateEstimatedCarbData t' = Some d'
    /\ totalCarbs d' = totalCarbs d
    /\ breakdown d' = breakdown d
    /\ Forall2 (fun i i' =>
                  same_letters (name i) (name i') /\ weight i' = weight i
                  /\ carbs i' = carbs i /\ confidence i' = confidence i)
         (foodItems d) (foodItems d').
Proof.
  intros Ht.
  destruct (generateEstimatedCarbData_returns t) as (items & Hloop & Hgen).
  destruct (generateEstimatedCarbData_returns t') as (items' & Hloop' & Hgen').
  exists (assemble t items), (assemble t' items').
  split; [exact Hgen|]. split; [exact Hgen'|].
  assert (Hitems : Forall2 result_rel items items').
  { pose proof (@exec_loop_rel foodItemRegex (S (length t)) 0 t t' Ht) as H.
    rewrite (Forall2_length Ht) in H at 2. rewrite Hloop, Hloop' in H. exact H. }
  destruct (@update_same carbRegex t t' (Int 30) eq_refl Ht) as [Hc1 Hc2].
  destruct (@update_same fiberRegex t t' (Int 5) eq_refl Ht) as [Hf1 Hf2].
  destruct (@update_same sugarRegex t t' (Int 10) eq_refl Ht) as [Hs1 Hs2].
  destruct (@update_same starchRegex t t' (Int 15) eq_refl Ht) as [Hst1 Hst2].
  unfold assemble. cbn [totalCarbs breakdown foodItems].
  rewrite Hc1, Hc2, Hf1, Hf2, Hs1, Hs2, Hst1, Hst2.
  split; [reflexivity|]. split; [reflexivity|].
  assert (Hd : Forall (fun m => digit_text (cap 2 m) /\ digit_text (cap 4 m)) items).
  { destruct (exec_loop_inv foodItemRegex_consumes Hloop) as [Hall _].
    eapply Forall_impl; [|exact Hall]. simpl. intros m (_ & _ & Hm). split.
    - exact (match_cap_digits 2 (r := foodItemRegex) eq_refl Hm).
    - exact (match_cap_digits 4 (r := foodItemRegex) eq_refl Hm). }
  pose proof (items_same Hitems Hd) as Hrel.
  destruct Hrel as [|i i' l l' Hi Hl].
  - constructor; [|constructor]. repeat split. apply same_letters_refl.
  - constructor; assumption.
Qed.

(** X3 at a line and its upper-case version *)
Lemma fallback_ignores_case_witness :
  same_letters (of_string "Rice: 200g, 45g carbs. Total 45 g of carbs")
               (of_string "RICE: 200G, 45G CARBS. TOTAL 45 G OF CARBS")
  /\ exists d d',
    generateEstimatedCarbData (of_string "Rice: 200g, 45g carbs. Total 45 g of carbs")
    = Some d
    /\ generateEstimatedCarbData (of_string "RICE: 200G, 45G CARBS. TOTAL 45 G OF CARBS")
       = Some d'
    /\ totalCarbs d' = totalCarbs d
    /\ breakdown d' = breakdown d
    /\ Forall2 (fun i i' =>
                  same_letters (name i) (name i') /\ weight i' = weight i
                  /\ carbs i' = carbs i /\ confidence i' = confidence i)
         (foodItems d) (foodItems d').
Proof.
  assert (H : same_letters (of_string "Rice: 200g, 45g carbs. Total 45 g of carbs")
                (of_string "RICE: 200G, 45G CARBS. TOTAL 45 G OF CARBS")).
  { repeat constructor. }
  split; [exact H|]. exact (fallback_ignores_case H).
Defined.

(** X4.  The matches that the item loop turns into items do not overlap:
    each starts where the one before it ended or later, each spans at least
    12 characters and ends inside the text, so a text of [n] characters
    yields at most [n / 12] items. *)
Theorem fallback_items_do_not_overlap (t : text) :
  exists items d,
    exec_loop true (S (length t)) foodItemRegex 0 t = Some items
    /\ generateEstimatedCarbData t = Some d
    /\ (items <> [] -> foodItems d = map item_of_match items)
    /\ StronglySorted (fun a b => m_end a <= m_index b) items
    /\ Forall (fun m => m_index m + 12 <= m_end m /\ m_end m <= length t) items
    /\ 12 * length items <= length t.
Proof.
  destruct (generateEstimatedCarbData_returns t) as (items & Hloop & Hgen).
  exists items, (assemble t items). split; [exact Hloop|]. split; [exact Hgen|].
  destruct (exec_loop_spans _ _ _ Hloop) as (Hsorted & Hall & Hcount).
  change (min_len foodItemRegex) with 12 in *.
  repeat split; auto.
  - intros Hne. rewrite foodItems_assemble. destruct items; [congruence | reflexivity].
  - eapply Forall_impl; [|exact Hall]. simpl. intros m (_ & H1 & H2). lia.
Qed.

(** X5.  Whatever record the parse stage hands over, its [foodItems] is
    truthy: a parsed object has the property, holding a truthy value (the
    empty array where the response had none or a falsy one); a parsed array
    has it as the empty array; the record of the fallback has a non-empty
    list. *)
Theorem record_has_foodItems (content : text) (v : carb_value) (err : option text) :
  normalize content = Some (mkOutcome (Some v) err) ->
  match v with
  | ParsedObject fields =>
      exists w, get_field foodItemsKey fields = Some w /\ truthy w = true
  | ParsedArray _ w => w = JArray []
  | Estimated d => foodItems d <> []
  end.
Proof.
  intros Hn.
  assert (Hensure : forall x w, ensure_foodItems x = Some w ->
    match w with
    | ParsedObject fields =>
        exists y, get_field foodItemsKey fields = Some y /\ truthy y = true
    | ParsedArray _ y => y = JArray []
    | Estimated d => foodItems d <> []
    end).
  { intros x w H. destruct x; simpl in H; try discriminate.
    - inversion H. reflexivity.
    - destruct (get_field foodItemsKey fields) as [y|] eqn:Hf.
      + destruct (truthy y) eqn:Hy; inversion H; subst.
        * exists y. auto.
        * exists (JArray []). rewrite get_set_field. auto.
      + inversion H; subst. exists (JArray []). rewrite get_set_field. auto. }
  assert (Hparse : forall t w, try_parse t = Some w ->
    match w with
    | ParsedObject fields =>
        exists y, get_field foodItemsKey fields = Some y /\ truthy y = true
    | ParsedArray _ y => y = JArray []
    | Estimated d => foodItems d <> []
    end).
  { intros t w H. unfold try_parse in H.
    destruct (JSON_parse t) as [x|]; [|discriminate]. exact (Hensure _ _ H). }
  destruct (normalize_cases content)
    as [(w & Hw & Hn')|[(w & _ & Hw & Hn')|(d & _ & _ & Hd & Hn')]];
    rewrite Hn' in Hn; inversion Hn; subst.
  - exact (Hparse _ _ Hw).
  - unfold embedded_parse in Hw.
    destruct (str_match false jsonRegex content) as [m|]; [|discriminate].
    exact (Hparse _ _ Hw).
  - destruct (generateEstimatedCarbData_returns content) as (items & Hloop & Hgen).
    rewrite Hgen in Hd. inversion Hd; subst. apply (assemble_ok Hloop).
Qed.

(** X5 at an object whose [foodItems] is [null] *)
Lemma record_has_foodItems_witness :
  normalize (json_text "{'totalCarbs': 12, 'foodItems': null}")
  = Some (mkOutcome
            (Some (ParsedObject
               [(of_string "totalCarbs", JNumber (mkDecimal false 12 0));
                (foodItemsKey, JArray [])]))
            None)
  /\ exists w,
       get_field foodItemsKey
         [(of_string "totalCarbs", JNumber (mkDecimal false 12 0));
          (foodItemsKey, JArray [])] = Some w
       /\ truthy w = true.
Proof.
  split; [vm_compute; reflexivity|].
  apply (@record_has_foodItems (json_text "{'totalCarbs': 12, 'foodItems': null}")
           (ParsedObject [(of_string "totalCarbs", JNumber (mkDecimal false 12 0));
                          (foodItemsKey, JArray [])]) None).
  vm_compute. reflexivity.
Defined.

(** X6.  In every state in which the page is mounted, a response that
    carries content ends the request with a record in the state: the
    loading flag is reset, the raw response stored, the record set and the
    view unchanged.  The error becomes the estimate note when the record is
    the fallback's and is otherwise left as it was: after a parse nothing
    clears it.  In the preview the result card, not the error overlay, is
    then what is shown; it renders unless the record's totalCarbs is an
    object, and a tap on it then sets the view to details. *)
Theorem content_response_shows_a_record (s : App.State) (content : text) :
  App.renders s = true ->
  exists s' v,
    App.step s (App.Settled (App.Content content)) = Some (s', [])
    /\ App.isLoading s' = false
    /\ App.rawResponse s' = Some content
    /\ App.carbData s' = Some v
    /\ ((App.error s' = App.error s /\ forall d, v <> Estimated d)
        \/ (App.error s' = Some estimateNote /\ exists d, v = Estimated d))
    /\ App.view s' = App.view s
    /\ (App.showApiKeyModal s = false -> App.view s = App.preview ->
        App.error_overlay s' = false
        /\ App.renders s' = card_renders v
        /\ (card_renders v = true ->
            App.step s' App.ClickResult = Some (App.set_view App.details s', []))).
Proof.
  intros Hr.
  assert (Ho : exists o v, normalize content = Some o /\ Normalizer.carbData o = Some v
               /\ ((Normalizer.error o = None /\ forall d, v <> Estimated d)
                   \/ (Normalizer.error o = Some estimateNote /\ exists d, v = Estimated d))).
  { destruct (normalize_cases content)
      as [(v & Ht & Hn)|[(v & _ & He & Hn)|(d & _ & _ & _ & Hn)]].
    - eexists. exists v. split; [exact Hn|]. split; [reflexivity|]. left.
      split; [reflexivity|]. intros d ->. exact (try_parse_not_estimated _ Ht eq_refl).
    - eexists. exists v. split; [exact Hn|]. split; [reflexivity|]. left.
      split; [reflexivity|]. intros d ->.
      exact (embedded_parse_not_estimated _ He eq_refl).
    - eexists. exists (Estimated d). split; [exact Hn|]. split; [reflexivity|].
      right. split; [reflexivity|]. eauto. }
  destruct Ho as (o & v & Hn & Hc & He).
  exists (App.mkState (App.view s) (App.apiKey s) (App.storedApiKey s)
            (App.showApiKeyModal s) (App.capturedImage s) false (App.isUploading s)
            (match Normalizer.error o with
             | Some note => Some note
             | None => App.error s
             end)
            (Normalizer.carbData o) (Some content) (App.pendingUploads s)), v.
  split.
  { unfold App.step, App.settle, App.commit. rewrite Hn, Hr. reflexivity. }
  cbn [App.isLoading App.rawResponse App.carbData App.error App.view].
  split; [reflexivity|]. split; [reflexivity|]. split; [exact Hc|]. split.
  { destruct He as [[-> Hv]|[-> Hv]]; auto. }
  split; [reflexivity|].
  intros Hm Hv. unfold App.step, App.error_overlay, App.renders.
  cbn [App.isLoading App.rawResponse App.carbData App.error App.view App.showApiKeyModal].
  rewrite Hm, Hv, Hc. cbn. rewrite andb_false_r.
  repeat split. intros ->. reflexivity.
Qed.

(** X6 at a reply that arrives after an earlier request has failed: the
    record is shown and the error of the other request stays beside it *)
Lemma content_response_shows_a_record_witness :
  exists s0,
    App.final (App.initial (Some testKey)) overlapping = Some s0
    /\ App.renders s0 = true
    /\ App.error s0 = Some serverError
    /\ exists s' v,
      App.step s0 (App.Settled (App.Content sampleRecord)) = Some (s', [])
      /\ App.isLoading s' = false
      /\ App.rawResponse s' = Some sampleRecord
      /\ App.carbData s' = Some v
      /\ ((App.error s' = App.error s0 /\ forall d, v <> Estimated d)
          \/ (App.error s' = Some estimateNote /\ exists d, v = Estimated d))
      /\ App.view s' = App.view s0
      /\ (App.showApiKeyModal s0 = false -> App.view s0 = App.preview ->
          App.error_overlay s' = false
          /\ App.renders s' = card_renders v
          /\ (card_renders v = true ->
              App.step s' App.ClickResult = Some (App.set_view App.details s', [])))
      /\ App.error s' = Some serverError.
Proof.
  eexists. split; [vm_compute; reflexivity|].
  split; [reflexivity|]. split; [reflexivity|].
  match goal with
  | |- exists s' v, App.step ?s0 _ = _ /\ _ =>
      destruct (@content_response_shows_a_record s0 sampleRecord eq_refl)
        as (s' & v & H1 & H2 & H3 & H4 & H5 & H6 & H7)
  end.
  exists s', v. repeat (split; [assumption|]).
  vm_compute in H1. inversion H1. reflexivity.
Defined.

(** X7.  No handler clears the analysis record.  Once a record is set, every
    later state of every run has one, so the error overlay of the preview
    is never shown again and its Retry button cannot be pressed: after a
    failed request the page shows the record of an earlier photo. *)
Theorem record_is_never_cleared (s : App.State) (acts : list App.action)
    (tr : list (App.State * list App.effect)) :
  App.carbData s <> None ->
  App.run s acts = Some tr ->
  Forall (fun st => App.carbData (fst st) <> None
                    /\ App.error_overlay (fst st) = false
                    /\ App.step (fst st) App.ClickRetry = None) tr.
Proof.
  intros Hs Hrun.
  pose proof (@AppRuns.run_invariant (fun s => App.carbData s <> None)
                AppRuns.step_keeps_record acts s tr Hs Hrun) as Hall.
  eapply Forall_impl; [|exact Hall]. simpl. intros [s' effs] Hc. simpl in *.
  assert (Ho : App.error_overlay s' = false).
  { unfold App.error_overlay. destruct (App.carbData s'); [|congruence].
    simpl. apply andb_false_r. }
  repeat split; auto.
  unfold App.step. rewrite Ho.
  destruct (App.renders s'), (App.showApiKeyModal s'), (App.view s');
    reflexivity.
Qed.

(** X7 at a second photo whose request fails *)
Lemma record_is_never_cleared_witness :
  App.carbData analysed <> None
  /\ exists tr,
      App.run analysed failed_retake = Some tr
      /\ Forall (fun st => App.carbData (fst st) <> None
                           /\ App.error_overlay (fst st) = false
                           /\ App.step (fst st) App.ClickRetry = None) tr.
Proof.
  split; [discriminate|]. eexists. split; [vm_compute; reflexivity|].
  apply (@record_is_never_cleared analysed failed_retake); [discriminate|].
  vm_compute. reflexivity.
Defined.

(** X8.  In every run of the page from its first render, the details view
    is only entered with a record to show and the preview only with a
    captured image. *)
Theorem views_have_their_data (saved : option text) (acts : list App.action)
    (tr : list (App.State * list App.effect)) :
  App.run (App.initial saved) acts = Some tr ->
  Forall (fun st =>
            (App.view (fst st) = App.details -> App.carbData (fst st) <> None)
            /\ (App.view (fst st) = App.preview -> App.capturedImage (fst st) <> None))
         tr.
Proof.
  intros Hrun.
  refine (@AppRuns.run_invariant
            (fun s => (App.view s = App.details -> App.carbData s <> None)
                      /\ (App.view s = App.preview -> App.capturedImage s <> None))
            _ acts (App.initial saved) tr _ Hrun).
  - intros s a s' effs Hstep [Hd Hp]. exact (@AppRuns.step_views _ _ _ _ Hstep Hd Hp).
  - simpl. split; discriminate.
Qed.

(** X8 at a first visit that ends in the details view *)
Lemma views_have_their_data_witness :
  exists tr,
    App.run (App.initial None) first_visit = Some tr
    /\ Forall (fun st =>
            (App.view (fst st) = App.details -> App.carbData (fst st) <> None)
            /\ (App.view (fst st) = App.preview -> App.capturedImage (fst st) <> None))
         tr
    /\ option_map (fun tr => App.view (fst (last tr (App.initial None, []))))
         (Some tr) = Some App.details.
Proof.
  eexists. split; [vm_compute; reflexivity|]. split.
  - apply (@views_have_their_data None first_visit). vm_compute. reflexivity.
  - reflexivity.
Defined.

(** X9.  Three events start a request: the capture button, Retry, and the
    resumption of an upload once its image is compressed.  Each starts
    exactly one request and leaves the record untouched; while the page is
    mounted it is left in the preview with the image of the request as the
    captured image, the loading flag set and the error and the raw
    response cleared.  The two clicks send the key the state holds at that
    moment; the upload sends the key its suspended call holds. *)
Theorem request_postcondition (s : App.State) (a : App.action) (s' : App.State)
    (effs : list App.effect) (key img : text) :
  App.step s a = Some (s', effs) ->
  In (App.Fetch key img) effs ->
  effs = [App.Fetch key img]
  /\ App.carbData s' = App.carbData s
  /\ (App.renders s = true ->
      App.capturedImage s' = Some img
      /\ App.view s' = App.preview
      /\ App.isLoading s' = true
      /\ App.error s' = None
      /\ App.rawResponse s' = None)
  /\ ((key = App.apiKey s
       /\ (a = App.ClickRetry \/ exists shot, a = App.ClickCapture shot))
      \/ (exists i f, a = App.Compressed i
            /\ nth_error (App.pendingUploads s) i = Some (key, f)
            /\ App.compressed f = Some img)).
Proof.
  intros H Hin.
  assert (Hc : (exists i, a = App.Compressed i) \/ forall i, a <> App.Compressed i).
  { destruct a; try (right; intros i; discriminate). left. eauto. }
  destruct Hc as [[i ->]|Hc].
  - apply AppRuns.step_compressed in H. destruct H as (k & f & s1 & Hn & Hr & ->).
    apply AppRuns.resume_frame in Hr.
    destruct Hr as (Hcd & _ & _ & _ & _ & [(_ & -> & _)|(img' & Hf & -> & Hrest)]);
      [destruct Hin|].
    destruct Hin as [Hin|[]]. inversion Hin; subst k img'.
    split; [reflexivity|]. split.
    { apply (@AppRuns.commit_keeps (fun x => App.carbData x = App.carbData s));
        [reflexivity | exact Hcd]. }
    split.
    { intros Hm. unfold App.commit. rewrite Hm.
      destruct Hrest as (? & ? & ? & ? & ?). auto. }
    right. exists i, f. auto.
  - destruct (@AppRuns.step_fetch _ _ _ _ _ _ H Hin Hc)
      as (H1 & H2 & H3 & H4 & H5 & H6 & H7 & H8 & H9).
    split; [exact H8|]. split; [exact H7|]. split; [auto|]. left. auto.
Qed.

(** X9 at a capture with a key in the state *)
Lemma request_postcondition_witness :
  exists s',
    App.step (App.initial (Some testKey)) (App.ClickCapture (Some photo))
    = Some (s', [App.Fetch testKey photo])
    /\ In (App.Fetch testKey photo) [App.Fetch testKey photo]
    /\ [App.Fetch testKey photo] = [App.Fetch testKey photo]
    /\ App.carbData s' = App.carbData (App.initial (Some testKey))
    /\ (App.renders (App.initial (Some testKey)) = true ->
        App.capturedImage s' = Some photo
        /\ App.view s' = App.preview
        /\ App.isLoading s' = true
        /\ App.error s' = None
        /\ App.rawResponse s' = None)
    /\ ((testKey = App.apiKey (App.initial (Some testKey))
         /\ (App.ClickCapture (Some photo) = App.ClickRetry
             \/ exists shot, App.ClickCapture (Some photo) = App.ClickCapture shot))
        \/ (exists i f, App.ClickCapture (Some photo) = App.Compressed i
              /\ nth_error (App.pendingUploads (App.initial (Some testKey))) i
                 = Some (testKey, f)
              /\ App.compressed f = Some photo)).
Proof.
  eexists. split; [vm_compute; reflexivity|]. split; [left; reflexivity|].
  eapply (@request_postcondition (App.initial (Some testKey))
            (App.ClickCapture (Some photo))).
  - vm_compute. reflexivity.
  - left. reflexivity.
Defined.

(** X10.  The saved key changes only through Save, which is enabled only
    for a non-empty key: in a run from a page whose storage does not hold
    the empty text, no state stores the empty text, and without a Save the
    stored key stays what it was, whatever is typed. *)
Theorem storage_holds_only_saved_keys (saved : option text) (acts : list App.action)
    (tr : list (App.State * list App.effect)) :
  saved <> Some [] ->
  App.run (App.initial saved) acts = Some tr ->
  Forall (fun st => App.storedApiKey (fst st) <> Some []
                    /\ (~ In App.ClickSave acts -> App.storedApiKey (fst st) = saved))
         tr.
Proof.
  intros Hsaved.
  assert (G : forall acts s tr,
    App.storedApiKey s <> Some [] -> App.run s acts = Some tr ->
    Forall (fun st => App.storedApiKey (fst st) <> Some []
              /\ (~ In App.ClickSave acts -> App.storedApiKey (fst st) = App.storedApiKey s))
           tr).
  { clear. induction acts as [|a acts' IH]; intros s tr Hs H; simpl in H.
    - inversion H. constructor.
    - destruct (App.step s a) as [[s' effs]|] eqn:E; [|discriminate].
      destruct (App.run s' acts') as [tr'|] eqn:E'; [|discriminate].
      inversion H; subst. clear H.
      assert (Hs' : App.storedApiKey s' <> Some []).
      { destruct (@AppRuns.step_storage _ _ _ _ E) as [->|(_ & Hk & ->)]; congruence. }
      assert (Hsame : a <> App.ClickSave -> App.storedApiKey s' = App.storedApiKey s).
      { intros Ha. destruct (@AppRuns.step_storage _ _ _ _ E) as [?|(? & _)]; congruence. }
      constructor; simpl.
      + split; [exact Hs'|]. intros Hn. apply Hsame. intros ->. apply Hn. auto.
      + eapply Forall_impl; [|exact (IH _ _ Hs' E')]. simpl.
        intros st [H1 H2]. split; [exact H1|]. intros Hn.
        rewrite H2 by (intros Hin; apply Hn; auto).
        apply Hsame. intros ->. apply Hn. auto. }
  intros Hrun. exact (G acts (App.initial saved) tr Hsaved Hrun).
Qed.

(** X10 at the run in which a key is typed, used and cleared but never
    saved *)
Lemma storage_holds_only_saved_keys_witness :
  @None text <> Some []
  /\ exists tr,
    App.run (App.initial None) retry_after_clearing_key = Some tr
    /\ Forall (fun st => App.storedApiKey (fst st) <> Some []
                    /\ (~ In App.ClickSave retry_after_clearing_key
                        -> App.storedApiKey (fst st) = None))
         tr.
Proof.
  split; [discriminate|]. eexists. split; [vm_compute; reflexivity|].
  apply (@storage_holds_only_saved_keys None retry_after_clearing_key);
    [discriminate | vm_compute; reflexivity].
Defined.

(** X11.  The image URL of the request is "data:image/jpeg;base64," followed
    by what stands between the first and the second comma of the source:
    for a source with one comma, the text after it, so that a JPEG data
    URL is sent as it is; for a source without a comma, the text
    "undefined". *)
Theorem image_url_of_data_url (hdr payload rest s : text) :
  ~ In comma hdr -> ~ In comma payload -> ~ In comma s ->
  image_url (hdr ++ comma :: payload)
  = of_string "data:image/jpeg;base64," ++ payload
  /\ image_url (hdr ++ comma :: payload ++ comma :: rest)
     = of_string "data:image/jpeg;base64," ++ payload
  /\ image_url s = of_string "data:image/jpeg;base64,undefined".
Proof.
  intros Hh Hp Hs. unfold image_url, base64Image. repeat split.
  - rewrite split_at_first, split_no_sep by assumption. reflexivity.
  - rewrite !split_at_first by assumption. reflexivity.
  - rewrite split_no_sep by assumption. reflexivity.
Qed.

(** X11 at a JPEG data URL and at a source without a comma *)
Lemma image_url_of_data_url_witness :
  ~ In comma (of_string "data:image/jpeg;base64")
  /\ ~ In comma (of_string "AAAA")
  /\ ~ In comma (of_string "blob:abc")
  /\ image_url photo = photo
  /\ image_url (of_string "blob:abc") = of_string "data:image/jpeg;base64,undefined".
Proof.
  assert (H1 : ~ In comma (of_string "data:image/jpeg;base64")).
  { intros H. vm_compute in H. repeat (destruct H as [H|H]; [discriminate H|]). exact H. }
  assert (H2 : ~ In comma (of_string "AAAA")).
  { intros H. vm_compute in H. repeat (destruct H as [H|H]; [discriminate H|]). exact H. }
  assert (H3 : ~ In comma (of_string "blob:abc")).
  { intros H. vm_compute in H. repeat (destruct H as [H|H]; [discriminate H|]). exact H. }
  destruct (@image_url_of_data_url (of_string "data:image/jpeg;base64")
              (of_string "AAAA") [] (of_string "blob:abc") H1 H2 H3) as (Ha & _ & Hc).
  repeat split; assumption.
Defined.

Section CanvasSizeMore.
Local Open Scope Z_scope.

(** X12.  An image wider or higher than 1200 pixels is scaled so that one
    side of the canvas is exactly 1200. *)
Theorem compressImage_fills_the_box (w h : Z) :
  1200 < w \/ 1200 < h ->
  fst (compressImage w h) = 1200 \/ snd (compressImage w h) = 1200.
Proof.
  intros Hbig. unfold compressImage, scaled.
  destruct (fgt (inject_Z w) maxWidth) eqn:E1.
  - destruct (fgt (fdiv (fmul (inject_Z h) maxWidth) (inject_Z w)) maxHeight).
    + right. reflexivity.
    + left. reflexivity.
  - destruct (fgt (inject_Z h) maxHeight) eqn:E2.
    + right. reflexivity.
    + exfalso. apply fgt_false in E1, E2. unfold maxWidth, maxHeight in *.
      rewrite <- Zle_Qle in E1, E2. lia.
Qed.

(** X12 at 1300 by 1700, where both scaling steps run *)
Lemma compressImage_fills_the_box_witness :
  (1200 < 1300 \/ 1200 < 1700)
  /\ (fst (compressImage 1300 1700) = 1200 \/ snd (compressImage 1300 1700) = 1200).
Proof.
  split; [left; lia|]. apply (@compressImage_fills_the_box 1300 1700). left. lia.
Defined.

(** X13.  When one scaling step suffices the scaled side is exact, the
    rounding of the two floating-point operations notwithstanding: an image
    wider than 1200 and no higher than wide gets the canvas
    [1200 x floor(h * 1200 / w)], and an image no wider than 1200 and
    higher than 1200 the canvas [floor(w * 1200 / h) x 1200]. *)
Theorem compressImage_one_step_is_exact (w h : Z) :
  0 <= w < 2 ^ 32 -> 0 <= h < 2 ^ 32 ->
  (1200 < w -> h <= w -> compressImage w h = (1200, h * 1200 / w))
  /\ (w <= 1200 -> 1200 < h -> compressImage w h = (w * 1200 / h, 1200)).
Proof.
  intros Hw Hh. split.
  - intros Hbig Hle. unfold compressImage, scaled.
    assert (E1 : fgt (inject_Z w) maxWidth = true).
    { unfold fgt, maxWidth. apply negb_true_iff.
      destruct (Qle_bool (inject_Z w) (inject_Z 1200)) eqn:E; [|reflexivity].
      apply Qle_bool_iff in E. rewrite <- Zle_Qle in E. lia. }
    rewrite E1.
    destruct (@scale_step_floor w h ltac:(lia) ltac:(lia)) as [Hfloor Hr].
    fold maxWidth in Hfloor, Hr.
    assert (E2 : fgt (fdiv (fmul (inject_Z h) maxWidth) (inject_Z w)) maxHeight = false).
    { unfold fgt. apply negb_false_iff, Qle_bool_iff. exact Hr. }
    rewrite E2, Hfloor. reflexivity.
  - intros Hsmall Hbig. unfold compressImage, scaled.
    assert (E1 : fgt (inject_Z w) maxWidth = false).
    { unfold fgt, maxWidth. apply negb_false_iff, Qle_bool_iff.
      rewrite <- Zle_Qle. exact Hsmall. }
    rewrite E1.
    assert (E2 : fgt (inject_Z h) maxHeight = true).
    { unfold fgt, maxHeight. apply negb_true_iff.
      destruct (Qle_bool (inject_Z h) (inject_Z 1200)) eqn:E; [|reflexivity].
      apply Qle_bool_iff in E. rewrite <- Zle_Qle in E. lia. }
    rewrite E2.
    destruct (@scale_step_floor h w ltac:(lia) ltac:(lia)) as [Hfloor _].
    fold maxHeight in Hfloor. rewrite Hfloor. reflexivity.
Qed.

(** X13 at 4032 by 3024: 1200 by 900 *)
Lemma compressImage_one_step_is_exact_witness :
  0 <= 4032 < 2 ^ 32 /\ 0 <= 3024 < 2 ^ 32
  /\ (1200 < 4032 -> 3024 <= 4032 -> compressImage 4032 3024 = (1200, 900))
  /\ (4032 <= 1200 -> 1200 < 3024 -> compressImage 4032 3024 = (4032 * 1200 / 3024, 1200)).
Proof.
  split; [lia|]. split; [lia|]. apply (@compressImage_one_step_is_exact 4032 3024); lia.
Defined.

(** X14.  The canvas can lose its height: for an image wider than 1200 and
    no higher than wide, the canvas height is 0 exactly when the image is
    more than 1200 times as wide as it is high. *)
Theorem compressImage_can_lose_a_side (w h : Z) :
  1200 < w < 2 ^ 32 -> 0 <= h <= w ->
  (snd (compressImage w h) = 0 <-> h * 1200 < w).
Proof.
  intros Hw Hh. unfold compressImage, scaled.
  assert (E1 : fgt (inject_Z w) maxWidth = true).
  { unfold fgt, maxWidth. apply negb_true_iff.
    destruct (Qle_bool (inject_Z w) (inject_Z 1200)) eqn:E; [|reflexivity].
    apply Qle_bool_iff in E. rewrite <- Zle_Qle in E. lia. }
  rewrite E1.
  destruct (@scale_step_floor w h ltac:(lia) ltac:(lia)) as [Hfloor Hr].
  fold maxWidth in Hfloor, Hr.
  assert (E2 : fgt (fdiv (fmul (inject_Z h) maxWidth) (inject_Z w)) maxHeight = false).
  { unfold fgt. apply negb_false_iff, Qle_bool_iff. exact Hr. }
  rewrite E2. cbn [snd]. rewrite Hfloor.
  split; intros H.
  - apply Z.div_small_iff in H; lia.
  - apply Z.div_small. lia.
Qed.

(** X14 at 6000 by 4 *)
Lemma compressImage_can_lose_a_side_witness :
  1200 < 6000 < 2 ^ 32 /\ 0 <= 4 <= 6000
  /\ (snd (compressImage 6000 4) = 0 <-> 4 * 1200 < 6000).
Proof.
  split; [lia|]. split; [lia|]. apply (@compressImage_can_lose_a_side 6000 4); lia.
Defined.

(** X20.  When both scaling steps run (an image wider than 1200 and higher
    than wide) the canvas is 1200 high and its width is the integer
    quotient [floor(1200 * w / h)] or one less; it is the quotient
    whenever [h] does not divide [1200 * w].  The canvas is never wider
    than the exact ratio gives. *)
Theorem compressImage_two_steps (w h : Z) :
  1200 < w -> w < h < 2 ^ 32 ->
  let k := 1200 * w / h in
  snd (compressImage w h) = 1200
  /\ (fst (compressImage w h) = k \/ fst (compressImage w h) = k - 1)
  /\ ((1200 * w) mod h <> 0 -> fst (compressImage w h) = k).
Proof.
  intros Hw Hh k. unfold compressImage, scaled.
  assert (E1 : fgt (inject_Z w) maxWidth = true).
  { unfold fgt, maxWidth. apply negb_true_iff.
    destruct (Qle_bool (inject_Z w) (inject_Z 1200)) eqn:E; [|reflexivity].
    apply Qle_bool_iff in E. rewrite <- Zle_Qle in E. lia. }
  rewrite E1.
  pose proof (@first_step_above w h ltac:(lia) Hh) as Habove.
  pose proof (@scale_step w h ltac:(lia) ltac:(lia)) as Hs. cbv zeta in Hs.
  fold maxWidth in Hs.
  set (h1 := fdiv (fmul (inject_Z h) maxWidth) (inject_Z w)) in *.
  destruct Hs as (_ & _ & _ & _ & _ & Herr).
  destruct (Herr ltac:(lia)) as [A1 A2].
  assert (E2 : fgt h1 maxHeight = true).
  { unfold fgt, maxHeight. apply negb_true_iff.
    destruct (Qle_bool h1 (inject_Z 1200)) eqn:E; [|reflexivity].
    apply Qle_bool_iff in E. exfalso. apply (Qlt_irrefl h1).
    eapply Qle_lt_trans; eassumption. }
  rewrite E2. cbn [fst snd].
  pose proof (@second_step w h h1 ltac:(lia) Hh Habove A1 A2) as Hs2.
  cbv zeta in Hs2. fold k in Hs2.
  pose proof (@second_step_below w h h1 ltac:(lia) Hh Habove A1) as Hup.
  fold k in Hup.
  set (w2 := fdiv (fmul maxWidth maxHeight) h1) in *.
  destruct Hs2 as (S0 & S1200 & _ & Slow & Sexact & Hk).
  assert (Hk0 : 0 <= k) by (subst k; apply Z.div_pos; lia).
  destruct (@to_unsigned_long_floor w2 0 1200 ltac:(lia) ltac:(lia) S0 S1200) as [_ ->].
  assert (Hmod : (1200 * w) mod h = 1200 * w - k * h).
  { subst k. rewrite Z.mod_eq by lia. lia. }
  split; [reflexivity|]. split.
  - destruct (Z.eq_dec (k * h) (1200 * w)) as [Heq|Hne].
    + assert (Hle : (inject_Z k <= w2)%Q \/ (w2 < inject_Z k)%Q).
      { destruct (Qlt_le_dec w2 (inject_Z k)); [right|left]; assumption. }
      destruct Hle as [Hle|Hlt].
      * left. apply Qfloor_between; assumption.
      * right. apply Qfloor_between; [apply Sexact, Heq|].
        replace (k - 1 + 1) with k by lia. exact Hlt.
    + left. apply Qfloor_between; [apply Slow; lia | exact Hup].
  - intros Hrem. apply Qfloor_between; [apply Slow; lia | exact Hup].
Qed.

(** X20 at 1701 by 4050, where the exact width is 504 and the canvas is
    503 wide *)
Lemma compressImage_two_steps_witness :
  1200 < 1701 /\ 1701 < 4050 < 2 ^ 32
  /\ snd (compressImage 1701 4050) = 1200
  /\ (fst (compressImage 1701 4050) = 504 \/ fst (compressImage 1701 4050) = 504 - 1)
  /\ ((1200 * 1701) mod 4050 <> 0 -> fst (compressImage 1701 4050) = 504)
  /\ compressImage 1701 4050 = (503, 1200).
Proof.
  split; [lia|]. split; [lia|].
  pose proof (@compressImage_two_steps 1701 4050 ltac:(lia) ltac:(lia)) as H.
  cbv zeta in H. change (1200 * 1701 / 4050) with 504 in H.
  destruct H as (H1 & H2 & H3).
  split; [exact H1|]. split; [exact H2|]. split; [exact H3|].
  vm_compute. reflexivity.
Defined.

End CanvasSizeMore.

(** X15.  Every item name of the fallback consists of word characters and
    white space only and has a word character at both ends: the white
    space around it is trimmed and no punctuation gets into it (of
    "Brown-rice: 200g, 45g carbs" the name is "rice"). *)
Theorem fallback_names_are_clean (t : text) :
  exists d,
    generateEstimatedCarbData t = Some d
    /\ Forall (fun i => clean_name (name i) = true) (foodItems d).
Proof.
  destruct (generateEstimatedCarbData_returns t) as (items & Hloop & Hgen).
  exists (assemble t items). split; [exact Hgen|].
  rewrite foodItems_assemble.
  destruct (exec_loop_inv foodItemRegex_consumes Hloop) as [Hall _].
  assert (Hnames : Forall (fun i => clean_name (name i) = true)
                     (map item_of_match items)).
  { rewrite Forall_map. eapply Forall_impl; [|exact Hall]. simpl.
    intros m (_ & _ & Hm). exact (item_name_clean Hm). }
  destruct (map item_of_match items); [|exact Hnames].
  constructor; [reflexivity | constructor].
Qed.

(** X16.  The item card divides by the weight unchecked.  For an item of a
    fallback record whose weight is 0, the carbohydrates per 100 g are
    shown as "NaN" when its carbs are 0 too and as "Infinity" otherwise. *)
Theorem item_without_weight_shows_no_number (t : text) (d : CarbData) (item : FoodItem) :
  generateEstimatedCarbData t = Some d ->
  In item (foodItems d) ->
  weight item = Int 0 ->
  (carbs item = Int 0 /\ carbsPer100g item = Shown (of_string "NaN"))
  \/ (positive (carbs item) = true
      /\ carbsPer100g item = Shown (of_string "Infinity")).
Proof.
  intros Hgen Hin Hw.
  destruct (generateEstimatedCarbData_returns t) as (items & Hloop & Hgen').
  rewrite Hgen' in Hgen. inversion Hgen; subst d. clear Hgen.
  destruct (assemble_ok Hloop) as (_ & _ & _ & _ & _ & Hitems).
  rewrite Forall_forall in Hitems. destruct (Hitems item Hin) as (_ & _ & Hc & _).
  unfold carbsPer100g. rewrite Hw.
  destruct (carbs item) as [| |z| |]; try discriminate.
  - simpl in Hc. apply Z.leb_le in Hc.
    destruct (Z.eq_dec z 0) as [->|Hz]; [left; split; reflexivity|].
    right. split; [simpl; apply Z.ltb_lt; lia|].
    unfold of_number. rewrite Z.abs_eq by lia.
    assert ((z <? 0)%Z = false) as -> by (apply Z.ltb_ge; lia).
    unfold div.
    assert (E : is_zeroq (inject_Z z) = false).
    { unfold is_zeroq, Qeq_bool. simpl. apply Z.eqb_neq. lia. }
    change (is_zeroq (inject_Z (Z.abs 0))) with true. cbv iota. rewrite E.
    reflexivity.
  - right. split; reflexivity.
Qed.

(** X16 at "Rice: 0g, 45g carbs" *)
Lemma item_without_weight_shows_no_number_witness :
  exists d item,
    generateEstimatedCarbData zeroWeight = Some d
    /\ In item (foodItems d)
    /\ weight item = Int 0
    /\ ((carbs item = Int 0 /\ carbsPer100g item = Shown (of_string "NaN"))
        \/ (positive (carbs item) = true
            /\ carbsPer100g item = Shown (of_string "Infinity"))).
Proof.
  eexists. eexists.
  assert (Hgen : generateEstimatedCarbData zeroWeight
                 = Some (mkCarbData (Int 45) (mkBreakdown (Int 5) (Int 10) (Int 15))
                           [mkFoodItem (of_string "Rice") (Int 0) (Int 45) (Some low)]))
    by (vm_compute; reflexivity).
  split; [exact Hgen|]. split; [left; reflexivity|]. split; [reflexivity|].
  eapply (@item_without_weight_shows_no_number zeroWeight);
    [exact Hgen | left; reflexivity | reflexivity].
Defined.

Section PerHundred.
Local Open Scope Z_scope.

(** X17.  For an item with carbs [c] and a weight [w] above 0, both below
    [2^32], the item card shows the carbohydrates per 100 g as a decimal
    with one place, [n / 10], which is within 0.0502 of the exact
    [100 * c / w]: the two roundings of the division and the multiplication
    add less than 0.0002 to the half unit of [toFixed(1)]. *)
Theorem carbsPer100g_is_accurate (item : FoodItem) (c w : Z) :
  carbs item = Int c -> weight item = Int w ->
  0 <= c < 2 ^ 32 -> 0 < w < 2 ^ 32 ->
  exists n,
    carbsPer100g item
    = Shown (decimal_text (n / 10) ++ of_string "." ++ decimal_text (n mod 10))
    /\ 0 <= n
    /\ 512 * Z.abs (n * w - 1000 * c) <= 257 * w.
Proof.
  intros Hcarbs Hweight Hc Hw. unfold carbsPer100g. rewrite Hcarbs, Hweight.
  assert (Ec : of_number (Int c) = FFin false (inject_Z c)).
  { unfold of_number. rewrite Z.abs_eq by lia.
    assert ((c <? 0) = false) as -> by (apply Z.ltb_ge; lia). reflexivity. }
  assert (Ew : of_number (Int w) = FFin false (inject_Z w)).
  { unfold of_number. rewrite Z.abs_eq by lia.
    assert ((w <? 0) = false) as -> by (apply Z.ltb_ge; lia). reflexivity. }
  rewrite Ec, Ew.
  destruct (Z.eq_dec c 0) as [->|Hne].
  - exists 0. split; [|lia].
    assert (Ediv : div (FFin false (inject_Z 0)) (FFin false (inject_Z w))
                   = FFin false 0).
    { unfold div. assert (E : is_zeroq (inject_Z w) = false).
      { unfold is_zeroq, Qeq_bool. simpl. apply Z.eqb_neq. lia. }
      rewrite E. cbn [xorb]. unfold round64.
      assert (En : Qnum (inject_Z 0 / inject_Z w) = 0) by reflexivity.
      rewrite En. reflexivity. }
    rewrite Ediv. reflexivity.
  - destruct (@quotient_value c w ltac:(lia) Hw) as (f1 & -> & Hf0 & HfK & A1 & A2).
    destruct (@product_value f1 c w ltac:(lia) Hw Hf0 HfK A1)
      as (f2 & -> & Hg0 & HgK & B1 & B2).
    exists (tenths f2).
    assert (Hsmall : Qle_bool (inject_Z (10 ^ 21)) f2 = false).
    { destruct (Qle_bool (inject_Z (10 ^ 21)) f2) eqn:E; [|reflexivity]. exfalso.
      apply Qle_bool_iff in E.
      assert (H : (inject_Z (10 ^ 21) <= inject_Z (100 * c))%Q)
        by (eapply Qle_trans; eassumption).
      rewrite <- Zle_Qle in H.
      assert (2 ^ 32 = 4294967296) by reflexivity.
      assert (10 ^ 21 = 1000000000000000000000) by reflexivity. lia. }
    unfold toFixed1. rewrite Hsmall. cbn [andb app]. split; [reflexivity|].
    (* the integer shown, against the exact quotient *)
    set (n := tenths f2).
    assert (C1 : (inject_Z n <= f2 * 10 + (1 # 2))%Q) by apply Qfloor_le.
    assert (C2 : (f2 * 10 + (1 # 2) < inject_Z (n + 1))%Q) by apply Qlt_floor.
    assert (Hn0 : 0 <= n).
    { unfold n, tenths. rewrite <- (Qfloor_Z 0). apply Qfloor_resp_le.
      change (inject_Z 0) with 0%Q. clear -Hg0. lra. }
    split; [exact Hn0|].
    assert (Hqw : (1 <= inject_Z w)%Q)
      by (change 1%Q with (inject_Z 1); rewrite <- Zle_Qle; lia).
    assert (Hqc : (inject_Z c <= 4294967295 # 1)%Q)
      by (change (4294967295 # 1)%Q with (inject_Z 4294967295); rewrite <- Zle_Qle;
          assert (2 ^ 32 = 4294967296) by reflexivity; lia).
    assert (Hqc0 : (0 <= inject_Z c)%Q)
      by (change 0%Q with (inject_Z 0); rewrite <- Zle_Qle; lia).
    (* multiply the bounds on [f2] and on [n] by [w] *)
    assert (B1w : (inject_Z (2 ^ 53 - 1) * (f1 * inject_Z 100) * inject_Z w
                   <= inject_Z (2 ^ 53) * f2 * inject_Z w)%Q).
    { apply Qmult_le_compat_r; [exact B1 | clear -Hqw; lra]. }
    assert (B2w : (inject_Z (2 ^ 53) * f2 * inject_Z w
                   <= inject_Z (2 ^ 53 + 1) * (f1 * inject_Z 100) * inject_Z w)%Q).
    { apply Qmult_le_compat_r; [exact B2 | clear -Hqw; lra]. }
    assert (C1w : (inject_Z n * inject_Z w <= (f2 * 10 + (1 # 2)) * inject_Z w)%Q).
    { apply Qmult_le_compat_r; [exact C1 | clear -Hqw; lra]. }
    assert (C2w : ((f2 * 10 + (1 # 2)) * inject_Z w <= inject_Z (n + 1) * inject_Z w)%Q).
    { apply Qmult_le_compat_r; [apply Qlt_le_weak, C2 | clear -Hqw; lra]. }
    rewrite inject_Z_plus in C2w.
    change (inject_Z (2 ^ 53 - 1)) with (9007199254740991 # 1)%Q in *.
    change (inject_Z (2 ^ 53)) with (9007199254740992 # 1)%Q in *.
    change (inject_Z (2 ^ 53 + 1)) with (9007199254740993 # 1)%Q in *.
    change (inject_Z 100) with (100 # 1)%Q in *. change (inject_Z 1) with 1%Q in *.
    assert (Hq : (512 * (inject_Z n * inject_Z w - 1000 * inject_Z c) <= 257 * inject_Z w
                  /\ 512 * (1000 * inject_Z c - inject_Z n * inject_Z w)
                     <= 257 * inject_Z w)%Q).
    { set (qn := inject_Z n) in *. set (qw := inject_Z w) in *. set (qc := inject_Z c) in *.
      assert (Eu : (f1 * (100 # 1) * qw == 100 * (f1 * qw))%Q) by ring.
      assert (Et : ((f2 * 10 + (1 # 2)) * qw == 10 * (f2 * qw) + (1 # 2) * qw)%Q) by ring.
      assert (Es : ((qn + 1) * qw == qn * qw + qw)%Q) by ring.
      assert (A1' : ((9007199254740991 # 1) * qc <= (9007199254740992 # 1) * (f1 * qw))%Q)
        by (rewrite Qmult_assoc; exact A1).
      assert (A2' : ((9007199254740992 # 1) * (f1 * qw) <= (9007199254740993 # 1) * qc)%Q)
        by (rewrite Qmult_assoc; exact A2).
      assert (B1' : ((9007199254740991 # 1) * (100 * (f1 * qw))
                     <= (9007199254740992 # 1) * (f2 * qw))%Q).
      { rewrite <- Eu, !Qmult_assoc. rewrite <- !Qmult_assoc in B1w.
        rewrite !Qmult_assoc in B1w. exact B1w. }
      assert (B2' : ((9007199254740992 # 1) * (f2 * qw)
                     <= (9007199254740993 # 1) * (100 * (f1 * qw)))%Q).
      { rewrite <- Eu, !Qmult_assoc. rewrite !Qmult_assoc in B2w. exact B2w. }
      rewrite Et in C1w, C2w. rewrite Es in C2w.
      set (u := (f1 * qw)%Q) in *. set (t := (f2 * qw)%Q) in *.
      set (s := (qn * qw)%Q) in *.
      clearbody u t s qn qw qc. clear -A1' A2' B1' B2' C1w C2w Hqw Hqc Hqc0.
      split; lra. }
    destruct Hq as [Hq1 Hq2].
    assert (Hz1 : 512 * (n * w - 1000 * c) <= 257 * w).
    { rewrite Zle_Qle. unfold Z.sub.
      rewrite !inject_Z_mult, inject_Z_plus, inject_Z_opp, !inject_Z_mult.
      exact Hq1. }
    assert (Hz2 : 512 * (1000 * c - n * w) <= 257 * w).
    { rewrite Zle_Qle. unfold Z.sub.
      rewrite !inject_Z_mult, inject_Z_plus, inject_Z_opp, !inject_Z_mult.
      exact Hq2. }
    lia.
Qed.

(** X17 at 45 g of carbs in 200 g: "22.5" *)
Lemma carbsPer100g_is_accurate_witness :
  carbs rice = Int 45 /\ weight rice = Int 200
  /\ 0 <= 45 < 2 ^ 32 /\ 0 < 200 < 2 ^ 32
  /\ carbsPer100g rice = Shown (of_string "22.5")
  /\ exists n,
    carbsPer100g rice
    = Shown (decimal_text (n / 10) ++ of_string "." ++ decimal_text (n mod 10))
    /\ 0 <= n
    /\ 512 * Z.abs (n * 200 - 1000 * 45) <= 257 * 200.
Proof.
  split; [reflexivity|]. split; [reflexivity|]. split; [lia|]. split; [lia|].
  split; [vm_compute; reflexivity|].
  apply (@carbsPer100g_is_accurate rice 45 200); try reflexivity; lia.
Defined.

End PerHundred.

(** X18.  A request that fails before any record exists leaves the
    preview with the error stored and the loading flag reset.  With a
    message that is not empty the error overlay is shown, and its Retry
    button sends the same image again with the key then held, putting the
    page back into the loading state with the error cleared.  With an empty
    message the preview shows neither the overlay nor a result card:
    nothing can be retried or opened. *)
Theorem first_failure_offers_retry (s : App.State) (msg img : text) :
  App.carbData s = None ->
  App.showApiKeyModal s = false ->
  App.view s = App.preview ->
  App.capturedImage s = Some img ->
  img <> [] ->
  exists s1,
    App.step s (App.Settled (App.ApiError msg)) = Some (s1, [])
    /\ App.error s1 = Some msg
    /\ App.isLoading s1 = false
    /\ App.error_overlay s1 = App.truthy_text msg
    /\ (msg <> [] ->
        exists s2,
          App.step s1 App.ClickRetry = Some (s2, [App.Fetch (App.apiKey s) img])
          /\ App.isLoading s2 = true
          /\ App.error s2 = None
          /\ App.capturedImage s2 = Some img)
    /\ (msg = [] ->
        App.step s1 App.ClickRetry = None /\ App.step s1 App.ClickResult = None).
Proof.
  intros Hc Hm Hv Hi Hne.
  destruct s as [v key sk m ci l u e cd rr pu]. simpl in *. subst.
  destruct img as [|x img]; [congruence|].
  eexists. split; [reflexivity|]. cbn.
  split; [reflexivity|]. split; [reflexivity|].
  split; [destruct msg; reflexivity|]. split.
  - intros Hmsg. destruct msg as [|y msg]; [congruence|].
    eexists. split; [reflexivity|]. repeat split.
  - intros ->. split; reflexivity.
Qed.

(** X18 at the first photo of a visit *)
Lemma first_failure_offers_retry_witness :
  exists s s1,
    App.step (App.initial (Some testKey)) (App.ClickCapture (Some photo))
    = Some (s, [App.Fetch testKey photo])
    /\ App.carbData s = None
    /\ App.showApiKeyModal s = false
    /\ App.view s = App.preview
    /\ App.capturedImage s = Some photo
    /\ photo <> []
    /\ App.step s (App.Settled (App.ApiError rateLimit)) = Some (s1, [])
    /\ App.error s1 = Some rateLimit
    /\ App.isLoading s1 = false
    /\ App.error_overlay s1 = App.truthy_text rateLimit
    /\ (rateLimit <> [] ->
        exists s2,
          App.step s1 App.ClickRetry = Some (s2, [App.Fetch (App.apiKey s) photo])
          /\ App.isLoading s2 = true
          /\ App.error s2 = None
          /\ App.capturedImage s2 = Some photo)
    /\ (rateLimit = [] ->
        App.step s1 App.ClickRetry = None /\ App.step s1 App.ClickResult = None).
Proof.
  eexists.
  assert (H0 : App.step (App.initial (Some testKey)) (App.ClickCapture (Some photo))
               = Some (App.mkState App.preview testKey (Some testKey) false (Some photo)
                         true false None None None [],
                       [App.Fetch testKey photo]))
    by (vm_compute; reflexivity).
  destruct (@first_failure_offers_retry
              (App.mkState App.preview testKey (Some testKey) false (Some photo)
                 true false None None None [])
              rateLimit photo
              eq_refl eq_refl eq_refl eq_refl ltac:(discriminate))
    as (s1 & H).
  exists s1. split; [exact H0|].
  repeat (split; [first [reflexivity | discriminate]|]). exact H.
Defined.

(** X19.  A line of the item pattern's form is read as it stands.  For a
    name of word characters and white space with a word character at both
    ends, a colon, the weight, "g,", the carbs and "g carbs", with optional
    white space after the colon and after the comma, and with nothing but
    characters that are not word characters before and after the line, the
    fallback returns exactly one item: that name, the values of the two
    numbers and the low confidence. *)
Theorem fallback_reads_an_item_line (before nm sp1 wt sp2 cb after : text) :
  forallb (fun c => negb (is_word c)) before = true ->
  clean_name nm = true ->
  forallb is_space sp1 = true -> digit_text wt ->
  forallb is_space sp2 = true -> digit_text cb ->
  forallb (fun c => negb (is_word c)) after = true ->
  exists d,
    generateEstimatedCarbData (before ++ item_line nm sp1 wt sp2 cb ++ after) = Some d
    /\ foodItems d
       = [mkFoodItem nm (Number_value (decimal_value wt))
            (Number_value (decimal_value cb)) (Some low)].
Proof.
  intros Hbefore Hnm Hsp1 Hwt Hsp2 Hcb Hafter.
  set (t := before ++ item_line nm sp1 wt sp2 cb ++ after).
  assert (Hname : exists x nm', nm = x :: nm' /\ is_word x = true
                                /\ forallb name_char nm' = true).
  { unfold clean_name in Hnm. apply andb_true_iff in Hnm. destruct Hnm as [Hall Hends].
    destruct nm as [|x nm']; [discriminate|]. exists x, nm'.
    apply andb_true_iff in Hends. simpl in Hall. apply andb_true_iff in Hall.
    repeat split; tauto. }
  destruct Hname as (x & nm' & Enm & Hx & Hnm').
  destruct (@foodItemRegex_at_line x nm' sp1 wt sp2 cb after (0 + length before)
              Hx Hnm' Hsp1 Hwt Hsp2 Hcb)
    as (m & Hm & Hc1 & Hc2 & Hc4 & Hrest & Hend).
  rewrite <- Enm in *.
  assert (Hloop : exec_loop true 2 foodItemRegex 0 t = Some [m]).
  { rewrite exec_loop_S. unfold t.
    rewrite (search_skip _ foodItemRegex_starts_with_word _ _ _ Hbefore).
    rewrite (search_from_here Hm), Hrest, exec_loop_S.
    rewrite search_nothing by exact Hafter. reflexivity. }
  exists (assemble t [m]). split.
  - unfold generateEstimatedCarbData.
    rewrite (exec_loop_more_fuel (fuel' := S (length t)) Hloop); [reflexivity|].
    unfold t. rewrite !length_app, item_line_length.
    destruct nm; [discriminate|]. simpl. lia.
  - rewrite foodItems_assemble. simpl map. unfold item_of_match.
    rewrite Hc1, Hc2, Hc4, (trim_clean _ Hnm).
    rewrite (proj1 (parseInt_digits Hwt)), (proj1 (parseInt_digits Hcb)). reflexivity.
Qed.

(** X19 at a bulleted line *)
Lemma fallback_reads_an_item_line_witness :
  exists d,
    generateEstimatedCarbData (of_string "- Grilled chicken: 150g, 0g carbs.") = Some d
    /\ foodItems d
       = [mkFoodItem (of_string "Grilled chicken") (Int 150) (Int 0) (Some low)].
Proof.
  apply (@fallback_reads_an_item_line (of_string "- ") (of_string "Grilled chicken")
           (of_string " ") (of_string "150") (of_string " ") (of_string "0")
           (of_string "."));
    try reflexivity; split; try discriminate; reflexivity.
Defined.

(** X21.  A reply that parses to an object is stored, with foodItems
    backfilled, and shown on the result card.  If the object has the types
    of the schema, a tap on the card opens the details and they are
    rendered.  If it has no breakdown and the card renders, the tap sets
    the view to details and [renderView] throws there: the component is
    unmounted and no click or input is accepted any more. *)
Theorem details_render (s : App.State) (content : text)
    (fields : list (text * json)) :
  App.renders s = true ->
  App.showApiKeyModal s = false ->
  App.view s = App.preview ->
  JSON_parse content = Some (JObject fields) ->
  exists s1 v,
    App.step s (App.Settled (App.Content content)) = Some (s1, [])
    /\ ensure_foodItems (JObject fields) = Some v
    /\ App.carbData s1 = Some v
    /\ (matches_schema fields = true ->
        App.step s1 App.ClickResult = Some (App.set_view App.details s1, [])
        /\ App.renders (App.set_view App.details s1) = true)
    /\ (get_field (of_string "breakdown") fields = None ->
        card_renders v = true ->
        App.step s1 App.ClickResult = Some (App.set_view App.details s1, [])
        /\ App.renders (App.set_view App.details s1) = false
        /\ forall a, (forall r, a <> App.Settled r) ->
                     (forall i, a <> App.Compressed i) ->
                     App.step (App.set_view App.details s1) a = None).
Proof.
  intros Hr Hm Hv Hp.
  assert (He : exists v, ensure_foodItems (JObject fields) = Some v).
  { unfold ensure_foodItems. destruct (get_field foodItemsKey fields) as [w|];
      [destruct (truthy w)|]; eauto. }
  destruct He as (v & He).
  assert (Hn : normalize content = Some (mkOutcome (Some v) None)).
  { unfold normalize, try_parse. rewrite Hp, He. reflexivity. }
  destruct (@AppRuns.content_shown s content v None Hr Hm Hv Hn)
    as (s1 & H1 & Hc & _ & _ & _ & Htap).
  exists s1, v.
  split; [exact H1|]. split; [exact He|]. split; [exact Hc|].
  assert (Hd : App.renders (App.set_view App.details s1) = details_returns v).
  { unfold App.renders. cbn [App.view App.carbData App.set_view]. rewrite Hc.
    reflexivity. }
  split.
  - intros Hs. split.
    + apply Htap. exact (RenderFacts.schema_card_renders _ Hs He).
    + rewrite Hd. exact (RenderFacts.schema_renders _ Hs He).
  - intros Hb Hcard. pose proof (RenderFacts.no_breakdown_throws _ Hb He) as Ht.
    split; [exact (Htap Hcard)|]. split; [rewrite Hd; exact Ht|].
    intros a Ha1 Ha2. unfold App.step. rewrite Hd, Ht.
    destruct a; try reflexivity.
    + exfalso. exact (Ha2 _ eq_refl).
    + exfalso. exact (Ha1 _ eq_refl).
Qed.

(** X21 at the sample record, which is rendered, and at "{}", which is
    not *)
Lemma details_render_witness :
  exists s,
    App.step (App.initial (Some testKey)) (App.ClickCapture (Some photo))
    = Some (s, [App.Fetch testKey photo])
    /\ App.renders s = true
    /\ App.showApiKeyModal s = false
    /\ App.view s = App.preview
    /\ JSON_parse sampleRecord = Some (JObject sampleFields)
    /\ matches_schema sampleFields = true
    /\ JSON_parse emptyObject = Some (JObject [])
    /\ get_field (of_string "breakdown") [] = None
    /\ (exists s1,
          App.step s (App.Settled (App.Content sampleRecord)) = Some (s1, [])
          /\ App.step s1 App.ClickResult = Some (App.set_view App.details s1, [])
          /\ App.renders (App.set_view App.details s1) = true)
    /\ (exists s1,
          App.step s (App.Settled (App.Content emptyObject)) = Some (s1, [])
          /\ App.step s1 App.ClickResult = Some (App.set_view App.details s1, [])
          /\ App.renders (App.set_view App.details s1) = false
          /\ App.step (App.set_view App.details s1) App.ClickClose = None).
Proof.
  eexists. split; [vm_compute; reflexivity|].
  split; [reflexivity|]. split; [reflexivity|]. split; [reflexivity|].
  split; [vm_compute; reflexivity|]. split; [vm_compute; reflexivity|].
  split; [vm_compute; reflexivity|]. split; [reflexivity|]. split.
  - match goal with
    | |- exists s1, App.step ?s _ = _ /\ _ =>
        destruct (@details_render s sampleRecord sampleFields
                    eq_refl eq_refl eq_refl ltac:(vm_compute; reflexivity))
          as (s1 & v & H1 & _ & _ & H4 & _)
    end.
    exists s1. split; [exact H1|]. apply H4. vm_compute. reflexivity.
  - match goal with
    | |- exists s1, App.step ?s _ = _ /\ _ =>
        destruct (@details_render s emptyObject []
                    eq_refl eq_refl eq_refl ltac:(vm_compute; reflexivity))
          as (s1 & v & H1 & He & _ & _ & H5)
    end.
    exists s1. split; [exact H1|].
    vm_compute in He. inversion He; subst v.
    destruct (H5 eq_refl eq_refl) as (H6 & H7 & H8).
    split; [exact H6|]. split; [exact H7|].
    apply H8; intros; discriminate.
Defined.

(** X22.  An upload sends the key that was in the state when its file was
    chosen.  The call of [handleFileSelect] is suspended while the image
    is compressed; whatever happens to the page meanwhile, short of
    another upload being resumed, its request carries the key of that
    moment, not the key the state holds when the request is sent. *)
Theorem upload_sends_the_key_of_its_choice (s : App.State) (f : App.file)
    (img : text) (acts : list App.action) :
  App.renders s = true ->
  App.showApiKeyModal s = false ->
  App.view s = App.camera ->
  App.is_image f = true ->
  App.compressed f = Some img ->
  Forall (fun a => forall i, a <> App.Compressed i) acts ->
  exists s0,
    App.step s (App.FileChosen (Some f)) = Some (s0, [App.CompressImage])
    /\ App.isUploading s0 = true
    /\ forall s1,
         App.final s0 acts = Some s1 ->
         exists s2,
           App.step s1 (App.Compressed (length (App.pendingUploads s)))
           = Some (s2, [App.Fetch (App.apiKey s) img])
           /\ (App.renders s1 = true ->
               App.capturedImage s2 = Some img
               /\ App.view s2 = App.preview
               /\ App.isLoading s2 = true
               /\ App.isUploading s2 = false).
Proof.
  intros Hr Hm Hv Hi Hc Hacts.
  exists (App.set_pendingUploads (App.pendingUploads s ++ [(App.apiKey s, f)])
            (App.set_isUploading true s)).
  split.
  { unfold App.step, App.handleFileSelect. rewrite Hr, Hm, Hv, Hi. reflexivity. }
  split; [reflexivity|].
  intros s1 Hfin. unfold App.final in Hfin.
  destruct (App.run _ acts) as [tr|] eqn:Hrun; [|discriminate].
  simpl in Hfin. inversion Hfin; subst s1. clear Hfin.
  assert (Hn0 : nth_error (App.pendingUploads s ++ [(App.apiKey s, f)])
                   (length (App.pendingUploads s)) = Some (App.apiKey s, f)).
  { rewrite nth_error_app2, Nat.sub_diag by apply Nat.le_refl. reflexivity. }
  pose proof (@AppRuns.run_keeps_pending (length (App.pendingUploads s))
                (App.apiKey s, f) acts
                (App.set_pendingUploads (App.pendingUploads s ++ [(App.apiKey s, f)])
                   (App.set_isUploading true s))
                tr Hn0 Hacts Hrun) as Hn.
  set (s1 := last (map fst tr) _) in *.
  unfold App.step. rewrite Hn.
  unfold App.handleFileSelect_resume, App.analyzeImage. rewrite Hc.
  eexists. split; [reflexivity|].
  intros Hr1. unfold App.commit. rewrite Hr1. repeat split.
Qed.

(** X22 at an upload during which the key is replaced in the settings *)
Lemma upload_sends_the_key_of_its_choice_witness :
  App.renders (App.initial (Some testKey)) = true
  /\ App.showApiKeyModal (App.initial (Some testKey)) = false
  /\ App.view (App.initial (Some testKey)) = App.camera
  /\ App.is_image imageFile = true
  /\ App.compressed imageFile = Some photo
  /\ Forall (fun a => forall i, a <> App.Compressed i) key_change
  /\ exists s0 s1 s2,
    App.step (App.initial (Some testKey)) (App.FileChosen (Some imageFile))
    = Some (s0, [App.CompressImage])
    /\ App.final s0 key_change = Some s1
    /\ App.apiKey s1 = otherKey
    /\ App.step s1 (App.Compressed 0) = Some (s2, [App.Fetch testKey photo])
    /\ App.view s2 = App.preview.
Proof.
  assert (Hacts : Forall (fun a => forall i, a <> App.Compressed i) key_change).
  { repeat constructor; intros i; discriminate. }
  repeat (split; [first [reflexivity | exact Hacts]|]).
  destruct (@upload_sends_the_key_of_its_choice (App.initial (Some testKey))
              imageFile photo key_change
              eq_refl eq_refl eq_refl eq_refl eq_refl Hacts)
    as (s0 & H0 & _ & H).
  exists s0.
  assert (E : s0 = App.set_pendingUploads [(testKey, imageFile)]
                     (App.set_isUploading true (App.initial (Some testKey)))).
  { vm_compute in H0. inversion H0. reflexivity. }
  subst s0.
  destruct (H _ eq_refl) as (s2 & H2 & H3).
  eexists. exists s2. split; [exact H0|]. split; [reflexivity|].
  split; [reflexivity|]. split; [exact H2|].
  apply H3. reflexivity.
Defined.
